(** * CryptoUtils: chunked RSA-OAEP message codec and PBKDF2 password codec

    A shallow embedding of [crypto_utils.py].  Python [bytes] are lists of
    [Byte.byte], Python [str] values are lists of Unicode code points, raised
    exceptions are the [Raise] branch of [result], and the calls that consume
    operating-system entropy thread an explicit random tape.  The standard
    library pieces the module leans on ([str.encode], [bytes.decode],
    [base64], [hashlib.pbkdf2_hmac]) are written out; the RSA primitives of
    PyCryptodome are an interface with a contract. *)

From Stdlib Require Import String List NArith ZArith Arith Lia Bool.
From Stdlib Require Import DecimalString DecimalNat.
From Stdlib.Strings Require Import Byte.
Import ListNotations.

(* ================================================================= *)
(** ** Python values, exceptions and effects *)

Module Py.

(** Exceptions the module can meet.  All of them derive from [Exception],
    so every [except Exception] clause of the source catches each one. *)
Inductive exn : Type :=
| UnicodeEncodeError
| UnicodeDecodeError
| BinasciiError
| ValueError
| TypeError
| Exception (msg : string).

Inductive result (A : Type) : Type :=
| Ok (a : A)
| Raise (e : exn).
Arguments Ok {A} a.
Arguments Raise {A} e.

Definition bind {A B} (r : result A) (k : A -> result B) : result B :=
  match r with
  | Ok a => k a
  | Raise e => Raise e
  end.

Definition fmap {A B} (f : A -> B) (r : result A) : result B :=
  bind r (fun a => Ok (f a)).

(** [try: body / except Exception as e: handler e] *)
Definition try_except {A} (body : result A) (handler : exn -> result A)
  : result A :=
  match body with
  | Ok a => Ok a
  | Raise e => handler e
  end.

(** A [str] is a sequence of code points; a [bytes] a sequence of bytes. *)
Definition str := list N.
Definition bytes := list byte.

(** [bytes([n & 0xff])]: the byte holding the low eight bits of [n]. *)
Definition b8 (n : N) : byte :=
  match Byte.of_N (N.land n 0xff) with
  | Some b => b
  | None => x00
  end.

(** ASCII literals of the source, as [bytes] and as [str]. *)
Definition lit_bytes (s : string) : bytes := list_byte_of_string s.
Definition lit (s : string) : str := map Byte.to_N (list_byte_of_string s).

(** [c in s] *)
Definition contains (c : N) (s : str) : bool := existsb (N.eqb c) s.

(** [s.split(sep)] for a one-character separator: one more piece than
    there are separators, empty pieces kept. *)
Fixpoint split (sep : N) (s : str) : list str :=
  match s with
  | [] => [[]]
  | c :: r =>
      if N.eqb c sep then [] :: split sep r
      else match split sep r with
           | p :: ps => (c :: p) :: ps
           | [] => [[c]]
           end
  end.

(** [sep.join(pieces)] *)
Fixpoint join (sep : N) (pieces : list str) : str :=
  match pieces with
  | [] => []
  | [p] => p
  | p :: ps => p ++ sep :: join sep ps
  end.

(** [b''.join(pieces)] *)
Definition join_bytes (pieces : list bytes) : bytes := concat pieces.

(** [range(start, stop, step)] for a positive step, unrolled as the loop
    [i = start; while i < stop: yield i; i += step].  At most [stop]
    values are produced, which bounds the unrolling. *)
Fixpoint range_from (fuel i stop step : nat) : list nat :=
  match fuel with
  | O => []
  | S fuel' =>
      if i <? stop then i :: range_from fuel' (i + step) stop step
      else []
  end.

Definition range (start stop step : nat) : list nat :=
  range_from stop start stop step.

(** [b[lo:hi]] for [0 <= lo <= hi]; slicing clamps to the length. *)
Definition slice (b : bytes) (lo hi : nat) : bytes :=
  firstn (hi - lo) (skipn lo b).

End Py.
Import Py.

Declare Scope py_scope.
Delimit Scope py_scope with py.
Notation "x <- c1 ;; c2" := (Py.bind c1 (fun x => c2))
  (at level 61, c1 at next level, right associativity) : py_scope.

(* ================================================================= *)
(** ** [str.encode('utf-8')] and [bytes.decode('utf-8')] (strict) *)

Module Utf8.

Local Open Scope N_scope.

(** The bytes of one code point.  Lone surrogates are refused, as the
    strict error handler does. *)
Definition encode_cp (c : N) : result bytes :=
  if c <? 0x80 then Ok [b8 c]
  else if c <? 0x800 then
    Ok [b8 (N.lor 0xC0 (N.shiftr c 6));
        b8 (N.lor 0x80 (N.land c 0x3F))]
  else if c <? 0x10000 then
    if (0xD800 <=? c) && (c <=? 0xDFFF) then Raise UnicodeEncodeError
    else
      Ok [b8 (N.lor 0xE0 (N.shiftr c 12));
          b8 (N.lor 0x80 (N.land (N.shiftr c 6) 0x3F));
          b8 (N.lor 0x80 (N.land c 0x3F))]
  else if c <? 0x110000 then
    Ok [b8 (N.lor 0xF0 (N.shiftr c 18));
        b8 (N.lor 0x80 (N.land (N.shiftr c 12) 0x3F));
        b8 (N.lor 0x80 (N.land (N.shiftr c 6) 0x3F));
        b8 (N.lor 0x80 (N.land c 0x3F))]
  else Raise UnicodeEncodeError.

Fixpoint encode (s : str) : result bytes :=
  match s with
  | [] => Ok []
  | c :: r =>
      (bs <- encode_cp c ;;
       rest <- encode r ;;
       Ok (bs ++ rest))%py
  end.

(** What a leading byte announces. *)
Inductive lead : Type :=
| Lead1 (c : N)        (* 0xxxxxxx: a whole code point *)
| Lead2 (hi : N)       (* 110xxxxx, not overlong *)
| Lead3 (hi : N)       (* 1110xxxx *)
| Lead4 (hi : N)       (* 11110xxx, at most 0xF4 *)
| LeadBad.

Definition classify (b0 : byte) : lead :=
  let n := Byte.to_N b0 in
  if n <? 0x80 then Lead1 n
  else if n <? 0xC2 then LeadBad
  else if n <? 0xE0 then Lead2 (N.land n 0x1F)
  else if n <? 0xF0 then Lead3 (N.land n 0x0F)
  else if n <? 0xF5 then Lead4 (N.land n 0x07)
  else LeadBad.

Definition is_cont (b : byte) : bool :=
  N.land (Byte.to_N b) 0xC0 =? 0x80.

Definition payload (b : byte) : N := N.land (Byte.to_N b) 0x3F.

Definition assemble2 (hi : N) (b1 : byte) : option N :=
  if is_cont b1 then Some (N.lor (N.shiftl hi 6) (payload b1))
  else None.

Definition assemble3 (hi : N) (b1 b2 : byte) : option N :=
  if is_cont b1 && is_cont b2 then
    let c := N.lor (N.shiftl hi 12)
               (N.lor (N.shiftl (payload b1) 6) (payload b2)) in
    if c <? 0x800 then None                                (* overlong *)
    else if (0xD800 <=? c) && (c <=? 0xDFFF) then None     (* surrogate *)
    else Some c
  else None.

Definition assemble4 (hi : N) (b1 b2 b3 : byte) : option N :=
  if is_cont b1 && is_cont b2 && is_cont b3 then
    let c := N.lor (N.shiftl hi 18)
               (N.lor (N.shiftl (payload b1) 12)
                  (N.lor (N.shiftl (payload b2) 6) (payload b3))) in
    if c <? 0x10000 then None                              (* overlong *)
    else if 0x10FFFF <? c then None                        (* too large *)
    else Some c
  else None.

Definition push (c : option N) (rest : result str) : result str :=
  match c with
  | Some c => fmap (cons c) rest
  | None => Raise UnicodeDecodeError
  end.

Fixpoint decode (bs : bytes) : result str :=
  match bs with
  | [] => Ok []
  | b0 :: r0 =>
      match classify b0 with
      | Lead1 c => push (Some c) (decode r0)
      | Lead2 hi =>
          match r0 with
          | b1 :: r1 => push (assemble2 hi b1) (decode r1)
          | _ => Raise UnicodeDecodeError
          end
      | Lead3 hi =>
          match r0 with
          | b1 :: b2 :: r2 => push (assemble3 hi b1 b2) (decode r2)
          | _ => Raise UnicodeDecodeError
          end
      | Lead4 hi =>
          match r0 with
          | b1 :: b2 :: b3 :: r3 => push (assemble4 hi b1 b2 b3) (decode r3)
          | _ => Raise UnicodeDecodeError
          end
      | LeadBad => Raise UnicodeDecodeError
      end
  end.

(** The decoder reads back what the encoder wrote for [c], checked per
    code point. *)
Definition lead_eqb (a b : lead) : bool :=
  match a, b with
  | Lead1 x, Lead1 y | Lead2 x, Lead2 y
  | Lead3 x, Lead3 y | Lead4 x, Lead4 y => x =? y
  | LeadBad, LeadBad => true
  | _, _ => false
  end.

Definition opt_is (o : option N) (c : N) : bool :=
  match o with
  | Some x => x =? c
  | None => false
  end.

Definition cp_reads_back (c : N) : bool :=
  match encode_cp c with
  | Ok [b0] => lead_eqb (classify b0) (Lead1 c)
  | Ok [b0; b1] =>
      match classify b0 with
      | Lead2 hi => opt_is (assemble2 hi b1) c
      | _ => false
      end
  | Ok [b0; b1; b2] =>
      match classify b0 with
      | Lead3 hi => opt_is (assemble3 hi b1 b2) c
      | _ => false
      end
  | Ok [b0; b1; b2; b3] =>
      match classify b0 with
      | Lead4 hi => opt_is (assemble4 hi b1 b2 b3) c
      | _ => false
      end
  | Ok _ => false
  | Raise _ => true
  end.

(** Bytes below 128. *)
Definition ascii (bs : bytes) : Prop :=
  Forall (fun b => (Byte.to_N b < 0x80)%N) bs.

End Utf8.

(** Exhaustive checks over all numbers of a given bit width. *)
Fixpoint forall_bits (k : nat) (f : N -> bool) (base : N) : bool :=
  match k with
  | O => f base
  | S k' => forall_bits k' f (2 * base)%N && forall_bits k' f (2 * base + 1)%N
  end.

Definition all_bytes : list byte :=
  flat_map (fun n => match Byte.of_nat n with Some b => [b] | None => [] end)
           (seq 0 256).

Definition forall_byte (f : byte -> bool) : bool := forallb f all_bytes.


(* ================================================================= *)
(** ** [base64.b64encode] and [base64.b64decode] *)

Module Base64.

Local Open Scope N_scope.

(** [table_b2a_base64]: the RFC 4648 standard alphabet. *)
Definition alphabet : bytes :=
  lit_bytes "ABCDEFGHIJKLMNOPQRSTUVWXYZabcdefghijklmnopqrstuvwxyz0123456789+/".

Definition BASE64_PAD : byte := "=".

Definition b2a (sextet : N) : byte :=
  nth (N.to_nat (N.land sextet 0x3F)) alphabet BASE64_PAD.

(** [table_a2b_base64]: the value of an alphabet character, [None] for
    every other byte. *)
Definition a2b (ch : byte) : option N :=
  let n := Byte.to_N ch in
  if (0x41 <=? n) && (n <=? 0x5A) then Some (n - 0x41)            (* A-Z *)
  else if (0x61 <=? n) && (n <=? 0x7A) then Some (n - 0x61 + 26)  (* a-z *)
  else if (0x30 <=? n) && (n <=? 0x39) then Some (n - 0x30 + 52)  (* 0-9 *)
  else if n =? 0x2B then Some 62                                  (* + *)
  else if n =? 0x2F then Some 63                                  (* / *)
  else None.

(** [b64encode(s)] is [binascii.b2a_base64(s, newline=False)]: three
    bytes become four characters, and a final group of one or two bytes
    is padded with [=]. *)
Fixpoint b64encode (s : bytes) : bytes :=
  match s with
  | [] => []
  | [a] =>
      let a := Byte.to_N a in
      [b2a (N.shiftr a 2); b2a (N.shiftl (N.land a 3) 4);
       BASE64_PAD; BASE64_PAD]
  | [a; b] =>
      let a := Byte.to_N a in
      let b := Byte.to_N b in
      [b2a (N.shiftr a 2);
       b2a (N.lor (N.shiftl (N.land a 3) 4) (N.shiftr b 4));
       b2a (N.shiftl (N.land b 0xf) 2);
       BASE64_PAD]
  | a :: b :: c :: rest =>
      let a := Byte.to_N a in
      let b := Byte.to_N b in
      let c := Byte.to_N c in
      b2a (N.shiftr a 2)
      :: b2a (N.lor (N.shiftl (N.land a 3) 4) (N.shiftr b 4))
      :: b2a (N.lor (N.shiftl (N.land b 0xf) 2) (N.shiftr c 6))
      :: b2a (N.land c 0x3f)
      :: b64encode rest
  end.

(** [b64decode(s)] with the default [validate=False] is
    [binascii.a2b_base64(s)] in its lenient mode: bytes outside the
    alphabet are skipped, a pad that completes a quad ends the input,
    and a quad left open at the end is an error.  The arguments are the
    locals of the C loop: [quad_pos], [leftchar], [pads] and the output
    written so far. *)
Fixpoint a2b_loop (data : bytes) (quad_pos : nat) (leftchar : N)
         (pads : nat) (bin_data : bytes) : result bytes :=
  match data with
  | [] =>
      if Nat.eqb quad_pos 0 then Ok bin_data else Raise BinasciiError
  | this_ch :: rest =>
      if Byte.eqb this_ch BASE64_PAD then
        if Nat.leb 2 quad_pos then
          if Nat.leb 4 (quad_pos + S pads) then Ok bin_data
          else a2b_loop rest quad_pos leftchar (S pads) bin_data
        else a2b_loop rest quad_pos leftchar pads bin_data
      else
        match a2b this_ch with
        | None => a2b_loop rest quad_pos leftchar pads bin_data
        | Some v =>
            match quad_pos with
            | 0%nat => a2b_loop rest 1 v 0 bin_data
            | 1%nat =>
                a2b_loop rest 2 (N.land v 0x0f) 0
                  (bin_data ++ [b8 (N.lor (N.shiftl leftchar 2) (N.shiftr v 4))])
            | 2%nat =>
                a2b_loop rest 3 (N.land v 0x03) 0
                  (bin_data ++ [b8 (N.lor (N.shiftl leftchar 4) (N.shiftr v 2))])
            | _ =>
                a2b_loop rest 0 0 0
                  (bin_data ++ [b8 (N.lor (N.shiftl leftchar 6) v)])
            end
        end
  end.

Definition b64decode (s : bytes) : result bytes := a2b_loop s 0 0 0 [].

(** Per-byte facts that make decoding undo encoding, as boolean checks. *)
Definition sextet_reads_back (i : N) : bool :=
  match a2b (b2a i) with
  | Some v => (v =? i) && negb (Byte.eqb (b2a i) BASE64_PAD)
  | None => false
  end.

Definition byte_is (n : N) (b : byte) : bool := Byte.eqb (b8 n) b.

Definition quad_first (a b : byte) : bool :=
  let x := Byte.to_N a in
  let y := Byte.to_N b in
  let s1 := N.shiftr x 2 in
  let s2 := N.lor (N.shiftl (N.land x 3) 4) (N.shiftr y 4) in
  (s1 <? 64) && (s2 <? 64)
  && byte_is (N.lor (N.shiftl s1 2) (N.shiftr s2 4)) a
  && (N.land s2 0x0f =? N.shiftr y 4).

Definition quad_rest (b c : byte) : bool :=
  let y := Byte.to_N b in
  let z := Byte.to_N c in
  let s3 := N.lor (N.shiftl (N.land y 0xf) 2) (N.shiftr z 6) in
  let s4 := N.land z 0x3f in
  (s3 <? 64) && (s4 <? 64)
  && byte_is (N.lor (N.shiftl (N.shiftr y 4) 4) (N.shiftr s3 2)) b
  && byte_is (N.lor (N.shiftl (N.land s3 0x03) 6) s4) c.

(** The last group: one byte (second sextet has only its high two bits)
    or two bytes (third sextet has only its high four bits). *)
Definition tail_one (a : byte) : bool :=
  let x := Byte.to_N a in
  let s1 := N.shiftr x 2 in
  let s2 := N.shiftl (N.land x 3) 4 in
  (s1 <? 64) && (s2 <? 64)
  && byte_is (N.lor (N.shiftl s1 2) (N.shiftr s2 4)) a.

Definition tail_two (a b : byte) : bool :=
  let x := Byte.to_N a in
  let y := Byte.to_N b in
  let s2 := N.lor (N.shiftl (N.land x 3) 4) (N.shiftr y 4) in
  let s3 := N.shiftl (N.land y 0xf) 2 in
  (s3 <? 64)
  && byte_is (N.lor (N.shiftl (N.land s2 0x0f) 4) (N.shiftr s3 2)) b.

(** Characters the encoder can write. *)
Definition b64_char (b : byte) : bool :=
  match a2b b with
  | Some _ => true
  | None => Byte.eqb b BASE64_PAD
  end.

End Base64.

(* ================================================================= *)
(** ** [hashlib]: SHA-256, HMAC-SHA256 and [pbkdf2_hmac('sha256', ...)] *)

Module Sha256.

Local Open Scope N_scope.

(** 32-bit words are numbers below [2^32]; every operation that can
    overflow truncates explicitly. *)
Definition w32 (x : N) : N := N.land x 0xFFFFFFFF.
Definition add32 (x y : N) : N := w32 (x + y).
Definition rotr (n x : N) : N :=
  N.lor (N.shiftr x n) (w32 (N.shiftl x (32 - n))).
Definition not32 (x : N) : N := N.lxor x 0xFFFFFFFF.

Definition Ch (x y z : N) : N := N.lxor (N.land x y) (N.land (not32 x) z).
Definition Maj (x y z : N) : N :=
  N.lxor (N.lxor (N.land x y) (N.land x z)) (N.land y z).
Definition Sigma0 (x : N) : N := N.lxor (N.lxor (rotr 2 x) (rotr 13 x)) (rotr 22 x).
Definition Sigma1 (x : N) : N := N.lxor (N.lxor (rotr 6 x) (rotr 11 x)) (rotr 25 x).
Definition sigma0 (x : N) : N := N.lxor (N.lxor (rotr 7 x) (rotr 18 x)) (N.shiftr x 3).
Definition sigma1 (x : N) : N := N.lxor (N.lxor (rotr 17 x) (rotr 19 x)) (N.shiftr x 10).

(** The constants of FIPS 180-4 are fractional parts of roots of the
    first primes, 32 bits each: cube roots of the first 64 primes for the
    round constants, square roots of the first 8 for the initial state. *)
Definition primes : list N :=
  [2; 3; 5; 7; 11; 13; 17; 19; 23; 29; 31; 37; 41; 43; 47; 53;
   59; 61; 67; 71; 73; 79; 83; 89; 97; 101; 103; 107; 109; 113; 127; 131;
   137; 139; 149; 151; 157; 163; 167; 173; 179; 181; 191; 193; 197; 199;
   211; 223; 227; 229; 233; 239; 241; 251; 257; 263; 269; 271; 277; 281;
   283; 293; 307; 311].

(** The integer cube root of [x], found bit by bit from bit [n - 1] down. *)
Fixpoint cube_root (n : nat) (x r : N) : N :=
  match n with
  | O => r
  | S n' =>
      let r' := r + 2 ^ N.of_nat n' in
      if r' * r' * r' <=? x then cube_root n' x r' else cube_root n' x r
  end.

Definition frac_cube_root (p : N) : N := w32 (cube_root 36 (p * 2 ^ 96) 0).
Definition frac_square_root (p : N) : N := w32 (N.sqrt (p * 2 ^ 64)).

Definition K : list N := Eval vm_compute in map frac_cube_root primes.

(** The eight chaining words. *)
Record state : Type := State {
  ha : N; hb : N; hc : N; hd : N; he : N; hf : N; hg : N; hh : N
}.

Definition H0 : state :=
  Eval vm_compute in
    State (frac_square_root 2) (frac_square_root 3) (frac_square_root 5)
          (frac_square_root 7) (frac_square_root 11) (frac_square_root 13)
          (frac_square_root 17) (frac_square_root 19).

Definition be32 (w : N) : bytes :=
  [b8 (N.shiftr w 24); b8 (N.shiftr w 16); b8 (N.shiftr w 8); b8 w].

Definition be64 (w : N) : bytes :=
  be32 (N.shiftr w 32) ++ be32 w.

Definition word_of (b0 b1 b2 b3 : byte) : N :=
  N.lor (N.shiftl (Byte.to_N b0) 24)
    (N.lor (N.shiftl (Byte.to_N b1) 16)
       (N.lor (N.shiftl (Byte.to_N b2) 8) (Byte.to_N b3))).

Fixpoint words_of (bs : bytes) : list N :=
  match bs with
  | b0 :: b1 :: b2 :: b3 :: rest => word_of b0 b1 b2 b3 :: words_of rest
  | _ => []
  end.

(** Message padding: a one bit, zeros up to 56 modulo 64, then the bit
    length on eight bytes. *)
Definition pad (msg : bytes) : bytes :=
  let len := List.length msg in
  msg ++ x80 :: repeat x00 ((119 - len mod 64) mod 64)%nat
      ++ be64 (8 * N.of_nat len).

(** The message schedule [W_0 .. W_63], kept most recent first while it
    is extended. *)
Fixpoint extend (n : nat) (rev_w : list N) : list N :=
  match n with
  | O => rev_w
  | S n' =>
      let w :=
        add32 (add32 (sigma1 (nth 1 rev_w 0)) (nth 6 rev_w 0))
              (add32 (sigma0 (nth 14 rev_w 0)) (nth 15 rev_w 0)) in
      extend n' (w :: rev_w)
  end.

Definition schedule (block : bytes) : list N :=
  rev (extend 48 (rev (words_of block))).

Definition round (s : state) (kw : N * N) : state :=
  let (k, w) := kw in
  let t1 := add32 (add32 (add32 (add32 (hh s) (Sigma1 (he s)))
                                (Ch (he s) (hf s) (hg s))) k) w in
  let t2 := add32 (Sigma0 (ha s)) (Maj (ha s) (hb s) (hc s)) in
  State (add32 t1 t2) (ha s) (hb s) (hc s)
        (add32 (hd s) t1) (he s) (hf s) (hg s).

Definition compress (h : state) (block : bytes) : state :=
  let s := fold_left round (combine K (schedule block)) h in
  State (add32 (ha h) (ha s)) (add32 (hb h) (hb s))
        (add32 (hc h) (hc s)) (add32 (hd h) (hd s))
        (add32 (he h) (he s)) (add32 (hf h) (hf s))
        (add32 (hg h) (hg s)) (add32 (hh h) (hh s)).

(** Consume the padded message 64 bytes at a time. *)
Fixpoint absorb (fuel : nat) (h : state) (data : bytes) : state :=
  match fuel, data with
  | S fuel', _ :: _ => absorb fuel' (compress h (firstn 64 data)) (skipn 64 data)
  | _, _ => h
  end.

Definition digest_of (h : state) : bytes :=
  be32 (ha h) ++ be32 (hb h) ++ be32 (hc h) ++ be32 (hd h)
  ++ be32 (he h) ++ be32 (hf h) ++ be32 (hg h) ++ be32 (hh h).

(** [hashlib.sha256(msg).digest()] *)
Definition sha256 (msg : bytes) : bytes :=
  let p := pad msg in
  digest_of (absorb (List.length p) H0 p).

Definition digest_size : nat := 32.
Definition block_size : nat := 64.

End Sha256.

Module Hmac.

Import Sha256.

Definition xor_with (c : N) (bs : bytes) : bytes :=
  map (fun b => b8 (N.lxor (Byte.to_N b) c)) bs.

(** The key as HMAC uses it: hashed when longer than a block, then
    filled with zero bytes up to the block size. *)
Definition key_block (key : bytes) : bytes :=
  let k := if block_size <? List.length key then sha256 key else key in
  k ++ repeat x00 (block_size - List.length k).

(** [hmac.digest(key, msg, 'sha256')] *)
Definition hmac_sha256 (key msg : bytes) : bytes :=
  let kb := key_block key in
  sha256 (xor_with 0x5c kb ++ sha256 (xor_with 0x36 kb ++ msg)).

End Hmac.

Module Pbkdf2.

Import Sha256 Hmac.

Definition xor_bytes (x y : bytes) : bytes :=
  map (fun p => b8 (N.lxor (Byte.to_N (fst p)) (Byte.to_N (snd p))))
      (combine x y).

(** One more iteration: [U_j = PRF(P, U_{j-1})], folded into the
    running xor. *)
Definition step (password : bytes) (ut : bytes * bytes) : bytes * bytes :=
  let u := hmac_sha256 password (fst ut) in
  (u, xor_bytes (snd ut) u).

(** Block [i] of the derived key: [U_1 xor U_2 xor ... xor U_c]. *)
Definition F (password salt : bytes) (iterations : N) (i : N) : bytes :=
  let u1 := hmac_sha256 password (salt ++ be32 i) in
  snd (N.iter (iterations - 1) (step password) (u1, u1)).

(** [hashlib.pbkdf2_hmac('sha256', password, salt, iterations)]: with
    [dklen] left out the derived key is one digest long, that is, the
    first block alone. *)
Definition pbkdf2_hmac_sha256 (password salt : bytes) (iterations : N)
  : bytes :=
  firstn digest_size (F password salt iterations 1).

End Pbkdf2.

(** Known answers, to pin the transcription of the primitives. *)
Definition hex_digit (b : byte) : N :=
  let n := Byte.to_N b in
  if (0x61 <=? n)%N then (n - 0x61 + 10)%N else (n - 0x30)%N.

Fixpoint unhex (s : bytes) : bytes :=
  match s with
  | h :: l :: rest => b8 (16 * hex_digit h + hex_digit l) :: unhex rest
  | _ => []
  end.

(* ================================================================= *)
(** ** Randomness *)

Module Rand.

(** The operating system's entropy: an endless tape of bytes, read from
    the front. *)
Definition tape : Type := nat -> byte.

(** A computation that may read the tape and may raise. *)
Definition rand (A : Type) : Type := tape -> result A * tape.

Definition ret {A} (a : A) : rand A := fun t => (Ok a, t).

Definition raise {A} (e : exn) : rand A := fun t => (Raise e, t).

Definition bind {A B} (m : rand A) (k : A -> rand B) : rand B :=
  fun t =>
    match m t with
    | (Ok a, t') => k a t'
    | (Raise e, t') => (Raise e, t')
    end.

Definition lift {A} (r : result A) : rand A := fun t => (r, t).

Definition try_except {A} (body : rand A) (handler : exn -> rand A)
  : rand A :=
  fun t =>
    match body t with
    | (Ok a, t') => (Ok a, t')
    | (Raise e, t') => handler e t'
    end.

Definition advance (n : nat) (t : tape) : tape := fun i => t (n + i).

(** [Crypto.Random.get_random_bytes(n)] *)
Definition get_random_bytes (n : nat) : rand bytes :=
  fun t => (Ok (map t (seq 0 n)), advance n t).

End Rand.
Import Rand.

Declare Scope rand_scope.
Delimit Scope rand_scope with rand.
Notation "x <- c1 ;; c2" := (Rand.bind c1 (fun x => c2))
  (at level 61, c1 at next level, right associativity) : rand_scope.

(* ================================================================= *)
(** ** The RSA primitives of PyCryptodome, as an interface *)

(** [Crypto.PublicKey.RSA] and [Crypto.Cipher.PKCS1_OAEP], with the default
    SHA-1 hash of OAEP. *)
Class RSA : Type := {
  RsaKey : Type;
  (** [RSA.generate(bits)] *)
  generate : nat -> rand RsaKey;
  (** [RSA.import_key(pem)] *)
  import_key : bytes -> result RsaKey;
  (** [key.export_key()], PEM by default *)
  export_key : RsaKey -> bytes;
  (** [key.publickey()] *)
  publickey : RsaKey -> RsaKey;
  (** [key.has_private()] *)
  has_private : RsaKey -> bool;
  (** [key.size_in_bytes()] *)
  size_in_bytes : RsaKey -> nat;
  (** [PKCS1_OAEP.new(key).encrypt(message)] *)
  oaep_encrypt : RsaKey -> bytes -> rand bytes;
  (** [PKCS1_OAEP.new(key).decrypt(ciphertext)] *)
  oaep_decrypt : RsaKey -> bytes -> result bytes
}.

(** Bytes OAEP adds to a message: two SHA-1 digests and two more. *)
Definition oaep_overhead : nat := 2 * 20 + 2.

(** What the library documents of these operations. *)
Class RSAContract (R : RSA) : Prop := {
  (** A generated key is a private key of the size asked for. *)
  generate_private : forall bits t k t',
    generate bits t = (Ok k, t') ->
    has_private k = true /\ size_in_bytes k = (bits + 7) / 8;
  (** Taking the public half keeps the modulus. *)
  publickey_size : forall k, size_in_bytes (publickey k) = size_in_bytes k;
  (** PEM is ASCII text, and importing it gives the key back. *)
  export_ascii : forall k,
    Forall (fun b => (Byte.to_N b < 0x80)%N) (export_key k);
  import_export : forall k, import_key (export_key k) = Ok k;
  (** Encryption accepts every message that leaves room for the padding. *)
  encrypt_fits : forall k m t,
    List.length m + oaep_overhead <= size_in_bytes k ->
    exists c t', oaep_encrypt k m t = (Ok c, t');
  (** Decrypting with the private key undoes encrypting with its public
      half, whatever randomness the padding drew. *)
  decrypt_encrypt : forall k m t c t',
    has_private k = true ->
    oaep_encrypt (publickey k) m t = (Ok c, t') ->
    oaep_decrypt k c = Ok m;
  (** A ciphertext is refused unless it is exactly one modulus long, and
      the modulus has room for the padding. *)
  decrypt_length : forall k c m,
    oaep_decrypt k c = Ok m ->
    List.length c = size_in_bytes k /\ oaep_overhead <= size_in_bytes k
}.


(* ================================================================= *)
(** ** [class CryptoUtils] *)

Definition PIPE : N := 0x7C.   (* '|' *)

(** [self.key_size], set by [__init__] and never assigned again. *)
Definition key_size : nat := 2048.

Definition max_chunk_size : nat := key_size / 8 - 42.

Section Messages.

Context {R : RSA}.

Definition generate_key_pair : rand (str * str) :=
  Rand.try_except
    (key <- generate key_size ;;
     private_key <- lift (Utf8.decode (export_key key)) ;;
     public_key <- lift (Utf8.decode (export_key (publickey key))) ;;
     ret (public_key, private_key))%rand
    (fun _ => raise (Exception "Failed to generate RSA key pair")).

(** The body of [for i in range(0, len(message_bytes), max_chunk_size)],
    over the indices still to visit, with the list [chunks] built so
    far. *)
Fixpoint encrypt_chunks (public_key : RsaKey) (message_bytes : bytes)
         (indices : list nat) (chunks : list str) : rand (list str) :=
  match indices with
  | [] => ret chunks
  | i :: indices' =>
      (let chunk := slice message_bytes i (i + max_chunk_size) in
       encrypted_chunk <- oaep_encrypt public_key chunk ;;
       block <- lift (Utf8.decode (Base64.b64encode encrypted_chunk)) ;;
       encrypt_chunks public_key message_bytes indices' (chunks ++ [block]))%rand
  end.

Definition encrypt_message (message public_key_pem : str) : rand str :=
  Rand.try_except
    (pem <- lift (Utf8.encode public_key_pem) ;;
     public_key <- lift (import_key pem) ;;
     message_bytes <- lift (Utf8.encode message) ;;
     if List.length message_bytes <=? max_chunk_size then
       encrypted_data <- oaep_encrypt public_key message_bytes ;;
       lift (Utf8.decode (Base64.b64encode encrypted_data))
     else
       chunks <- encrypt_chunks public_key message_bytes
                   (range 0 (List.length message_bytes) max_chunk_size) [] ;;
       ret (join PIPE chunks))%rand
    (fun _ => raise (Exception "Failed to encrypt message")).

(** The body of [for chunk in chunks]. *)
Fixpoint decrypt_chunks (private_key : RsaKey) (chunks : list str)
         (decrypted_chunks : list bytes) : result (list bytes) :=
  match chunks with
  | [] => Ok decrypted_chunks
  | chunk :: chunks' =>
      (raw <- Utf8.encode chunk ;;
       encrypted_data <- Base64.b64decode raw ;;
       decrypted_chunk <- oaep_decrypt private_key encrypted_data ;;
       decrypt_chunks private_key chunks'
                      (decrypted_chunks ++ [decrypted_chunk]))%py
  end.

Definition decrypt_message (encrypted_message private_key_pem : str)
  : result str :=
  Py.try_except
    (pem <- Utf8.encode private_key_pem ;;
     private_key <- import_key pem ;;
     if contains PIPE encrypted_message then
       decrypted_chunks <- decrypt_chunks private_key
                             (split PIPE encrypted_message) [] ;;
       Utf8.decode (join_bytes decrypted_chunks)
     else
       raw <- Utf8.encode encrypted_message ;;
       encrypted_data <- Base64.b64decode raw ;;
       decrypted_data <- oaep_decrypt private_key encrypted_data ;;
       Utf8.decode decrypted_data)%py
    (fun _ => Raise (Exception "Failed to decrypt message")).

End Messages.

Section Passwords.

Definition salt_length : nat := 32.
Definition kdf_iterations : N := 100000.

Fixpoint bytes_eqb (x y : bytes) : bool :=
  match x, y with
  | [], [] => true
  | a :: x', b :: y' => Byte.eqb a b && bytes_eqb x' y'
  | _, _ => false
  end.

Definition hash_password (password : str) : rand str :=
  (salt <- get_random_bytes salt_length ;;
   raw <- lift (Utf8.encode password) ;;
   let password_hash :=
     Pbkdf2.pbkdf2_hmac_sha256 raw salt kdf_iterations in
   lift (Utf8.decode (Base64.b64encode (salt ++ password_hash))))%rand.

Definition verify_password (password hashed_password : str)
  : result bool :=
  Py.try_except
    (raw_record <- Utf8.encode hashed_password ;;
     decoded_hash <- Base64.b64decode raw_record ;;
     let salt := slice decoded_hash 0 32 in
     let stored_hash := skipn 32 decoded_hash in
     raw <- Utf8.encode password ;;
     let password_hash :=
       Pbkdf2.pbkdf2_hmac_sha256 raw salt kdf_iterations in
     Ok (bytes_eqb password_hash stored_hash))%py
    (fun _ => Ok false).

End Passwords.

(** Number of [|]-separated blocks of an encrypted message. *)
Definition block_count (encrypted_message : str) : nat :=
  List.length (split PIPE encrypted_message).

Definition ceil_div (n d : nat) : nat := (n + d - 1) / d.

(* ================================================================= *)
(** ** Vocabulary of the statements *)

(** The characters of a base64 block, as [.decode('utf-8')] returns them. *)
Definition block_text (ciphertext : bytes) : str :=
  map Byte.to_N (Base64.b64encode ciphertext).

(** The key object a PEM string stands for. *)
Definition key_of {R : RSA} (pem : str) : result RsaKey :=
  (raw <- Utf8.encode pem ;; import_key raw)%py.

(** The pieces [encrypt_message] hands to the cipher: the whole message
    when it fits one block, and its slices otherwise. *)
Definition chunks_of (message_bytes : bytes) : list bytes :=
  if List.length message_bytes <=? max_chunk_size then [message_bytes]
  else map (fun i => slice message_bytes i (i + max_chunk_size))
           (range 0 (List.length message_bytes) max_chunk_size).

(** [encrypts k t chunks cts t']: encrypting [chunks] one after another
    under [k], starting with tape [t], gives the ciphertexts [cts] and
    leaves tape [t']. *)
Inductive encrypts {R : RSA} (k : RsaKey)
  : tape -> list bytes -> list bytes -> tape -> Prop :=
| encrypts_nil : forall t, encrypts k t [] [] t
| encrypts_cons : forall t chunk c t1 chunks cts t2,
    oaep_encrypt k chunk t = (Ok c, t1) ->
    encrypts k t1 chunks cts t2 ->
    encrypts k t (chunk :: chunks) (c :: cts) t2.


(** [decrypts k c m]: ciphertext [c] decrypts to [m] under [k]. *)
Definition decrypts {R : RSA} (k : RsaKey) (c m : bytes) : Prop :=
  oaep_decrypt k c = Ok m.

(** The [try] blocks of [encrypt_message] and [decrypt_message] once the
    key is imported and the message encoded. *)
Definition encrypt_body {R : RSA} (k : RsaKey) (mb : bytes) : rand str :=
  if List.length mb <=? max_chunk_size then
    (encrypted_data <- oaep_encrypt k mb ;;
     lift (Utf8.decode (Base64.b64encode encrypted_data)))%rand
  else
    (chunks <- encrypt_chunks k mb
                 (range 0 (List.length mb) max_chunk_size) [] ;;
     ret (join PIPE chunks))%rand.

Definition decrypt_body {R : RSA} (k : RsaKey) (encrypted_message : str)
  : result str :=
  if contains PIPE encrypted_message then
    (decrypted_chunks <- decrypt_chunks k (split PIPE encrypted_message) [] ;;
     Utf8.decode (join_bytes decrypted_chunks))%py
  else
    (raw <- Utf8.encode encrypted_message ;;
     encrypted_data <- Base64.b64decode raw ;;
     decrypted_data <- oaep_decrypt k encrypted_data ;;
     Utf8.decode decrypted_data)%py.

(** The two exceptions the message codec raises to its caller. *)
Definition encryption_failed : exn := Exception "Failed to encrypt message".
Definition decryption_failed : exn := Exception "Failed to decrypt message".

(** The salt [hash_password] draws from a tape, and the bytes of the
    record it writes for a password. *)
Definition salt_of (t : tape) : bytes := map t (seq 0 salt_length).

Definition record_of (raw salt : bytes) : bytes :=
  salt ++ Pbkdf2.pbkdf2_hmac_sha256 raw salt kdf_iterations.

(* ================================================================= *)
(** ** A small instance of the RSA interface

    No security is intended: a ciphertext is the message, framed by the
    key's identity and the message length and filled up to the modulus
    size.  It obeys the contract of the interface, so statements about
    [CryptoUtils] can be run on it. *)

Module ToyRSA.

Record key : Type := Key {
  ident : bool;        (* which modulus *)
  private : bool;      (* whether the private exponent is present *)
  short : bool         (* a 1024-bit modulus instead of a 2048-bit one *)
}.

Definition size (k : key) : nat := if short k then 128 else 256.

Definition gen (bits : nat) : rand key :=
  fun t =>
    if bits =? 2048 then
      (Ok (Key (Byte.eqb (t 0) x00) true false), advance 1 t)
    else if bits =? 1024 then
      (Ok (Key (Byte.eqb (t 0) x00) true true), advance 1 t)
    else (Raise ValueError, t).

Definition flag (b : bool) : byte := if b then "1" else "0".

Definition export (k : key) : bytes :=
  [flag (ident k); flag (private k); flag (short k)].

Definition is_flag (b : byte) : bool := Byte.eqb b "1" || Byte.eqb b "0".

Definition import (pem : bytes) : result key :=
  match pem with
  | [i; p; s] =>
      if is_flag i && is_flag p && is_flag s then
        Ok (Key (Byte.eqb i "1") (Byte.eqb p "1") (Byte.eqb s "1"))
      else Raise ValueError
  | _ => Raise ValueError
  end.

Definition public (k : key) : key := Key (ident k) false (short k).

Definition encrypt (k : key) (message : bytes) : rand bytes :=
  fun t =>
    if List.length message + oaep_overhead <=? size k then
      (Ok (flag (ident k) :: b8 (N.of_nat (List.length message))
             :: message
             ++ repeat (t 0) (size k - 2 - List.length message)),
       advance 1 t)
    else (Raise ValueError, t).

Definition decrypt (k : key) (ciphertext : bytes) : result bytes :=
  if private k then
    match ciphertext with
    | tag :: len :: body =>
        if (List.length ciphertext =? size k)
           && Byte.eqb tag (flag (ident k))
           && (Byte.to_nat len + oaep_overhead <=? size k)
        then Ok (firstn (Byte.to_nat len) body)
        else Raise ValueError
    | _ => Raise ValueError
    end
  else Raise TypeError.

Definition rsa : RSA := {|
  RsaKey := key;
  generate := gen;
  import_key := import;
  export_key := export;
  publickey := public;
  has_private := private;
  size_in_bytes := size;
  oaep_encrypt := encrypt;
  oaep_decrypt := decrypt
|}.

(** Two tapes, giving keys of different identity. *)
Definition zeros : tape := fun _ => x00.
Definition ones : tape := fun _ => x01.

End ToyRSA.

(** Inputs on which the statements are run. *)
Module Runs.
Import ToyRSA.

(** The key pair the small instance generates from the tape of zeros,
    another private key, and the public half of a 1024-bit key. *)
Definition pub : str := lit "100".
Definition priv : str := lit "110".
Definition other_priv : str := lit "010".
Definition short_pub : str := lit "101".

Definition pub_key : key := Key true false false.

(** A message one byte longer than a chunk, and one of 300 bytes. *)
Definition long_message : str := repeat 0x61%N 215.
Definition long_bytes : bytes := repeat "a"%byte 215.
Definition message_300 : str := repeat 0x61%N 300.
Definition bytes_300 : bytes := repeat "a"%byte 300.

End Runs.

(* ================================================================= *)
(** ** [CryptoUtils.generate_random_token] and more vocabulary *)

(** [base64.urlsafe_b64encode(s)] is [b64encode(s)] with [+] and [/]
    translated to [-] and [_]. *)
Definition urlsafe (b : byte) : byte :=
  if Byte.eqb b "+" then "-"%byte
  else if Byte.eqb b "/" then "_"%byte
  else b.

Definition urlsafe_b64encode (s : bytes) : bytes :=
  map urlsafe (Base64.b64encode s).

Definition generate_random_token (length : nat) : rand str :=
  (raw <- get_random_bytes length ;;
   text <- lift (Utf8.decode (urlsafe_b64encode raw)) ;;
   ret (firstn length text))%rand.

(** Letters, digits, [-] and [_]. *)
Definition token_char (c : N) : bool :=
  ((0x41 <=? c) && (c <=? 0x5A) || (0x61 <=? c) && (c <=? 0x7A)
   || (0x30 <=? c) && (c <=? 0x39) || (c =? 0x2D) || (c =? 0x5F))%N.

(** A character of the base64 alphabet proper, the pad excluded. *)
Definition in_alphabet (b : byte) : bool :=
  match Base64.a2b b with
  | Some _ => true
  | None => false
  end.

Definition keygen_failed : exn := Exception "Failed to generate RSA key pair".

(** A block of an encrypted message that decodes and decrypts to [m]. *)
Definition block_plain {R : RSA} (k : RsaKey) (block : str) (m : bytes)
  : Prop :=
  exists raw c,
    Utf8.encode block = Ok raw /\ Base64.b64decode raw = Ok c /\
    oaep_decrypt k c = Ok m.

(** What PyCryptodome documents of [encrypt] besides the contract: a
    plaintext longer than the modulus less the padding raises. *)
Definition refuses_long_plaintexts (R : RSA) : Prop :=
  forall k m t c t',
    oaep_encrypt k m t = (Ok c, t') ->
    List.length m + oaep_overhead <= size_in_bytes k.

(** An ASCII character [b64decode] skips: neither in the alphabet nor
    the pad. *)
Definition skipped (c : N) : bool :=
  (c <? 0x80)%N && negb (Base64.b64_char (b8 c)).

(** [sprinkled s s']: [s'] is [s] with skipped characters inserted. *)
Inductive sprinkled : str -> str -> Prop :=
| sprinkled_nil : sprinkled [] []
| sprinkled_keep : forall c s s', sprinkled s s' -> sprinkled (c :: s) (c :: s')
| sprinkled_skip : forall c s s',
    skipped c = true -> sprinkled s s' -> sprinkled s (c :: s').

(* ================================================================= *)
(** ** More of Python: text, dictionaries, sorting *)

Module Text.

(** [a == b] on [str] *)
Fixpoint eqb (a b : str) : bool :=
  match a, b with
  | [], [] => true
  | x :: a', y :: b' => N.eqb x y && eqb a' b'
  | _, _ => false
  end.

(** [c.isspace()]: the code points [str.strip()] removes. *)
Definition isspace (c : N) : bool :=
  ((0x09 <=? c) && (c <=? 0x0D) || (0x1C <=? c) && (c <=? 0x20)
   || (c =? 0x85) || (c =? 0xA0) || (c =? 0x1680)
   || (0x2000 <=? c) && (c <=? 0x200A)
   || (c =? 0x2028) || (c =? 0x2029) || (c =? 0x202F)
   || (c =? 0x205F) || (c =? 0x3000))%N.

(** [s.lstrip()], [s.rstrip()] and [s.strip()] *)
Fixpoint lstrip (s : str) : str :=
  match s with
  | c :: r => if isspace c then lstrip r else s
  | [] => []
  end.

Definition rstrip (s : str) : str := rev (lstrip (rev s)).

Definition strip (s : str) : str := rstrip (lstrip s).

(** Text that is all whitespace, and text without any. *)
Definition spaces (s : str) : Prop := Forall (fun c => isspace c = true) s.
Definition solid (s : str) : Prop := Forall (fun c => isspace c = false) s.

(** [str(n)] for a non-negative integer: its decimal digits. *)
Definition decimal (n : nat) : str :=
  map Byte.to_N
      (list_byte_of_string (NilEmpty.string_of_uint (Nat.to_uint n))).

End Text.

Module Dict.

(** A [dict] with [str] keys, as its items in insertion order. *)
Definition dict (V : Type) : Type := list (str * V).

(** [d.get(k)] *)
Fixpoint get {V} (k : str) (d : dict V) : option V :=
  match d with
  | [] => None
  | (k', v) :: d' => if Text.eqb k k' then Some v else get k d'
  end.

(** [k in d] *)
Definition mem {V} (k : str) (d : dict V) : bool :=
  match get k d with
  | Some _ => true
  | None => false
  end.

(** [d[k] = v]: the value is replaced where the key is, and a new key goes
    to the end. *)
Fixpoint set {V} (k : str) (v : V) (d : dict V) : dict V :=
  match d with
  | [] => [(k, v)]
  | (k', v') :: d' =>
      if Text.eqb k k' then (k, v) :: d' else (k', v') :: set k v d'
  end.

(** [del d[k]] for a key that is present *)
Definition del {V} (k : str) (d : dict V) : dict V :=
  filter (fun kv => negb (Text.eqb k (fst kv))) d.

Definition keys {V} (d : dict V) : list str := map fst d.
Definition values {V} (d : dict V) : list V := map snd d.

End Dict.

Module Sorting.

(** [l.sort(key=key, reverse=True)] for integer keys: descending, and
    items of equal key stay in their order.  [insert] puts an item in
    front of the first one whose key is not greater. *)
Section Descending.

Context {A : Type} (key : A -> Z).

Fixpoint insert (x : A) (l : list A) : list A :=
  match l with
  | [] => [x]
  | y :: l' => if (key x <? key y)%Z then y :: insert x l' else x :: l
  end.

Definition sort_desc (l : list A) : list A := fold_right insert [] l.

End Descending.

End Sorting.

(* ================================================================= *)
(** ** [class IdentityVerifier] *)

Module Verifier.

(** Times are microseconds on the clock [datetime.now()] reads. *)
Definition minutes (n : Z) : Z := (n * 60 * 1000000)%Z.

(** [self.code_expiry_minutes], set by [__init__]. *)
Definition code_expiry_minutes : Z := 15.

(** An item of [verification_codes_storage]. *)
Record entry : Type := Entry {
  code : str;
  expires_at : Z
}.

Definition storage : Type := Dict.dict entry.

(** [string.digits] *)
Definition digits : str := lit "0123456789".

Section Verifier.

(** The generator behind [random.choices]: a sequence of samples of
    [random()], and the index [floor(random() * n)] a sample selects in a
    population of [n].  As [random()] is below 1 the index is below [n];
    the statements that depend on it assume so. *)
Context {sample : Type} (index_of : sample -> nat -> nat).

Definition samples : Type := nat -> sample.

(** [random.choices(population, k=k)] *)
Definition choices (population : str) (k : nat) (g : samples)
  : str * samples :=
  (map (fun i => nth (index_of (g i) (List.length population)) population 0%N)
       (seq 0 k),
   fun i => g (k + i)).

(** [''.join(random.choices(string.digits, k=6))] *)
Definition generate_verification_code (g : samples) : str * samples :=
  choices digits 6 g.

(** [self.mail.send(msg)], for the message built from the address and the
    code; the text of the message is not modelled. *)
Context (mail_send : str -> str -> result unit).

Definition send_verification_email (now : Z) (email : str)
           (verification_codes_storage : storage) (g : samples)
  : bool * storage * samples :=
  let (code, g') := generate_verification_code g in
  let expires_at := (now + minutes code_expiry_minutes)%Z in
  let stored := Dict.set email (Entry code expires_at)
                         verification_codes_storage in
  match mail_send email code with
  | Ok _ => (true, stored, g')
  | Raise _ => (false, stored, g')
  end.

(** The code [send_verification_email] generates from a generator, and the
    store it leaves. *)
Definition sent_code (g : samples) : str :=
  fst (generate_verification_code g).

Definition stored_after (now : Z) (email : str) (store : storage)
           (g : samples) : storage :=
  snd (fst (send_verification_email now email store g)).

End Verifier.

Definition is_digit (c : N) : bool := ((0x30 <=? c) && (c <=? 0x39))%N.

Definition verify_code (now : Z) (email submitted_code : str)
           (verification_codes_storage : storage) : bool * storage :=
  match Dict.get email verification_codes_storage with
  | None => (false, verification_codes_storage)
  | Some stored_data =>
      if (now >? expires_at stored_data)%Z then
        (false, Dict.del email verification_codes_storage)
      else if Text.eqb (Text.strip submitted_code) (code stored_data) then
        (true, Dict.del email verification_codes_storage)
      else (false, verification_codes_storage)
  end.

(** [k in ks] *)
Definition listed (k : str) (ks : list str) : bool :=
  existsb (fun k' => Text.eqb k' k) ks.

Definition cleanup_expired_codes (now : Z)
           (verification_codes_storage : storage) : storage :=
  let expired_emails :=
    map fst (filter (fun kv => (now >? expires_at (snd kv))%Z)
                    verification_codes_storage) in
  fold_left (fun d email => Dict.del email d) expired_emails
            verification_codes_storage.

End Verifier.

(* ================================================================= *)
(** ** [app.py]: the view functions over the in-memory store *)

Module App.

Local Open Scope string_scope.
Local Open Scope list_scope.

(** KeyError, raised by [d[k]] for a missing key; it derives from
    [Exception] and is recorded by the name of its class. *)
Definition key_error : exn := Exception "KeyError".

(** [str(e)] for the exceptions the message codec raises. *)
Definition exn_text (e : exn) : string :=
  match e with
  | Exception msg => msg
  | _ => EmptyString
  end.

(** [not s] *)
Definition is_empty (s : str) : bool :=
  match s with
  | [] => true
  | _ :: _ => false
  end.

(** [a < b] on [str]: by code points, a prefix first. *)
Fixpoint ltb (a b : str) : bool :=
  match a, b with
  | _, [] => false
  | [], _ :: _ => true
  | x :: a', y :: b' => (x <? y)%N || (x =? y)%N && ltb a' b'
  end.

(** The items of [users] and of [messages]. *)
Record user : Type := User {
  email : str;
  password_hash : str;
  public_key : str;
  private_key : str;
  verified : bool;
  created_at : Z
}.

Record message : Type := Message {
  sender_id : str;
  recipient_id : str;
  encrypted_content : str;
  sent_at : Z
}.

(** The module's globals that the view functions use.  The dictionaries
    [verification_codes] and [user_sessions] are never touched. *)
Record store : Type := Store {
  users : Dict.dict user;
  messages : Dict.dict message
}.

Definition empty : store := Store [] [].

(** What the templates are given. *)
Record summary : Type := Summary {
  summary_id : str;
  summary_sender_email : str;
  summary_recipient_email : str;
  summary_sent_at : Z;
  summary_is_sent : bool
}.

Record message_info : Type := MessageInfo {
  info_id : str;
  sender_email : str;
  recipient_email : str;
  info_sent_at : Z;
  is_sent : bool;
  decrypted_content : option str;
  decryption_error : option string
}.

Record user_entry : Type := UserEntry {
  entry_id : str;
  entry_email : str;
  entry_created_at : Z
}.

Inductive page : Type :=
| Template (name : string)
| IndexPage (current : option user)
| DashboardPage (current : option user) (recent_messages : list summary)
| MessagesPage (listing : list message_info)
| UsersPage (listing : list user_entry)
| Redirect (endpoint : string).

(** A response, with what the request flashed, the value of
    [session['user_id']] afterwards ([None] when the key is absent) and
    the store afterwards. *)
Record reply : Type := Reply {
  shown : page;
  flashes : list (string * string);
  session_after : option str;
  store_after : store
}.

(** [f"user_{n}"] and [f"msg_{n}"] *)
Definition user_key (n : nat) : str := lit "user_" ++ Text.decimal n.
Definition message_key (n : nat) : str := lit "msg_" ++ Text.decimal n.

(** [for uid, user_data in users.items(): if user_data['email'] == email:
    user_id = uid; break], from [user_id = None]. *)
Fixpoint find_by_email (address : str) (items : Dict.dict user)
  : option str :=
  match items with
  | [] => None
  | (uid, user_data) :: rest =>
      if Text.eqb (email user_data) address then Some uid
      else find_by_email address rest
  end.

(** [d[k]] *)
Definition lookup {V} (k : str) (d : Dict.dict V) : result V :=
  match Dict.get k d with
  | Some v => Ok v
  | None => Raise key_error
  end.

(** [l.sort(key=lambda x: x['email'])]: ascending, items of equal key in
    their order. *)
Fixpoint insert_by_email (x : user_entry) (l : list user_entry)
  : list user_entry :=
  match l with
  | [] => [x]
  | y :: l' =>
      if ltb (entry_email y) (entry_email x) then y :: insert_by_email x l'
      else x :: l
  end.

Definition sort_by_email (l : list user_entry) : list user_entry :=
  fold_right insert_by_email [] l.

Section Views.

Context {R : RSA}.

(** [str.lower], whose Unicode tables are not modelled. *)
Context (lower : str -> str).

Definition get_current_user (session : option str) (s : store)
  : option user :=
  match session with
  | Some uid => Dict.get uid (users s)
  | None => None
  end.

(** [@require_login] *)
Definition require_login (f : option str -> store -> rand reply)
           (session : option str) (s : store) : rand reply :=
  match get_current_user session s with
  | None =>
      ret (Reply (Redirect "login")
                 [("Please log in to access this page.", "warning")]
                 session s)
  | Some _ => f session s
  end.

Definition index (session : option str) (s : store) : rand reply :=
  ret (Reply (IndexPage (get_current_user session s)) [] session s).

Definition register (post : bool)
           (form_email form_password form_confirm_password : str)
           (now : Z) (session : option str) (s : store) : rand reply :=
  if post then
    let email := lower (Text.strip form_email) in
    let password := form_password in
    let confirm_password := form_confirm_password in
    if is_empty email || is_empty password then
      ret (Reply (Template "register.html")
                 [("Email and password are required.", "danger")] session s)
    else if negb (Text.eqb password confirm_password) then
      ret (Reply (Template "register.html")
                 [("Passwords do not match.", "danger")] session s)
    else if Nat.ltb (List.length password) 6 then
      ret (Reply (Template "register.html")
                 [("Password must be at least 6 characters long.", "danger")]
                 session s)
    else if existsb (fun user_data => Text.eqb (App.email user_data) email)
                    (Dict.values (users s)) then
      ret (Reply (Redirect "login")
                 [("Email already registered. Please log in.", "warning")]
                 session s)
    else
      Rand.try_except
        (keys <- generate_key_pair ;;
         let user_id := user_key (List.length (users s) + 1) in
         hashed <- hash_password password ;;
         let created :=
           User email hashed (fst keys) (snd keys) true now in
         ret (Reply (Redirect "dashboard")
                    [("Registration successful! You can now start sending encrypted messages.",
                      "success")]
                    (Some user_id)
                    (Store (Dict.set user_id created (users s))
                           (messages s))))%rand
        (fun _ =>
           ret (Reply (Template "register.html")
                      [("Registration failed. Please try again.", "danger")]
                      session s))
  else ret (Reply (Template "register.html") [] session s).

Definition login (post : bool) (form_email form_password : str)
           (session : option str) (s : store) : rand reply :=
  if post then
    let email := lower (Text.strip form_email) in
    let password := form_password in
    if is_empty email || is_empty password then
      ret (Reply (Template "login.html")
                 [("Email and password are required.", "danger")] session s)
    else
      let rejected :=
        Reply (Template "login.html")
              [("Invalid email or password.", "danger")] session s in
      match find_by_email email (users s) with
      | None => ret rejected
      | Some user_id =>
          if is_empty user_id then ret rejected
          else
            (account <- lift (lookup user_id (users s)) ;;
             accepted <- lift (verify_password password
                                               (password_hash account)) ;;
             if accepted : bool then
               ret (Reply (Redirect "dashboard")
                          [("Login successful!", "success")]
                          (Some user_id) s)
             else ret rejected)%rand
      end
  else ret (Reply (Template "login.html") [] session s).

Definition logout (session : option str) (s : store) : rand reply :=
  ret (Reply (Redirect "index")
             [("You have been logged out.", "info")] None s).

(** The loop of [dashboard] over [messages.items()]. *)
Fixpoint summaries (user_id : str) (us : Dict.dict user)
         (items : Dict.dict message) (user_messages : list summary)
  : result (list summary) :=
  match items with
  | [] => Ok user_messages
  | (msg_id, msg_data) :: rest =>
      if Text.eqb (recipient_id msg_data) user_id
         || Text.eqb (sender_id msg_data) user_id
      then
        (sender <- lookup (sender_id msg_data) us ;;
         recipient <- lookup (recipient_id msg_data) us ;;
         summaries user_id us rest
           (user_messages
              ++ [Summary msg_id (email sender) (email recipient)
                          (sent_at msg_data)
                          (Text.eqb (sender_id msg_data) user_id)]))%py
      else summaries user_id us rest user_messages
  end.

Definition dashboard_view (session : option str) (s : store) : rand reply :=
  match session with
  | None => raise key_error
  | Some user_id =>
      (user_messages <- lift (summaries user_id (users s) (messages s) []) ;;
       ret (Reply (DashboardPage
                     (get_current_user session s)
                     (firstn 10 (Sorting.sort_desc summary_sent_at
                                                   user_messages)))
                  [] session s))%rand
  end.

Definition dashboard := require_login dashboard_view.

Definition send_message_view (post : bool)
           (form_recipient_email form_message : str) (now : Z)
           (session : option str) (s : store) : rand reply :=
  if post then
    let recipient_email := lower (Text.strip form_recipient_email) in
    let message_content := Text.strip form_message in
    let again flashed :=
      Reply (Template "send_message.html") [flashed] session s in
    if is_empty recipient_email || is_empty message_content then
      ret (again ("Recipient email and message content are required.",
                  "danger"))
    else
      match find_by_email recipient_email (users s) with
      | None => ret (again ("Recipient not found.", "danger"))
      | Some recipient_id =>
          if is_empty recipient_id then
            ret (again ("Recipient not found.", "danger"))
          else
            match session with
            | None => raise key_error
            | Some user_id =>
                if Text.eqb recipient_id user_id then
                  ret (again ("You cannot send a message to yourself.",
                              "warning"))
                else
                  Rand.try_except
                    (recipient <- lift (lookup recipient_id (users s)) ;;
                     encrypted <- encrypt_message message_content
                                                  (public_key recipient) ;;
                     let message_id :=
                       message_key (List.length (messages s) + 1) in
                     ret (Reply (Redirect "messages_view")
                                [("Message sent successfully!", "success")]
                                session
                                (Store (users s)
                                       (Dict.set message_id
                                          (Message user_id recipient_id
                                                   encrypted now)
                                          (messages s)))))%rand
                    (fun _ =>
                       ret (again ("Failed to send message. Please try again.",
                                   "danger")))
            end
      end
  else ret (Reply (Template "send_message.html") [] session s).

Definition send_message (post : bool)
           (form_recipient_email form_message : str) (now : Z) :=
  require_login (send_message_view post form_recipient_email form_message now).

(** The loop of [messages_view] over [messages.items()]. *)
Fixpoint message_infos (user_id user_private_key : str) (us : Dict.dict user)
         (items : Dict.dict message) (user_messages : list message_info)
  : result (list message_info) :=
  match items with
  | [] => Ok user_messages
  | (msg_id, msg_data) :: rest =>
      if Text.eqb (recipient_id msg_data) user_id
         || Text.eqb (sender_id msg_data) user_id
      then
        (sender <- lookup (sender_id msg_data) us ;;
         recipient <- lookup (recipient_id msg_data) us ;;
         let info :=
           MessageInfo msg_id (email sender) (email recipient)
                       (sent_at msg_data)
                       (Text.eqb (sender_id msg_data) user_id) in
         let message_info :=
           if Text.eqb (recipient_id msg_data) user_id then
             match decrypt_message (encrypted_content msg_data)
                                   user_private_key with
             | Ok text => info (Some text) None
             | Raise e => info None (Some (exn_text e))
             end
           else info None None in
         message_infos user_id user_private_key us rest
                       (user_messages ++ [message_info]))%py
      else message_infos user_id user_private_key us rest user_messages
  end.

Definition messages_view_body (session : option str) (s : store)
  : rand reply :=
  match session with
  | None => raise key_error
  | Some user_id =>
      (account <- lift (lookup user_id (users s)) ;;
       user_messages <- lift (message_infos user_id (private_key account)
                                            (users s) (messages s) []) ;;
       ret (Reply (MessagesPage
                     (Sorting.sort_desc info_sent_at user_messages))
                  [] session s))%rand
  end.

Definition messages_view := require_login messages_view_body.

Definition users_list_body (session : option str) (s : store) : rand reply :=
  match session with
  | None => raise key_error
  | Some current_user_id =>
      let all_users :=
        map (fun item =>
               UserEntry (fst item) (email (snd item))
                         (created_at (snd item)))
            (filter (fun item => negb (Text.eqb (fst item) current_user_id))
                    (users s)) in
      ret (Reply (UsersPage (sort_by_email all_users)) [] session s)
  end.

Definition users_list := require_login users_list_body.

(** The requests the routes accept, with the form fields they read
    ([''] for a field that is missing). *)
Inductive request : Type :=
| GetIndex
| Register (post : bool) (email password confirm_password : str)
| Login (post : bool) (email password : str)
| Logout
| Dashboard
| SendMessage (post : bool) (recipient_email message : str)
| Messages
| Users.

(** One request served at clock reading [now]. *)
Definition serve (req : request) (now : Z) (session : option str)
           (s : store) : rand reply :=
  match req with
  | GetIndex => index session s
  | Register post e p c => register post e p c now session s
  | Login post e p => login post e p session s
  | Logout => logout session s
  | Dashboard => dashboard session s
  | SendMessage post r m => send_message post r m now session s
  | Messages => messages_view session s
  | Users => users_list session s
  end.

End Views.

(** The stores the application can be in: the empty one, and what a
    served request leaves. *)
Inductive reachable {R : RSA} (lower : str -> str) : store -> Prop :=
| reachable_empty : reachable lower empty
| reachable_step : forall s req now session t r t',
    reachable lower s ->
    serve lower req now session s t = (Ok r, t') ->
    reachable lower (store_after r).

(** A message the user sent or received. *)
Definition involves (uid : str) (m : message) : Prop :=
  recipient_id m = uid \/ sender_id m = uid.

(** The entry [messages_view] builds for one message, given the two users
    it looked up. *)
Definition info_of {R : RSA} (user_id user_private_key msg_id : str)
           (msg_data : message) (sender recipient : user) : message_info :=
  let info :=
    MessageInfo msg_id (email sender) (email recipient) (sent_at msg_data)
                (Text.eqb (sender_id msg_data) user_id) in
  if Text.eqb (recipient_id msg_data) user_id then
    match decrypt_message (encrypted_content msg_data) user_private_key with
    | Ok text => info (Some text) None
    | Raise e => info None (Some (exn_text e))
    end
  else info None None.

(** The entry [dashboard] builds for one message. *)
Definition summary_of (user_id msg_id : str) (msg_data : message)
           (sender recipient : user) : summary :=
  Summary msg_id (email sender) (email recipient) (sent_at msg_data)
          (Text.eqb (sender_id msg_data) user_id).

(** [a <= b] on [str] *)
Definition leb (a b : str) : bool := negb (ltb b a).

(** A list in non-decreasing order of [key]. *)
Inductive ascending {A : Type} (key : A -> str) : list A -> Prop :=
| ascending_nil : ascending key []
| ascending_cons : forall x l,
    Forall (fun y => leb (key x) (key y) = true) l ->
    ascending key l ->
    ascending key (x :: l).

(** The replies of the three requests that succeed. *)
Definition registered (lower : str -> str) (e p : str) (now : Z) (s : store)
           (keys : str * str) (hashed : str) : reply :=
  Reply (Redirect "dashboard")
        [("Registration successful! You can now start sending encrypted messages.",
          "success")]
        (Some (user_key (List.length (users s) + 1)))
        (Store (Dict.set (user_key (List.length (users s) + 1))
                         (User (lower (Text.strip e)) hashed
                               (fst keys) (snd keys) true now)
                         (users s))
               (messages s)).

Definition sent (now : Z) (session : option str) (s : store)
           (uid rid encrypted : str) : reply :=
  Reply (Redirect "messages_view")
        [("Message sent successfully!", "success")]
        session
        (Store (users s)
               (Dict.set (message_key (List.length (messages s) + 1))
                         (Message uid rid encrypted now)
                         (messages s))).

Definition logged_in (uid : str) (s : store) : reply :=
  Reply (Redirect "dashboard") [("Login successful!", "success")]
        (Some uid) s.

(** Both parties of a message are keys of [us]. *)
Definition parties_known (us : Dict.dict user) (m : message) : Prop :=
  Dict.mem (sender_id m) us = true /\ Dict.mem (recipient_id m) us = true.

(** A list in non-increasing order of [key]. *)
Inductive descending {A : Type} (key : A -> Z) : list A -> Prop :=
| descending_nil : descending key []
| descending_cons : forall x l,
    Forall (fun y => (key y <= key x)%Z) l ->
    descending key l ->
    descending key (x :: l).

(** [evolves s s']: serving requests takes the store from [s] to [s']. *)
Inductive evolves {R : RSA} (lower : str -> str) : store -> store -> Prop :=
| evolves_refl : forall s, evolves lower s s
| evolves_step : forall s s' req now session t r t',
    evolves lower s s' ->
    serve lower req now session s' t = (Ok r, t') ->
    evolves lower s (store_after r).

(** The two ways a request changes the store: a registration adds one
    user under the next identifier, a send adds one message under the
    next identifier. *)
Inductive effect {R : RSA} (lower : str -> str) (s : store)
  : request -> option str -> Z -> store -> Prop :=
| effect_none : forall req session now, effect lower s req session now s
| effect_register : forall e p c session now keys hashed t1 t2 t3 t4,
    is_empty (lower (Text.strip e)) = false ->
    existsb (fun user_data =>
               Text.eqb (email user_data) (lower (Text.strip e)))
            (Dict.values (users s)) = false ->
    generate_key_pair t1 = (Ok keys, t2) ->
    hash_password p t3 = (Ok hashed, t4) ->
    effect lower s (Register true e p c) session now
           (Store (Dict.set (user_key (List.length (users s) + 1))
                            (User (lower (Text.strip e)) hashed
                                  (fst keys) (snd keys) true now)
                            (users s))
                  (messages s))
| effect_send : forall remail msg uid sender rid recipient encrypted now t1 t2,
    Dict.get uid (users s) = Some sender ->
    find_by_email (lower (Text.strip remail)) (users s) = Some rid ->
    rid <> uid ->
    Dict.get rid (users s) = Some recipient ->
    encrypt_message (Text.strip msg) (public_key recipient) t1
    = (Ok encrypted, t2) ->
    effect lower s (SendMessage true remail msg) (Some uid) now
           (Store (users s)
                  (Dict.set (message_key (List.length (messages s) + 1))
                            (Message uid rid encrypted now)
                            (messages s))).

(** What every reachable store satisfies: identifiers count up from 1,
    addresses are distinct, and the two parties of a message are distinct
    registered users. *)
Record well_formed (s : store) : Prop := {
  wf_user_ids :
    Dict.keys (users s) = map user_key (seq 1 (List.length (users s)));
  wf_emails : NoDup (map email (Dict.values (users s)));
  wf_message_ids :
    Dict.keys (messages s)
    = map message_key (seq 1 (List.length (messages s)));
  wf_parties :
    Forall (fun m =>
              Dict.mem (sender_id m) (users s) = true /\
              Dict.mem (recipient_id m) (users s) = true /\
              sender_id m <> recipient_id m)
           (Dict.values (messages s))
}.

(** A user whose two PEM texts are the halves of one 2048-bit key. *)
Definition paired {R : RSA} (u : user) : Prop :=
  exists k,
    key_of (private_key u) = Ok k /\
    key_of (public_key u) = Ok (publickey k) /\
    has_private k = true /\ size_in_bytes k = 256.

End App.

(** Inputs on which the statements about the verifier are run: a generator
    whose samples are numbers and select by remainder, a mail server that
    is down, and a store of two codes. *)
Module VerifierRuns.
Import Verifier.

Definition by_remainder (r n : nat) : nat := r mod n.
Definition counting : @samples nat := fun i => i.
Definition mail_down (_ _ : str) : result unit := Raise ValueError.

Definition alice : str := lit "alice@test.com".
Definition bob : str := lit "bob@test.com".

Definition two_codes : storage :=
  [(alice, Entry (lit "111111") 100); (bob, Entry (lit "222222") 200)].

End VerifierRuns.

(** Inputs on which the statements about the application are run: ASCII
    lower-casing, two accounts under the keys of the small cipher, and the
    stores after Alice registers, Bob registers and Alice writes to Bob,
    given the two password records and the encrypted message. *)
Module AppRuns.
Import App.

Definition lower (s : str) : str :=
  map (fun c => if ((0x41 <=? c) && (c <=? 0x5A))%N then (c + 32)%N else c) s.

Definition alice_form : str := lit " Alice@Test.com ".
Definition bob_form : str := lit "bob@test.com".
Definition password : str := lit "secret1".
Definition greeting : str := lit " hello bob ".

Definition alice_id : str := user_key 1.
Definition bob_id : str := user_key 2.

Definition alice_keys : str * str := (Runs.pub, Runs.priv).
Definition bob_keys : str * str := (lit "000", Runs.other_priv).

Definition alice_joined (h1 : str) : reply :=
  registered lower alice_form password 0 empty alice_keys h1.

Definition bob_joined (h1 h2 : str) : reply :=
  registered lower bob_form password 1 (store_after (alice_joined h1))
             bob_keys h2.

Definition alice_wrote (h1 h2 encrypted : str) : reply :=
  sent 2 (Some alice_id) (store_after (bob_joined h1 h2))
       alice_id bob_id encrypted.

End AppRuns.

(* ================================================================= *)
(** * Properties of the building blocks *)

(** ** Exhaustive checks *)

Lemma forall_bits_sound (k : nat) (f : N -> bool) :
  forall base, forall_bits k f base = true ->
  forall j, (j < 2 ^ N.of_nat k)%N -> f (base * 2 ^ N.of_nat k + j)%N = true.
Proof.
  induction k as [|k IH]; intros base H j Hj.
  - simpl in *. assert (j = 0%N) by lia. subst j.
    replace (base * 1 + 0)%N with base by lia. exact H.
  - cbn [forall_bits] in H. apply andb_prop in H as [H0 H1].
    rewrite Nat2N.inj_succ, N.pow_succ_r' in *.
    destruct (N.lt_ge_cases j (2 ^ N.of_nat k)) as [Hlt|Hge].
    + replace (base * (2 * 2 ^ N.of_nat k) + j)%N
        with (2 * base * 2 ^ N.of_nat k + j)%N by lia.
      apply IH; assumption.
    + replace (base * (2 * 2 ^ N.of_nat k) + j)%N
        with ((2 * base + 1) * 2 ^ N.of_nat k + (j - 2 ^ N.of_nat k))%N by lia.
      apply IH; [assumption | lia].
Qed.

Lemma all_bytes_complete (b : byte) : In b all_bytes.
Proof.
  unfold all_bytes. apply in_flat_map.
  exists (Byte.to_nat b). split.
  - apply in_seq. pose proof (Byte.to_nat_bounded b). lia.
  - rewrite Byte.of_to_nat. left. reflexivity.
Qed.

Lemma forall_byte_sound (f : byte -> bool) :
  forall_byte f = true -> forall b, f b = true.
Proof.
  unfold forall_byte. intros H b.
  rewrite forallb_forall in H. apply H, all_bytes_complete.
Qed.

Lemma forall_byte2_sound (f : byte -> byte -> bool) :
  forall_byte (fun a => forall_byte (f a)) = true ->
  forall a b, f a b = true.
Proof.
  intros H a b.
  apply (forall_byte_sound (f a)).
  apply (forall_byte_sound (fun a => forall_byte (f a))). exact H.
Qed.

(** ** Bytes *)


Lemma b8_to_N (b : byte) : b8 (Byte.to_N b) = b.
Proof.
  apply Byte.byte_dec_bl. revert b.
  apply (forall_byte_sound (fun b => Byte.eqb (b8 (Byte.to_N b)) b)).
  vm_compute. reflexivity.
Qed.

Lemma map_b8_to_N (bs : bytes) : map b8 (map Byte.to_N bs) = bs.
Proof.
  induction bs as [|b bs IH]; simpl; [reflexivity|].
  rewrite b8_to_N, IH. reflexivity.
Qed.

Lemma to_N_inj (a b : byte) : Byte.to_N a = Byte.to_N b -> a = b.
Proof.
  intros H. rewrite <- (b8_to_N a), <- (b8_to_N b), H. reflexivity.
Qed.

Lemma bytes_eqb_eq (x y : bytes) : bytes_eqb x y = true <-> x = y.
Proof.
  revert y. induction x as [|a x IH]; intros [|b y]; simpl;
    try (split; [discriminate | discriminate]); try tauto.
  rewrite andb_true_iff, IH. split.
  - intros [Hab ->]. apply Byte.byte_dec_bl in Hab. subst. reflexivity.
  - intros E. injection E as -> ->. split; [apply Byte.byte_dec_lb|]; reflexivity.
Qed.

(** ** The result monad *)

Lemma bind_Ok {A B} (r : result A) (k : A -> result B) (b : B) :
  Py.bind r k = Ok b -> exists a, r = Ok a /\ k a = Ok b.
Proof.
  destruct r as [a|e]; simpl; intros H; [eauto | discriminate].
Qed.

Lemma try_except_total {A} (body : result A) (v : A) :
  exists a, Py.try_except body (fun _ => Ok v) = Ok a.
Proof. destruct body; simpl; eauto. Qed.

(** ** UTF-8 *)

Module Utf8Facts.
Import Utf8.

(** The codec against CPython: ["A"], e-acute, the euro sign and an emoji;
    an overlong form, an encoded surrogate, a value past U+10FFFF and a
    truncated sequence; a lone surrogate. *)
Example encode_sample :
  encode [0x41; 0xe9; 0x20ac; 0x1f600]%N
  = Ok (unhex (lit_bytes "41c3a9e282acf09f9880")).
Proof. reflexivity. Qed.

Example decode_refuses :
  map decode [unhex (lit_bytes "c080"); unhex (lit_bytes "eda080");
              unhex (lit_bytes "f4908080"); unhex (lit_bytes "e282")]
  = repeat (Raise UnicodeDecodeError) 4.
Proof. reflexivity. Qed.

Example encode_refuses_surrogate :
  encode [0xd800%N] = Raise UnicodeEncodeError.
Proof. reflexivity. Qed.

Lemma all_code_points : forall_bits 21 cp_reads_back 0 = true.
Proof. vm_compute. reflexivity. Qed.

Lemma encode_cp_range (c : N) (bs : bytes) :
  encode_cp c = Ok bs -> (c < 0x110000)%N.
Proof.
  unfold encode_cp.
  destruct (N.ltb_spec c 0x80); [lia|].
  destruct (N.ltb_spec c 0x800); [lia|].
  destruct (N.ltb_spec c 0x10000); [lia|].
  destruct (N.ltb_spec c 0x110000); [lia|discriminate].
Qed.

Lemma cp_reads_back_true (c : N) (bs : bytes) :
  encode_cp c = Ok bs -> cp_reads_back c = true.
Proof.
  intros H. apply encode_cp_range in H.
  replace c with (0 * 2 ^ N.of_nat 21 + c)%N by lia.
  apply forall_bits_sound; [exact all_code_points|].
  change (2 ^ N.of_nat 21)%N with 0x200000%N. lia.
Qed.

(** Decoding consumes exactly the bytes written for one code point. *)
Lemma decode_encode_cp (c : N) (bs rest : bytes) :
  encode_cp c = Ok bs ->
  decode (bs ++ rest) = fmap (cons c) (decode rest).
Proof.
  intros H. pose proof (cp_reads_back_true _ _ H) as Hc.
  unfold cp_reads_back in Hc. rewrite H in Hc. clear H.
  destruct bs as [|b0 [|b1 [|b2 [|b3 [|b4 bs]]]]]; try discriminate;
    cbn [app decode]; destruct (classify b0); try discriminate.
  - apply N.eqb_eq in Hc. subst. reflexivity.
  - destruct (assemble2 hi b1); [|discriminate].
    apply N.eqb_eq in Hc. subst. reflexivity.
  - destruct (assemble3 hi b1 b2); [|discriminate].
    apply N.eqb_eq in Hc. subst. reflexivity.
  - destruct (assemble4 hi b1 b2 b3); [|discriminate].
    apply N.eqb_eq in Hc. subst. reflexivity.
Qed.

(** [s.encode('utf-8').decode('utf-8') == s] *)
Lemma decode_encode (s : str) (bs : bytes) :
  encode s = Ok bs -> decode bs = Ok s.
Proof.
  revert bs. induction s as [|c s IH]; intros bs H; simpl in H.
  - injection H as <-. reflexivity.
  - apply bind_Ok in H as (b1 & H1 & H).
    apply bind_Ok in H as (b2 & H2 & H). injection H as <-.
    rewrite (decode_encode_cp _ _ _ H1), (IH _ H2). reflexivity.
Qed.

Lemma decode_ascii (bs : bytes) :
  ascii bs -> decode bs = Ok (map Byte.to_N bs).
Proof.
  induction 1 as [|b bs Hb _ IH]; [reflexivity|].
  cbn [decode map]. unfold classify.
  apply N.ltb_lt in Hb. rewrite Hb. simpl. rewrite IH. reflexivity.
Qed.

Lemma encode_ascii (bs : bytes) :
  ascii bs -> encode (map Byte.to_N bs) = Ok bs.
Proof.
  induction 1 as [|b bs Hb _ IH]; [reflexivity|].
  cbn [encode map]. unfold encode_cp.
  apply N.ltb_lt in Hb. rewrite Hb. rewrite IH. simpl.
  rewrite b8_to_N. reflexivity.
Qed.

(** ASCII [bytes] survive [.decode('utf-8')] followed by
    [.encode('utf-8')]. *)
Lemma encode_decode_ascii (bs : bytes) (s : str) :
  ascii bs -> decode bs = Ok s -> encode s = Ok bs.
Proof.
  intros Ha Hd. rewrite (decode_ascii _ Ha) in Hd. injection Hd as <-.
  apply encode_ascii, Ha.
Qed.

End Utf8Facts.

(** ** Base64 *)

Module Base64Facts.
Import Base64.

Lemma list_ind3 {A} (P : list A -> Prop) :
  P [] -> (forall a, P [a]) -> (forall a b, P [a; b]) ->
  (forall a b c l, P l -> P (a :: b :: c :: l)) ->
  forall l, P l.
Proof.
  intros H0 H1 H2 H3.
  fix rec 1.
  intros [|a [|b [|c l]]];
    [apply H0 | apply H1 | apply H2 | apply H3, rec].
Qed.

Lemma sextets : forall_bits 6 sextet_reads_back 0 = true.
Proof. vm_compute. reflexivity. Qed.

Lemma sextet_ok (i : N) :
  (i <? 64)%N = true ->
  a2b (b2a i) = Some i /\ Byte.eqb (b2a i) BASE64_PAD = false.
Proof.
  intros Hi. apply N.ltb_lt in Hi.
  assert (H : sextet_reads_back i = true).
  { replace i with (0 * 2 ^ N.of_nat 6 + i)%N by lia.
    apply forall_bits_sound; [exact sextets|].
    change (2 ^ N.of_nat 6)%N with 64%N. exact Hi. }
  unfold sextet_reads_back in H.
  destruct (a2b (b2a i)) as [v|]; [|discriminate].
  apply andb_prop in H as [Hv Hp]. apply N.eqb_eq in Hv. subst v.
  split; [reflexivity|]. destruct (Byte.eqb (b2a i) BASE64_PAD); [discriminate|reflexivity].
Qed.

(** One alphabet character through the decoding loop. *)
Lemma a2b_loop_char (s : N) (rest : bytes) (quad_pos : nat) (leftchar : N)
      (pads : nat) (bin_data : bytes) :
  (s <? 64)%N = true ->
  a2b_loop (b2a s :: rest) quad_pos leftchar pads bin_data =
  match quad_pos with
  | 0 => a2b_loop rest 1 s 0 bin_data
  | 1 => a2b_loop rest 2 (N.land s 0x0f) 0
           (bin_data ++ [b8 (N.lor (N.shiftl leftchar 2) (N.shiftr s 4))])
  | 2 => a2b_loop rest 3 (N.land s 0x03) 0
           (bin_data ++ [b8 (N.lor (N.shiftl leftchar 4) (N.shiftr s 2))])
  | _ => a2b_loop rest 0 0 0
           (bin_data ++ [b8 (N.lor (N.shiftl leftchar 6) s)])
  end.
Proof.
  intros Hs. destruct (sextet_ok s Hs) as [Hv Hp].
  cbn [a2b_loop]. rewrite Hp, Hv. reflexivity.
Qed.

Lemma quad_first_all : forall a b, quad_first a b = true.
Proof. apply forall_byte2_sound. vm_compute. reflexivity. Qed.

Lemma quad_rest_all : forall b c, quad_rest b c = true.
Proof. apply forall_byte2_sound. vm_compute. reflexivity. Qed.

Lemma tail_one_all : forall a, tail_one a = true.
Proof. apply forall_byte_sound. vm_compute. reflexivity. Qed.

Lemma tail_two_all : forall a b, tail_two a b = true.
Proof. apply forall_byte2_sound. vm_compute. reflexivity. Qed.

Lemma byte_is_eq (n : N) (b : byte) : byte_is n b = true -> b8 n = b.
Proof. apply Byte.byte_dec_bl. Qed.

(** Decoding, started on a quad boundary, appends exactly the bytes that
    were encoded. *)
Lemma a2b_loop_b64encode (s : bytes) :
  forall bin_data, a2b_loop (b64encode s) 0 0 0 bin_data = Ok (bin_data ++ s).
Proof.
  induction s as [|a|a b|a b c s IH] using list_ind3; intros bin_data.
  - simpl. rewrite app_nil_r. reflexivity.
  - pose proof (tail_one_all a) as T. unfold tail_one in T.
    apply andb_prop in T as [T T3]. apply andb_prop in T as [T1 T2].
    cbn [b64encode].
    rewrite (a2b_loop_char _ _ _ _ _ _ T1), (a2b_loop_char _ _ _ _ _ _ T2).
    rewrite (byte_is_eq _ _ T3). reflexivity.
  - pose proof (quad_first_all a b) as Q. unfold quad_first in Q.
    apply andb_prop in Q as [Q Q4]. apply andb_prop in Q as [Q Q3].
    apply andb_prop in Q as [Q1 Q2].
    pose proof (tail_two_all a b) as T. unfold tail_two in T.
    apply andb_prop in T as [T1 T2].
    cbn [b64encode].
    rewrite (a2b_loop_char _ _ _ _ _ _ Q1), (a2b_loop_char _ _ _ _ _ _ Q2),
      (a2b_loop_char _ _ _ _ _ _ T1).
    rewrite (byte_is_eq _ _ Q3), (byte_is_eq _ _ T2).
    cbn. rewrite <- app_assoc. reflexivity.
  - pose proof (quad_first_all a b) as Q. unfold quad_first in Q.
    apply andb_prop in Q as [Q Q4]. apply andb_prop in Q as [Q Q3].
    apply andb_prop in Q as [Q1 Q2].
    pose proof (quad_rest_all b c) as T. unfold quad_rest in T.
    apply andb_prop in T as [T T4]. apply andb_prop in T as [T T3].
    apply andb_prop in T as [T1 T2].
    apply N.eqb_eq in Q4.
    cbn [b64encode].
    rewrite (a2b_loop_char _ _ _ _ _ _ Q1), (a2b_loop_char _ _ _ _ _ _ Q2),
      (a2b_loop_char _ _ _ _ _ _ T1), (a2b_loop_char _ _ _ _ _ _ T2).
    rewrite (byte_is_eq _ _ Q3), Q4, (byte_is_eq _ _ T3), (byte_is_eq _ _ T4).
    rewrite IH. rewrite <- !app_assoc. reflexivity.
Qed.

(** The decoder against CPython on well-formed and on sloppy input. *)
Example b64encode_hello :
  b64encode (lit_bytes "hello") = lit_bytes "aGVsbG8=".
Proof. reflexivity. Qed.

Example b64decode_after_pad :
  b64decode (lit_bytes "abc=def") = Ok (unhex (lit_bytes "69b7")).
Proof. reflexivity. Qed.

Example b64decode_leading_pad :
  b64decode (lit_bytes "=abcd") = Ok (unhex (lit_bytes "69b71d")).
Proof. reflexivity. Qed.

Example b64decode_two_messages :
  b64decode (lit_bytes "YQ==YQ==") = Ok (lit_bytes "a").
Proof. reflexivity. Qed.

Example b64decode_open_quad :
  b64decode (lit_bytes "ab=c") = Raise BinasciiError.
Proof. reflexivity. Qed.

Example b64decode_not_valid :
  b64decode (lit_bytes "not-valid-base64!!") = Raise BinasciiError.
Proof. reflexivity. Qed.

(** [b64decode(b64encode(s)) == s] *)
Lemma b64decode_b64encode (s : bytes) : b64decode (b64encode s) = Ok s.
Proof. unfold b64decode. apply a2b_loop_b64encode. Qed.

Lemma b2a_b64_char (i : N) : b64_char (b2a i) = true.
Proof.
  assert (H : (N.land i 0x3F <? 64)%N = true).
  { apply N.ltb_lt. change 0x3F%N with (N.ones 6). rewrite N.land_ones.
    apply N.mod_lt. discriminate. }
  assert (E : b2a i = b2a (N.land i 0x3F)).
  { unfold b2a. rewrite <- N.land_assoc. reflexivity. }
  rewrite E. unfold b64_char.
  destruct (sextet_ok _ H) as [-> _]. reflexivity.
Qed.

Lemma b64encode_chars (s : bytes) :
  Forall (fun b => b64_char b = true) (b64encode s).
Proof.
  induction s as [|a|a b|a b c s IH] using list_ind3; cbn [b64encode];
    repeat (constructor; try apply b2a_b64_char); try reflexivity.
  exact IH.
Qed.

Lemma b64_char_plain :
  forall b, implb (b64_char b)
              ((Byte.to_N b <? 0x80)%N && negb (Byte.to_N b =? PIPE)%N) = true.
Proof. apply forall_byte_sound. vm_compute. reflexivity. Qed.

Lemma b64encode_ascii (s : bytes) : Utf8.ascii (b64encode s).
Proof.
  eapply Forall_impl; [|apply b64encode_chars].
  intros b Hb. pose proof (b64_char_plain b) as H. rewrite Hb in H.
  simpl in H. apply andb_prop in H as [H _]. apply N.ltb_lt, H.
Qed.

Lemma b64encode_no_pipe (s : bytes) :
  contains PIPE (map Byte.to_N (b64encode s)) = false.
Proof.
  unfold contains. apply not_true_is_false. intros H.
  apply existsb_exists in H as (c & Hin & Hc).
  apply in_map_iff in Hin as (b & <- & Hb).
  pose proof (b64encode_chars s) as F. rewrite Forall_forall in F.
  specialize (F b Hb). pose proof (b64_char_plain b) as P.
  rewrite F in P. simpl in P. apply andb_prop in P as [_ P].
  apply N.eqb_eq in Hc. rewrite <- Hc, N.eqb_refl in P. discriminate.
Qed.

(** The text of a block: decoding [b64encode(s)] as UTF-8 gives its
    characters, and encoding them gives the bytes back. *)
Lemma decode_block (s : bytes) :
  Utf8.decode (b64encode s) = Ok (map Byte.to_N (b64encode s)).
Proof. apply Utf8Facts.decode_ascii, b64encode_ascii. Qed.

Lemma block_bytes (s : bytes) :
  Utf8.encode (map Byte.to_N (b64encode s)) = Ok (b64encode s).
Proof. apply Utf8Facts.encode_ascii, b64encode_ascii. Qed.

End Base64Facts.

(** ** SHA-256, HMAC and PBKDF2 *)

Module KdfFacts.
Import Sha256 Hmac Pbkdf2.

(** The transcription against published answers: FIPS 180-2 ("abc"),
    RFC 4231 test case 2, and PBKDF2-HMAC-SHA256 of "password"/"salt"
    with one and two iterations. *)
Example sha256_abc :
  sha256 (lit_bytes "abc") =
  unhex (lit_bytes "ba7816bf8f01cfea414140de5dae2223b00361a396177a9cb410ff61f20015ad").
Proof. vm_compute. reflexivity. Qed.

Example hmac_rfc4231_2 :
  hmac_sha256 (lit_bytes "Jefe") (lit_bytes "what do ya want for nothing?") =
  unhex (lit_bytes "5bdcc146bf60754e6a042426089575c75a003f089d2739839dec58b964ec3843").
Proof. vm_compute. reflexivity. Qed.

Example pbkdf2_one_iteration :
  pbkdf2_hmac_sha256 (lit_bytes "password") (lit_bytes "salt") 1 =
  unhex (lit_bytes "120fb6cffcf8b32c43e7225256c4f837a86548c92ccc35480805987cb70be17b").
Proof. vm_compute. reflexivity. Qed.

Example pbkdf2_two_iterations :
  pbkdf2_hmac_sha256 (lit_bytes "password") (lit_bytes "salt") 2 =
  unhex (lit_bytes "ae4d0c95af6b46d32d0adff928f06dd02a303f8ef3c251dfd6e2d85a95474c43").
Proof. vm_compute. reflexivity. Qed.

Lemma sha256_length (msg : bytes) : List.length (sha256 msg) = digest_size.
Proof. reflexivity. Qed.

Lemma hmac_length (key msg : bytes) :
  List.length (hmac_sha256 key msg) = digest_size.
Proof. apply sha256_length. Qed.

Lemma xor_bytes_length (x y : bytes) :
  List.length (xor_bytes x y) = Nat.min (List.length x) (List.length y).
Proof. unfold xor_bytes. rewrite length_map, length_combine. reflexivity. Qed.

Lemma F_length (password salt : bytes) (c i : N) :
  List.length (F password salt c i) = digest_size.
Proof.
  unfold F.
  set (u1 := hmac_sha256 password (salt ++ be32 i)).
  assert (Inv : List.length (fst (N.iter (c - 1) (step password) (u1, u1)))
                = digest_size /\
                List.length (snd (N.iter (c - 1) (step password) (u1, u1)))
                = digest_size).
  { apply (N.iter_invariant (c - 1) _ (step password)
             (fun r => List.length (fst r) = digest_size /\
                       List.length (snd r) = digest_size)).
    - intros [u t] [Hu Ht]. unfold step. cbn [fst snd] in *. split.
      + apply hmac_length.
      + rewrite xor_bytes_length, Ht, hmac_length. reflexivity.
    - cbn [fst snd]. split; apply hmac_length. }
  apply Inv.
Qed.

(** The derived key is always one digest, 32 bytes, long. *)
Lemma pbkdf2_length (password salt : bytes) (c : N) :
  List.length (pbkdf2_hmac_sha256 password salt c) = 32.
Proof.
  unfold pbkdf2_hmac_sha256. rewrite length_firstn, F_length. reflexivity.
Qed.





End KdfFacts.

(** ** [split], [join], [range] and slices *)

Module SeqFacts.

Example split_sample :
  split PIPE (lit "a|b||c") = [lit "a"; lit "b"; []; lit "c"] /\
  split PIPE [] = [[]] /\
  range 0 428 214 = [0; 214] /\ range 0 429 214 = [0; 214; 428] /\
  range 0 0 214 = [].
Proof. repeat split; reflexivity. Qed.

Lemma split_no_sep (sep : N) (s : str) :
  contains sep s = false -> split sep s = [s].
Proof.
  unfold contains. induction s as [|c s IH]; [reflexivity|].
  cbn [existsb split]. intros H. apply orb_false_elim in H as [Hc Hs].
  rewrite N.eqb_sym, Hc, (IH Hs). reflexivity.
Qed.

Lemma split_app_sep (sep : N) (p rest : str) :
  contains sep p = false ->
  split sep (p ++ sep :: rest) = p :: split sep rest.
Proof.
  unfold contains. induction p as [|c p IH]; intros H.
  - cbn [app split]. rewrite N.eqb_refl. reflexivity.
  - cbn [existsb] in H. apply orb_false_elim in H as [Hc Hp].
    cbn [app split]. rewrite N.eqb_sym, Hc, (IH Hp). reflexivity.
Qed.

(** [sep.join(pieces).split(sep) == pieces] when no piece holds [sep]. *)
Lemma split_join (sep : N) (pieces : list str) :
  pieces <> [] ->
  Forall (fun p => contains sep p = false) pieces ->
  split sep (join sep pieces) = pieces.
Proof.
  induction pieces as [|p ps IH]; intros Hne Hall; [congruence|].
  inversion Hall as [|? ? Hp Hps]; subst.
  destruct ps as [|q ps].
  - simpl. apply split_no_sep, Hp.
  - change (join sep (p :: q :: ps)) with (p ++ sep :: join sep (q :: ps)).
    rewrite (split_app_sep _ _ _ Hp), IH; [reflexivity|discriminate|exact Hps].
Qed.

Lemma contains_app_sep (sep : N) (p rest : str) :
  contains sep (p ++ sep :: rest) = true.
Proof.
  unfold contains. rewrite existsb_app. cbn [existsb].
  rewrite N.eqb_refl, orb_true_r. reflexivity.
Qed.

Lemma contains_join (sep : N) (p q : str) (ps : list str) :
  contains sep (join sep (p :: q :: ps)) = true.
Proof. apply contains_app_sep. Qed.

Lemma length_split_pos (sep : N) (s : str) : 1 <= List.length (split sep s).
Proof.
  induction s as [|c s IH]; simpl; [lia|].
  destruct (N.eqb c sep); simpl; [lia|].
  destruct (split sep s); simpl in *; lia.
Qed.

Lemma ceil_div_step (x m : nat) :
  0 < m -> 0 < x -> ceil_div x m = S (ceil_div (x - m) m).
Proof.
  intros Hm Hx. unfold ceil_div.
  destruct (Nat.le_gt_cases m x) as [Hle|Hgt].
  - replace (x + m - 1) with ((x - m + m - 1) + 1 * m) by lia.
    rewrite Nat.div_add by lia. lia.
  - replace (x - m) with 0 by lia.
    rewrite (Nat.div_small (0 + m - 1)) by lia.
    replace (x + m - 1) with ((x - 1) + 1 * m) by lia.
    rewrite Nat.div_add by lia. rewrite Nat.div_small by lia. reflexivity.
Qed.

Lemma ceil_div_0 (m : nat) : 0 < m -> ceil_div 0 m = 0.
Proof. intros Hm. unfold ceil_div. apply Nat.div_small. lia. Qed.

Lemma range_from_length (fuel i stop step : nat) :
  0 < step -> stop - i <= fuel ->
  List.length (range_from fuel i stop step) = ceil_div (stop - i) step.
Proof.
  intros Hs. revert i. induction fuel as [|fuel IH]; intros i Hf.
  - replace (stop - i) with 0 by lia. rewrite ceil_div_0 by exact Hs.
    reflexivity.
  - cbn [range_from]. destruct (Nat.ltb_spec i stop) as [Hlt|Hge].
    + cbn [List.length]. rewrite IH by lia.
      rewrite (ceil_div_step (stop - i) step) by lia.
      f_equal. f_equal. lia.
    + replace (stop - i) with 0 by lia. rewrite ceil_div_0 by exact Hs.
      reflexivity.
Qed.

(** [len(range(0, n, step)) == ceil(n / step)] *)
Lemma range_length (n step : nat) :
  0 < step -> List.length (range 0 n step) = ceil_div n step.
Proof.
  intros Hs. unfold range. rewrite range_from_length by lia.
  f_equal. lia.
Qed.

Lemma skipn_add {A} (x y : nat) (l : list A) :
  skipn (x + y) l = skipn y (skipn x l).
Proof.
  revert l. induction x as [|x IH]; intros l; [reflexivity|].
  destruct l as [|a l]; simpl.
  - rewrite skipn_nil. reflexivity.
  - apply IH.
Qed.

Lemma slices_from (b : bytes) (step fuel i : nat) :
  0 < step -> List.length b - i <= fuel ->
  concat (map (fun j => slice b j (j + step))
              (range_from fuel i (List.length b) step)) = skipn i b.
Proof.
  intros Hs. revert i. induction fuel as [|fuel IH]; intros i Hf.
  - simpl. symmetry. apply skipn_all2. lia.
  - cbn [range_from]. destruct (Nat.ltb_spec i (List.length b)) as [Hlt|Hge].
    + cbn [map concat]. rewrite IH by lia.
      unfold slice. replace (i + step - i) with step by lia.
      rewrite skipn_add. apply firstn_skipn.
    + simpl. symmetry. apply skipn_all2. lia.
Qed.

(** The slices taken at the indices of [range(0, len(b), step)] are the
    message, cut in order. *)
Lemma slices_concat (b : bytes) (step : nat) :
  0 < step ->
  concat (map (fun j => slice b j (j + step))
              (range 0 (List.length b) step)) = b.
Proof.
  intros Hs. unfold range. rewrite slices_from by lia. reflexivity.
Qed.

Lemma slice_length (b : bytes) (j step : nat) :
  List.length (slice b j (j + step)) <= step.
Proof.
  unfold slice. rewrite length_firstn. lia.
Qed.

Lemma range_from_lt (fuel i stop step : nat) :
  Forall (fun j => j < stop) (range_from fuel i stop step).
Proof.
  revert i. induction fuel as [|fuel IH]; intros i; cbn [range_from].
  - constructor.
  - destruct (Nat.ltb_spec i stop); constructor; [assumption|apply IH].
Qed.

(** Beyond one step the range starts [0, step, ...]. *)
Lemma range_two (n step : nat) :
  0 < step -> step < n ->
  exists rest, range 0 n step = 0 :: step :: rest.
Proof.
  intros Hs Hn. unfold range.
  destruct n as [|[|n]]; try lia.
  cbn [range_from].
  destruct (Nat.ltb_spec 0 (S (S n))); [|lia].
  destruct (Nat.ltb_spec (0 + step) (S (S n))); [|lia].
  eexists. reflexivity.
Qed.

End SeqFacts.

(* ================================================================= *)
(** * Properties of [CryptoUtils] *)

(** ** Computations on the random tape *)

Lemma rand_bind_Ok {A B} (m : rand A) (k : A -> rand B) t b t' :
  Rand.bind m k t = (Ok b, t') ->
  exists a t1, m t = (Ok a, t1) /\ k a t1 = (Ok b, t').
Proof.
  unfold Rand.bind. destruct (m t) as [[a|e] t1]; intros H.
  - eauto.
  - discriminate.
Qed.

Lemma rand_bind_run {A B} (m : rand A) (k : A -> rand B) t a t1 :
  m t = (Ok a, t1) -> Rand.bind m k t = k a t1.
Proof. unfold Rand.bind. intros ->. reflexivity. Qed.

Lemma rand_bind_raise {A B} (m : rand A) (k : A -> rand B) t e t1 :
  m t = (Raise e, t1) -> Rand.bind m k t = (Raise e, t1).
Proof. unfold Rand.bind. intros ->. reflexivity. Qed.

Lemma rand_try_Ok {A} (body : rand A) (e0 : exn) t a t' :
  Rand.try_except body (fun _ => raise e0) t = (Ok a, t') ->
  body t = (Ok a, t').
Proof.
  unfold Rand.try_except, raise. destruct (body t) as [[x|e] t1]; intros H.
  - exact H.
  - discriminate.
Qed.

(** ** The chunks of a message *)

Lemma max_chunk_size_214 : max_chunk_size = 214.
Proof. reflexivity. Qed.

Lemma chunks_of_concat (mb : bytes) : concat (chunks_of mb) = mb.
Proof.
  unfold chunks_of. destruct (List.length mb <=? max_chunk_size).
  - simpl. apply app_nil_r.
  - apply SeqFacts.slices_concat. rewrite max_chunk_size_214. lia.
Qed.

Lemma chunks_of_bound (mb : bytes) :
  Forall (fun chunk => List.length chunk <= max_chunk_size) (chunks_of mb).
Proof.
  unfold chunks_of. destruct (Nat.leb_spec (List.length mb) max_chunk_size).
  - constructor; [assumption|constructor].
  - apply Forall_forall. intros chunk Hin.
    apply in_map_iff in Hin as (i & <- & _). apply SeqFacts.slice_length.
Qed.

Lemma chunks_of_length (mb : bytes) :
  List.length (chunks_of mb) =
  if List.length mb =? 0 then 1 else ceil_div (List.length mb) max_chunk_size.
Proof.
  unfold chunks_of. rewrite max_chunk_size_214.
  destruct (Nat.leb_spec (List.length mb) 214) as [Hle|Hgt].
  - destruct (Nat.eqb_spec (List.length mb) 0) as [E|E]; [reflexivity|].
    rewrite (SeqFacts.ceil_div_step (List.length mb) 214) by lia.
    replace (List.length mb - 214) with 0 by lia.
    rewrite SeqFacts.ceil_div_0 by lia. reflexivity.
  - rewrite length_map, SeqFacts.range_length by lia.
    destruct (Nat.eqb_spec (List.length mb) 0); [lia|reflexivity].
Qed.

Lemma chunks_of_nonempty (mb : bytes) : chunks_of mb <> [].
Proof.
  unfold chunks_of. rewrite max_chunk_size_214.
  destruct (Nat.leb_spec (List.length mb) 214) as [Hle|Hgt]; [discriminate|].
  destruct (SeqFacts.range_two (List.length mb) 214) as (rest & ->); [lia|lia|].
  discriminate.
Qed.

(** ** Blocks of text *)

Lemma block_text_no_pipe (c : bytes) : contains PIPE (block_text c) = false.
Proof. apply Base64Facts.b64encode_no_pipe. Qed.

Lemma blocks_no_pipe (cts : list bytes) :
  Forall (fun p => contains PIPE p = false) (map block_text cts).
Proof.
  apply Forall_forall. intros p Hin.
  apply in_map_iff in Hin as (c & <- & _). apply block_text_no_pipe.
Qed.

Lemma split_blocks (cts : list bytes) :
  cts <> [] ->
  split PIPE (join PIPE (map block_text cts)) = map block_text cts.
Proof.
  intros Hne. apply SeqFacts.split_join; [|apply blocks_no_pipe].
  destruct cts; [congruence|discriminate].
Qed.

Lemma block_count_blocks (cts : list bytes) :
  cts <> [] -> block_count (join PIPE (map block_text cts)) = List.length cts.
Proof.
  intros Hne. unfold block_count. rewrite (split_blocks _ Hne).
  apply length_map.
Qed.

Lemma block_of_text (c : bytes) :
  (raw <- Utf8.encode (block_text c) ;; Base64.b64decode raw)%py = Ok c.
Proof.
  unfold block_text. rewrite Base64Facts.block_bytes. simpl.
  apply Base64Facts.b64decode_b64encode.
Qed.

Section MessageFacts.

Context {R : RSA}.

Lemma encrypts_length k t chunks cts t' :
  encrypts k t chunks cts t' -> List.length cts = List.length chunks.
Proof. induction 1; simpl; congruence. Qed.

(** *** The encryption loop *)

Lemma encrypt_chunks_Ok k mb : forall indices chunks t out t',
  encrypt_chunks k mb indices chunks t = (Ok out, t') ->
  exists cts,
    encrypts k t (map (fun i => slice mb i (i + max_chunk_size)) indices)
             cts t' /\
    out = chunks ++ map block_text cts.
Proof.
  induction indices as [|i indices IH]; intros chunks t out t' H.
  - injection H as <- <-. exists []. split; [constructor|].
    simpl. rewrite app_nil_r. reflexivity.
  - cbn [encrypt_chunks] in H.
    apply rand_bind_Ok in H as (c & t1 & Hc & H).
    apply rand_bind_Ok in H as (block & t2 & Hb & H).
    unfold lift in Hb. rewrite Base64Facts.decode_block in Hb.
    injection Hb as <- <-.
    apply IH in H as (cts & Hcts & ->).
    exists (c :: cts). split.
    + cbn [map]. econstructor; eassumption.
    + cbn [map]. rewrite <- app_assoc. reflexivity.
Qed.

Lemma encrypt_chunks_run k mb : forall indices chunks t cts t',
  encrypts k t (map (fun i => slice mb i (i + max_chunk_size)) indices)
           cts t' ->
  encrypt_chunks k mb indices chunks t =
  (Ok (chunks ++ map block_text cts), t').
Proof.
  induction indices as [|i indices IH]; intros chunks t cts t' H.
  - inversion H; subst. simpl. rewrite app_nil_r. reflexivity.
  - cbn [map] in H. inversion H as [|? ? c t1 ? cts' ? Hc Hrest]; subst.
    cbn [encrypt_chunks].
    rewrite (rand_bind_run _ _ _ _ _ Hc).
    unfold lift at 1. rewrite Base64Facts.decode_block.
    unfold Rand.bind at 1.
    rewrite (IH _ _ _ _ Hrest). cbn [map].
    rewrite <- app_assoc. reflexivity.
Qed.

(** A chunk the cipher refuses ends the loop with that exception,
    whatever was encrypted before it. *)
Lemma encrypt_chunks_raise k mb : forall done indices chunks t cts t1,
  forall chunk todo e t2,
  map (fun i => slice mb i (i + max_chunk_size)) indices
    = done ++ chunk :: todo ->
  encrypts k t done cts t1 ->
  oaep_encrypt k chunk t1 = (Raise e, t2) ->
  encrypt_chunks k mb indices chunks t = (Raise e, t2).
Proof.
  induction done as [|d done IH];
    intros indices chunks t cts t1 chunk todo e t2 Hmap Hdone Hfail.
  - inversion Hdone; subst.
    destruct indices as [|i indices]; [discriminate|].
    cbn [map app] in Hmap. injection Hmap as Hi _.
    cbn [encrypt_chunks]. rewrite Hi.
    apply rand_bind_raise, Hfail.
  - inversion Hdone as [|? ? c t' ? cts' ? Hc Hrest]; subst.
    destruct indices as [|i indices]; [discriminate|].
    cbn [map app] in Hmap. injection Hmap as Hi Hmap.
    cbn [encrypt_chunks]. rewrite Hi.
    rewrite (rand_bind_run _ _ _ _ _ Hc).
    unfold lift at 1. rewrite Base64Facts.decode_block.
    unfold Rand.bind at 1.
    eapply IH; eassumption.
Qed.

(** *** [encrypt_message], as a whole *)

Lemma encrypt_message_unfold message pem k mb t :
  key_of pem = Ok k -> Utf8.encode message = Ok mb ->
  encrypt_message message pem t =
  Rand.try_except (encrypt_body k mb)
    (fun _ => raise (Exception "Failed to encrypt message")) t.
Proof.
  intros Hk Hm. unfold key_of in Hk.
  apply bind_Ok in Hk as (raw & Hraw & Hk).
  unfold encrypt_message, Rand.try_except, encrypt_body.
  unfold Rand.bind at 1, lift at 1. rewrite Hraw.
  unfold Rand.bind at 1, lift at 1. rewrite Hk.
  unfold Rand.bind at 1, lift at 1. rewrite Hm.
  reflexivity.
Qed.

Lemma encrypt_body_Ok k mb t out t' :
  encrypt_body k mb t = (Ok out, t') ->
  exists cts,
    encrypts k t (chunks_of mb) cts t' /\
    out = join PIPE (map block_text cts).
Proof.
  unfold encrypt_body, chunks_of.
  destruct (List.length mb <=? max_chunk_size); intros H.
  - apply rand_bind_Ok in H as (c & t1 & Hc & H).
    unfold lift in H. rewrite Base64Facts.decode_block in H.
    injection H as <- <-.
    exists [c]. split; [|reflexivity].
    econstructor; [eassumption|constructor].
  - apply rand_bind_Ok in H as (chunks & t1 & Hc & H).
    injection H as <- <-.
    apply encrypt_chunks_Ok in Hc as (cts & Hcts & ->).
    exists cts. split; [exact Hcts|reflexivity].
Qed.

Lemma encrypt_body_run k mb t cts t' :
  encrypts k t (chunks_of mb) cts t' ->
  encrypt_body k mb t = (Ok (join PIPE (map block_text cts)), t').
Proof.
  unfold encrypt_body, chunks_of.
  destruct (List.length mb <=? max_chunk_size); intros H.
  - inversion H as [|? ? c t1 ? cts' ? Hc Hrest]; subst.
    inversion Hrest; subst.
    rewrite (rand_bind_run _ _ _ _ _ Hc). unfold lift.
    rewrite Base64Facts.decode_block. reflexivity.
  - rewrite (rand_bind_run _ _ _ _ _ (encrypt_chunks_run _ _ _ [] _ _ _ H)).
    reflexivity.
Qed.

Lemma encrypt_body_raise k mb t done cts t1 chunk todo e t2 :
  chunks_of mb = done ++ chunk :: todo ->
  encrypts k t done cts t1 ->
  oaep_encrypt k chunk t1 = (Raise e, t2) ->
  encrypt_body k mb t = (Raise e, t2).
Proof.
  unfold encrypt_body, chunks_of.
  destruct (List.length mb <=? max_chunk_size); intros Hsplit Hdone Hfail.
  - destruct done as [|d [|d' done]]; try discriminate.
    injection Hsplit as <- _. inversion Hdone; subst.
    apply rand_bind_raise, Hfail.
  - apply rand_bind_raise.
    eapply encrypt_chunks_raise; eassumption.
Qed.

(** A successful call encrypted every chunk, in order, and returns the
    blocks joined. *)
Lemma encrypt_message_Ok message pem k mb t out t' :
  key_of pem = Ok k -> Utf8.encode message = Ok mb ->
  encrypt_message message pem t = (Ok out, t') ->
  exists cts,
    encrypts k t (chunks_of mb) cts t' /\
    out = join PIPE (map block_text cts).
Proof.
  intros Hk Hm H. rewrite (encrypt_message_unfold _ _ _ _ _ Hk Hm) in H.
  apply rand_try_Ok in H. apply encrypt_body_Ok, H.
Qed.

Lemma encrypt_message_run message pem k mb t cts t' :
  key_of pem = Ok k -> Utf8.encode message = Ok mb ->
  encrypts k t (chunks_of mb) cts t' ->
  encrypt_message message pem t =
  (Ok (join PIPE (map block_text cts)), t').
Proof.
  intros Hk Hm H. rewrite (encrypt_message_unfold _ _ _ _ _ Hk Hm).
  unfold Rand.try_except. rewrite (encrypt_body_run _ _ _ _ _ H). reflexivity.
Qed.

Lemma encrypt_message_raise message pem k mb t done cts t1 chunk todo e t2 :
  key_of pem = Ok k -> Utf8.encode message = Ok mb ->
  chunks_of mb = done ++ chunk :: todo ->
  encrypts k t done cts t1 ->
  oaep_encrypt k chunk t1 = (Raise e, t2) ->
  encrypt_message message pem t =
  (Raise (Exception "Failed to encrypt message"), t2).
Proof.
  intros Hk Hm Hsplit Hdone Hfail.
  rewrite (encrypt_message_unfold _ _ _ _ _ Hk Hm).
  unfold Rand.try_except.
  rewrite (encrypt_body_raise _ _ _ _ _ _ _ _ _ _ Hsplit Hdone Hfail). reflexivity.
Qed.

End MessageFacts.

Section DecryptFacts.

Context {R : RSA}.

Lemma encode_block (c : bytes) :
  Utf8.encode (block_text c) = Ok (Base64.b64encode c).
Proof. apply Base64Facts.block_bytes. Qed.

(** *** The decryption loop *)

Lemma decrypt_chunks_run k : forall cts ms decrypted_chunks,
  Forall2 (decrypts k) cts ms ->
  decrypt_chunks k (map block_text cts) decrypted_chunks =
  Ok (decrypted_chunks ++ ms).
Proof.
  induction cts as [|c cts IH]; intros ms acc H; inversion H; subst.
  - simpl. rewrite app_nil_r. reflexivity.
  - cbn [map decrypt_chunks].
    rewrite encode_block. cbn [Py.bind].
    rewrite Base64Facts.b64decode_b64encode. cbn [Py.bind].
    match goal with Hd : decrypts _ _ _ |- _ => rewrite Hd end.
    cbn [Py.bind]. rewrite IH with (ms := l') by assumption.
    rewrite <- app_assoc. reflexivity.
Qed.


(** *** [decrypt_message], as a whole *)

Lemma decrypt_message_unfold encrypted_message pem k :
  key_of pem = Ok k ->
  decrypt_message encrypted_message pem =
  Py.try_except (decrypt_body k encrypted_message)
                (fun _ => Raise decryption_failed).
Proof.
  intros Hk. unfold key_of in Hk.
  apply bind_Ok in Hk as (raw & Hraw & Hk).
  unfold decrypt_message, decrypt_body. rewrite Hraw. cbn [Py.bind].
  rewrite Hk. reflexivity.
Qed.

Lemma decrypt_message_bad_key encrypted_message pem e :
  key_of pem = Raise e ->
  decrypt_message encrypted_message pem = Raise decryption_failed.
Proof.
  unfold key_of, decrypt_message. intros Hk.
  destruct (Utf8.encode pem) as [raw|e1]; cbn [Py.bind] in *.
  - rewrite Hk. reflexivity.
  - reflexivity.
Qed.

(** Whichever branch the separator selects, joined blocks are decrypted
    one by one and the plaintexts concatenated. *)
Lemma decrypt_body_blocks k cts ms :
  cts <> [] ->
  Forall2 (decrypts k) cts ms ->
  decrypt_body k (join PIPE (map block_text cts)) = Utf8.decode (concat ms).
Proof.
  intros Hne H. unfold decrypt_body.
  destruct cts as [|c [|c' cts]]; [congruence| |].
  - inversion H as [|? m ? ms' Hd Hrest]; subst. inversion Hrest; subst.
    cbn [map join]. rewrite block_text_no_pipe.
    rewrite encode_block. cbn [Py.bind].
    rewrite Base64Facts.b64decode_b64encode. cbn [Py.bind].
    rewrite Hd. cbn [Py.bind concat]. rewrite app_nil_r. reflexivity.
  - cbn [map]. rewrite SeqFacts.contains_join.
    change (block_text c :: block_text c' :: map block_text cts)
      with (map block_text (c :: c' :: cts)).
    rewrite split_blocks by discriminate.
    rewrite (decrypt_chunks_run _ _ _ [] H). reflexivity.
Qed.


End DecryptFacts.

Section ContractFacts.

Context {R : RSA} {C : RSAContract R}.

(** What [generate_key_pair] returns: the two PEM texts of one private
    key of 256 bytes. *)
Lemma generate_key_pair_keys t pub priv t' :
  generate_key_pair t = (Ok (pub, priv), t') ->
  exists k,
    has_private k = true /\ size_in_bytes k = 256 /\
    key_of priv = Ok k /\ key_of pub = Ok (publickey k).
Proof.
  intros H. unfold generate_key_pair in H. apply rand_try_Ok in H.
  apply rand_bind_Ok in H as (k & t1 & Hk & H).
  apply rand_bind_Ok in H as (priv' & t2 & Hpriv & H).
  apply rand_bind_Ok in H as (pub' & t3 & Hpub & H).
  injection H as <- <- <-.
  unfold lift in Hpriv, Hpub.
  injection Hpriv as Hpriv _. injection Hpub as Hpub _.
  destruct (generate_private _ _ _ _ Hk) as [Hp Hs].
  exists k. repeat split.
  - exact Hp.
  - rewrite Hs. reflexivity.
  - unfold key_of.
    rewrite (Utf8Facts.encode_decode_ascii _ _ (export_ascii k) Hpriv).
    apply import_export.
  - unfold key_of.
    rewrite (Utf8Facts.encode_decode_ascii _ _
               (export_ascii (publickey k)) Hpub).
    apply import_export.
Qed.

(** Chunks that leave room for the padding are all encrypted. *)
Lemma encrypts_fits k : forall chunks t,
  Forall (fun chunk => List.length chunk + oaep_overhead <= size_in_bytes k)
         chunks ->
  exists cts t', encrypts k t chunks cts t'.
Proof.
  induction chunks as [|chunk chunks IH]; intros t H.
  - exists [], t. constructor.
  - inversion H as [|? ? Hfit Hrest]; subst.
    destruct (encrypt_fits k chunk t Hfit) as (c & t1 & Hc).
    destruct (IH t1 Hrest) as (cts & t2 & Hcts).
    exists (c :: cts), t2. econstructor; eassumption.
Qed.

Lemma chunks_of_fit k mb :
  size_in_bytes k = 256 ->
  Forall (fun chunk => List.length chunk + oaep_overhead <= size_in_bytes k)
         (chunks_of mb).
Proof.
  intros Hs. eapply Forall_impl; [|apply chunks_of_bound].
  intros chunk Hc. cbv beta in Hc. rewrite Hs.
  rewrite max_chunk_size_214 in Hc. unfold oaep_overhead. lia.
Qed.

(** What was encrypted under the public half decrypts under the key. *)
Lemma encrypts_decrypts k t chunks cts t' :
  has_private k = true ->
  encrypts (publickey k) t chunks cts t' ->
  Forall2 (decrypts k) cts chunks.
Proof.
  intros Hp H. induction H; constructor.
  - eapply decrypt_encrypt; eassumption.
  - assumption.
Qed.

End ContractFacts.

(** ** The password codec *)

Lemma byte_eqb_refl (b : byte) : Byte.eqb b b = true.
Proof. apply Byte.byte_dec_lb. reflexivity. Qed.

Lemma Ok_inj {A} (a b : A) : Ok a = Ok b -> a = b.
Proof. intros H. injection H as H. exact H. Qed.

Module PasswordFacts.

Lemma salt_of_length (t : tape) : List.length (salt_of t) = 32.
Proof. unfold salt_of. rewrite length_map, length_seq. reflexivity. Qed.

Lemma record_of_length (raw salt : bytes) :
  List.length salt = 32 -> List.length (record_of raw salt) = 64.
Proof.
  intros Hs. unfold record_of.
  rewrite length_app, Hs, KdfFacts.pbkdf2_length. reflexivity.
Qed.

(** [hash_password] draws the salt and returns the base64 text of salt
    and derived key. *)
Lemma hash_password_run (password : str) (raw : bytes) (t : tape) :
  Utf8.encode password = Ok raw ->
  hash_password password t =
  (Ok (block_text (record_of raw (salt_of t))), advance salt_length t).
Proof.
  intros Hraw. unfold hash_password, Rand.bind, get_random_bytes, lift.
  rewrite Hraw. rewrite Base64Facts.decode_block. reflexivity.
Qed.

Lemma hash_password_raise (password : str) (e : exn) (t : tape) :
  Utf8.encode password = Raise e ->
  hash_password password t = (Raise e, advance salt_length t).
Proof.
  intros Hraw. unfold hash_password, Rand.bind, get_random_bytes, lift.
  rewrite Hraw. reflexivity.
Qed.

(** [verify_password] on a record that decodes: the comparison of the
    recomputed key with what follows the first 32 bytes. *)
Lemma verify_password_run (password record : str) (rb d raw : bytes) :
  Utf8.encode record = Ok rb ->
  Base64.b64decode rb = Ok d ->
  Utf8.encode password = Ok raw ->
  verify_password password record =
  Ok (bytes_eqb
        (Pbkdf2.pbkdf2_hmac_sha256 raw (slice d 0 32) kdf_iterations)
        (skipn 32 d)).
Proof.
  intros Hrb Hd Hraw. unfold verify_password.
  rewrite Hrb. cbn [Py.bind]. rewrite Hd. cbn [Py.bind].
  rewrite Hraw. reflexivity.
Qed.

Lemma verify_password_total (password record : str) :
  exists b, verify_password password record = Ok b.
Proof. unfold verify_password. apply try_except_total. Qed.

Lemma verify_password_true (password record : str) :
  verify_password password record = Ok true ->
  exists rb d raw,
    Utf8.encode record = Ok rb /\ Base64.b64decode rb = Ok d /\
    Utf8.encode password = Ok raw /\
    Pbkdf2.pbkdf2_hmac_sha256 raw (slice d 0 32) kdf_iterations
    = skipn 32 d.
Proof.
  unfold verify_password.
  destruct (Utf8.encode record) as [rb|e1] eqn:Hrb;
    cbn [Py.bind Py.try_except]; [|discriminate].
  destruct (Base64.b64decode rb) as [d|e2] eqn:Hd;
    cbn [Py.bind Py.try_except]; [|discriminate].
  destruct (Utf8.encode password) as [raw|e3] eqn:Hraw;
    cbn [Py.bind Py.try_except]; [|discriminate].
  intros H. apply Ok_inj in H. apply bytes_eqb_eq in H.
  exists rb, d, raw.
  split; [reflexivity|]. split; [exact Hd|]. split; [reflexivity|exact H].
Qed.

(** The record [hash_password] wrote, read back by [verify_password]. *)
Lemma record_reads_back (raw salt : bytes) :
  List.length salt = 32 ->
  slice (record_of raw salt) 0 32 = salt /\
  skipn 32 (record_of raw salt)
  = Pbkdf2.pbkdf2_hmac_sha256 raw salt kdf_iterations.
Proof.
  intros Hs. unfold record_of.
  change (slice ?x 0 32) with (firstn 32 x). split.
  - rewrite firstn_app, firstn_all2 by lia.
    rewrite Hs. change (32 - 32) with 0. cbn [firstn].
    apply app_nil_r.
  - rewrite skipn_app, skipn_all2 by lia.
    rewrite Hs. change (32 - 32) with 0. reflexivity.
Qed.

Lemma verify_hashed (password : str) (raw praw salt : bytes) :
  List.length salt = 32 ->
  Utf8.encode password = Ok raw ->
  verify_password password (block_text (record_of praw salt)) =
  Ok (bytes_eqb
        (Pbkdf2.pbkdf2_hmac_sha256 raw salt kdf_iterations)
        (Pbkdf2.pbkdf2_hmac_sha256 praw salt kdf_iterations)).
Proof.
  intros Hs Hraw. unfold block_text.
  rewrite (verify_password_run password _ _ (record_of praw salt) raw
             (Base64Facts.block_bytes _)
             (Base64Facts.b64decode_b64encode _) Hraw).
  destruct (record_reads_back praw salt Hs) as [-> ->]. reflexivity.
Qed.

End PasswordFacts.

(** ** The small RSA instance obeys the contract *)

Module ToyFacts.
Import ToyRSA.

Lemma b8_small (n : N) : (n < 256)%N -> Byte.to_N (b8 n) = n.
Proof.
  intros Hn. unfold b8.
  change 0xff%N with (N.ones 8). rewrite N.land_ones.
  rewrite N.mod_small by exact Hn.
  destruct (Byte.of_N n) as [b|] eqn:E.
  - apply Byte.to_of_N, E.
  - apply Byte.of_N_None_iff in E. lia.
Qed.

Lemma length_byte (n : nat) :
  n < 256 -> Byte.to_nat (b8 (N.of_nat n)) = n.
Proof.
  intros Hn. rewrite Byte.to_nat_via_N, b8_small by lia.
  apply Nat2N.id.
Qed.

Lemma size_bound (k : key) : size k <= 256.
Proof. unfold size. destruct (short k); lia. Qed.

Lemma contract : RSAContract rsa.
Proof.
  constructor; cbn [RsaKey generate import_key
                      export_key publickey has_private
                      size_in_bytes oaep_encrypt oaep_decrypt rsa].
  - intros bits t k t' H. unfold gen in H.
    destruct (Nat.eqb_spec bits 2048) as [->|_].
    + injection H as <- _. split; reflexivity.
    + destruct (Nat.eqb_spec bits 1024) as [->|_]; [|discriminate].
      injection H as <- _. split; reflexivity.
  - intros k. reflexivity.
  - intros [[|] [|] [|]]; repeat constructor.
  - intros [[|] [|] [|]]; reflexivity.
  - intros k m t Hfit. unfold encrypt.
    apply Nat.leb_le in Hfit. rewrite Hfit. eauto.
  - intros k m t c t' Hp H. unfold encrypt in H.
    change (size (public k)) with (size k) in H.
    destruct (Nat.leb_spec (List.length m + oaep_overhead) (size k))
      as [Hfit|]; [|discriminate].
    injection H as <- _. unfold decrypt. rewrite Hp.
    pose proof (size_bound k) as Hsz. unfold oaep_overhead in Hfit.
    cbn [List.length]. rewrite length_app, repeat_length.
    replace (S (S (List.length m + (size k - 2 - List.length m))))
      with (size k) by lia.
    rewrite Nat.eqb_refl.
    change (ident (public k)) with (ident k).
    rewrite byte_eqb_refl.
    rewrite length_byte by lia.
    replace (List.length m + oaep_overhead <=? size k) with true
      by (symmetry; apply Nat.leb_le; unfold oaep_overhead; lia).
    cbn [andb]. rewrite firstn_app, Nat.sub_diag, firstn_all.
    cbn [firstn]. rewrite app_nil_r. reflexivity.
  - intros k c m H. unfold decrypt in H.
    destruct (private k); [|discriminate].
    destruct c as [|tag [|len body]]; try discriminate.
    destruct (Nat.eqb_spec (List.length (tag :: len :: body)) (size k))
      as [Hlen|]; [|discriminate].
    destruct (Byte.eqb tag (flag (ident k))); [|discriminate].
    destruct (Nat.leb_spec (Byte.to_nat len + oaep_overhead) (size k))
      as [Hfit|]; [|discriminate].
    split; [exact Hlen|lia].
Qed.


End ToyFacts.

(* ================================================================= *)
(** * The message codec *)

Section MessageClaims.

Context {R : RSA}.

Lemma encrypt_message_inputs message pem t out t' :
  encrypt_message message pem t = (Ok out, t') ->
  exists k raw, key_of pem = Ok k /\ Utf8.encode message = Ok raw.
Proof.
  intros H. unfold encrypt_message in H. apply rand_try_Ok in H.
  apply rand_bind_Ok in H as (praw & t1 & Hp & H).
  apply rand_bind_Ok in H as (k & t2 & Hk & H).
  apply rand_bind_Ok in H as (raw & t3 & Hm & _).
  unfold lift in Hp, Hk, Hm.
  injection Hp as Hp _. injection Hk as Hk _. injection Hm as Hm _.
  exists k, raw. split; [|exact Hm].
  unfold key_of. rewrite Hp. exact Hk.
Qed.

Lemma encrypts_nonempty k t chunks cts t' :
  chunks <> [] -> encrypts k t chunks cts t' -> cts <> [].
Proof.
  intros Hne H Hcts. apply encrypts_length in H. subst cts.
  destruct chunks; [congruence|discriminate].
Qed.

(** C2, as amended: the encrypted message of a plaintext has
    [ceil(len(plaintextBytes) / maxChunkSize)] blocks separated by [|]
    when the plaintext is not empty, and exactly one block when it is
    empty. *)
Theorem block_count_of_encrypted_message message raw pem k t out t' :
  key_of pem = Ok k ->
  Utf8.encode message = Ok raw ->
  encrypt_message message pem t = (Ok out, t') ->
  block_count out =
  if List.length raw =? 0 then 1
  else ceil_div (List.length raw) max_chunk_size.
Proof.
  intros Hk Hm H.
  destruct (encrypt_message_Ok _ _ _ _ _ _ _ Hk Hm H) as (cts & Hcts & ->).
  rewrite block_count_blocks.
  - rewrite (encrypts_length _ _ _ _ _ Hcts). apply chunks_of_length.
  - eapply encrypts_nonempty; [apply chunks_of_nonempty|exact Hcts].
Qed.

(** C8: [encrypt_message] is all or nothing.  If the cipher refuses any
    chunk, after any number of chunks were encrypted, the call raises and
    returns nothing; and a call that returns has encrypted every chunk,
    in order. *)
Theorem encrypt_message_all_or_nothing message raw pem k t :
  key_of pem = Ok k ->
  Utf8.encode message = Ok raw ->
  (forall done cts t1 chunk todo e t2,
      chunks_of raw = done ++ chunk :: todo ->
      encrypts k t done cts t1 ->
      oaep_encrypt k chunk t1 = (Raise e, t2) ->
      encrypt_message message pem t = (Raise encryption_failed, t2)) /\
  (forall out t',
      encrypt_message message pem t = (Ok out, t') ->
      exists cts,
        encrypts k t (chunks_of raw) cts t' /\
        List.length cts = List.length (chunks_of raw) /\
        out = join PIPE (map block_text cts)).
Proof.
  intros Hk Hm. split.
  - intros done cts t1 chunk todo e t2 Hsplit Hdone Hfail.
    exact (encrypt_message_raise _ _ _ _ _ _ _ _ _ _ _ _
             Hk Hm Hsplit Hdone Hfail).
  - intros out t' H.
    destruct (encrypt_message_Ok _ _ _ _ _ _ _ Hk Hm H) as (cts & Hcts & ->).
    exists cts. split; [exact Hcts|]. split; [|reflexivity].
    exact (encrypts_length _ _ _ _ _ Hcts).
Qed.


End MessageClaims.

Section ContractClaims.

Context {R : RSA} {C : RSAContract R}.

(** Encryption under a generated public key always succeeds. *)
Lemma encrypt_message_succeeds k pem s raw t :
  size_in_bytes k = 256 ->
  key_of pem = Ok k ->
  Utf8.encode s = Ok raw ->
  exists cts t',
    encrypts k t (chunks_of raw) cts t' /\
    encrypt_message s pem t = (Ok (join PIPE (map block_text cts)), t').
Proof.
  intros Hs Hk Hraw.
  destruct (encrypts_fits k (chunks_of raw) t (chunks_of_fit k raw Hs))
    as (cts & t' & Hcts).
  exists cts, t'. split; [exact Hcts|].
  exact (encrypt_message_run _ _ _ _ _ _ _ Hk Hraw Hcts).
Qed.

(** C1: for every string [s] that UTF-8 can encode and every key pair
    made by one call of [generate_key_pair], [encrypt_message] returns
    and [decrypt_message] of what it returns, under the private key, is
    [s].  The string has any length: empty, one chunk, or many. *)
Theorem decrypt_encrypt_round_trip s raw pub priv t0 t1 t :
  generate_key_pair t0 = (Ok (pub, priv), t1) ->
  Utf8.encode s = Ok raw ->
  exists out t',
    encrypt_message s pub t = (Ok out, t') /\
    decrypt_message out priv = Ok s.
Proof.
  intros Hgen Hraw.
  destruct (generate_key_pair_keys _ _ _ _ Hgen)
    as (k & Hp & Hs & Hpriv & Hpub).
  assert (Hs' : size_in_bytes (publickey k) = 256)
    by (rewrite publickey_size; exact Hs).
  destruct (encrypt_message_succeeds _ _ _ _ t Hs' Hpub Hraw)
    as (cts & t' & Hcts & Henc).
  exists (join PIPE (map block_text cts)), t'. split; [exact Henc|].
  rewrite (decrypt_message_unfold _ _ _ Hpriv).
  rewrite (decrypt_body_blocks k cts (chunks_of raw)).
  - rewrite chunks_of_concat, (Utf8Facts.decode_encode _ _ Hraw).
    reflexivity.
  - eapply encrypts_nonempty; [apply chunks_of_nonempty|exact Hcts].
  - exact (encrypts_decrypts _ _ _ _ _ Hp Hcts).
Qed.

(** C3: the chunk size is the modulus size less the 42 bytes of OAEP,
    214 bytes for the 2048-bit key.  A plaintext of at most that many
    bytes is encrypted whole and the result is one base64 block without
    [|]; a longer one is cut into consecutive slices of at most that many
    bytes, each encrypted under the same key, and the base64 blocks are
    joined by [|].  ["hello world"] under a generated key is one block. *)
Theorem encrypt_message_chunking :
  (max_chunk_size = key_size / 8 - oaep_overhead /\ max_chunk_size = 214) /\
  (forall message raw pem k t out t',
      key_of pem = Ok k ->
      Utf8.encode message = Ok raw ->
      encrypt_message message pem t = (Ok out, t') ->
      (List.length raw <= max_chunk_size ->
       exists c,
         oaep_encrypt k raw t = (Ok c, t') /\
         Utf8.decode (Base64.b64encode c) = Ok out /\
         contains PIPE out = false) /\
      (max_chunk_size < List.length raw ->
       exists chunks cts,
         chunks = map (fun i => slice raw i (i + max_chunk_size))
                      (range 0 (List.length raw) max_chunk_size) /\
         concat chunks = raw /\
         Forall (fun chunk => List.length chunk <= max_chunk_size) chunks /\
         encrypts k t chunks cts t' /\
         out = join PIPE (map block_text cts) /\
         contains PIPE out = true)) /\
  (forall pub priv t0 t1 t,
      generate_key_pair t0 = (Ok (pub, priv), t1) ->
      exists k c out t',
        key_of pub = Ok k /\
        max_chunk_size = size_in_bytes k - oaep_overhead /\
        encrypt_message (lit "hello world") pub t = (Ok out, t') /\
        out = block_text c /\
        contains PIPE out = false).
Proof.
  split; [split; reflexivity|]. split.
  - intros message raw pem k t out t' Hk Hm H.
    destruct (encrypt_message_Ok _ _ _ _ _ _ _ Hk Hm H) as (cts & Hcts & ->).
    pose proof (chunks_of_concat raw) as Hcat.
    pose proof (chunks_of_bound raw) as Hbound.
    unfold chunks_of in Hcts, Hcat, Hbound. split; intros Hlen.
    + apply Nat.leb_le in Hlen. rewrite Hlen in Hcts.
      inversion Hcts as [|? ? c t1 ? cts' ? Hc Hrest]; subst.
      inversion Hrest; subst.
      exists c. split; [exact Hc|]. split.
      * apply Base64Facts.decode_block.
      * apply block_text_no_pipe.
    + assert (Hgt : (List.length raw <=? max_chunk_size) = false)
        by (apply Nat.leb_gt; exact Hlen).
      rewrite Hgt in Hcts, Hcat, Hbound.
      eexists. exists cts. split; [reflexivity|].
      split; [exact Hcat|]. split; [exact Hbound|].
      split; [exact Hcts|]. split; [reflexivity|].
      rewrite max_chunk_size_214 in Hlen, Hcts.
      destruct (SeqFacts.range_two (List.length raw) 214) as (rest & E);
        [lia|exact Hlen|].
      rewrite max_chunk_size_214 in *. rewrite E in Hcts.
      inversion Hcts as [|? ? c1 ? ? cts1 ? _ Hrest]; subst.
      inversion Hrest as [|? ? c2 ? ? cts2 ? _ _]; subst.
      apply SeqFacts.contains_join.
  - intros pub priv t0 t1 t Hgen.
    destruct (generate_key_pair_keys _ _ _ _ Hgen)
      as (k & Hp & Hs & Hpriv & Hpub).
    assert (Hs' : size_in_bytes (publickey k) = 256)
      by (rewrite publickey_size; exact Hs).
    assert (Hraw : Utf8.encode (lit "hello world")
                   = Ok (lit_bytes "hello world")) by reflexivity.
    destruct (encrypt_message_succeeds _ _ _ _ t Hs' Hpub Hraw)
      as (cts & t' & Hcts & Henc).
    change (chunks_of (lit_bytes "hello world"))
      with [lit_bytes "hello world"] in Hcts.
    inversion Hcts as [|? ? c ? ? cts' ? _ Hrest]; subst.
    inversion Hrest; subst.
    exists (publickey k), c, (block_text c), t'.
    split; [exact Hpub|]. split; [rewrite Hs'; reflexivity|].
    split; [exact Henc|]. split; [reflexivity|].
    apply block_text_no_pipe.
Qed.

(** C6: the empty string is not an encrypted message;
    [decrypt_message] raises on it under every key. *)
Theorem decrypt_message_empty priv :
  decrypt_message [] priv = Raise decryption_failed.
Proof.
  destruct (key_of priv) as [k|e] eqn:Hk.
  - rewrite (decrypt_message_unfold _ _ _ Hk).
    unfold decrypt_body. cbn [contains existsb Utf8.encode Py.bind].
    change (Base64.b64decode []) with (@Ok bytes []). cbn [Py.bind].
    destruct (oaep_decrypt k []) as [m|e] eqn:Hd; [|reflexivity].
    destruct (decrypt_length _ _ _ Hd) as [Hlen Hsize].
    cbn [List.length] in Hlen. unfold oaep_overhead in Hsize. lia.
  - exact (decrypt_message_bad_key _ _ _ Hk).
Qed.

End ContractClaims.

(* ================================================================= *)
(** * The password codec *)

Section PasswordClaims.

Import PasswordFacts.

Lemma bytes_eqb_refl (x : bytes) : bytes_eqb x x = true.
Proof. apply bytes_eqb_eq. reflexivity. Qed.

Lemma bytes_eqb_length (x y : bytes) :
  List.length x <> List.length y -> bytes_eqb x y = false.
Proof.
  intros Hne. destruct (bytes_eqb x y) eqn:E; [|reflexivity].
  apply bytes_eqb_eq in E. subst. congruence.
Qed.


(** A record whose decoded length is not 64 never verifies. *)
Lemma verify_password_wrong_length password record rb d :
  Utf8.encode record = Ok rb ->
  Base64.b64decode rb = Ok d ->
  List.length d <> 64 ->
  verify_password password record = Ok false.
Proof.
  intros Hrb Hd Hlen.
  destruct (Utf8.encode password) as [raw|e] eqn:Hraw.
  - rewrite (verify_password_run _ _ _ _ _ Hrb Hd Hraw).
    rewrite bytes_eqb_length; [reflexivity|].
    rewrite KdfFacts.pbkdf2_length, length_skipn. lia.
  - unfold verify_password. rewrite Hrb. cbn [Py.bind].
    rewrite Hd. cbn [Py.bind]. rewrite Hraw. reflexivity.
Qed.


(** C5: [verify_password] never raises.  It returns a boolean for all
    inputs, and that boolean is false when the record cannot be encoded
    or is not base64, when it decodes to fewer than 32 bytes, and when
    the password cannot be encoded; ["not-valid-base64!!"] is such a
    record. *)
Theorem verify_password_fails_closed (p record : str) :
  (exists b, verify_password p record = Ok b) /\
  (forall e, Utf8.encode record = Raise e ->
             verify_password p record = Ok false) /\
  (forall rb e, Utf8.encode record = Ok rb ->
                Base64.b64decode rb = Raise e ->
                verify_password p record = Ok false) /\
  (forall rb d, Utf8.encode record = Ok rb ->
                Base64.b64decode rb = Ok d ->
                List.length d < salt_length ->
                verify_password p record = Ok false) /\
  (forall e, Utf8.encode p = Raise e ->
             verify_password p record = Ok false) /\
  verify_password p (lit "not-valid-base64!!") = Ok false.
Proof.
  split; [apply verify_password_total|].
  split; [|split; [|split; [|split]]].
  - intros e He. unfold verify_password. rewrite He. reflexivity.
  - intros rb e Hrb He. unfold verify_password.
    rewrite Hrb. cbn [Py.bind]. rewrite He. reflexivity.
  - intros rb d Hrb Hd Hlen.
    apply (verify_password_wrong_length p record rb d Hrb Hd).
    unfold salt_length in Hlen. lia.
  - intros e He. unfold verify_password.
    destruct (Utf8.encode record) as [rb|e1]; [|reflexivity].
    cbn [Py.bind].
    destruct (Base64.b64decode rb) as [d|e2]; [|reflexivity].
    cbn [Py.bind]. rewrite He. reflexivity.
  - unfold verify_password.
    change (Utf8.encode (lit "not-valid-base64!!"))
      with (@Ok bytes (lit_bytes "not-valid-base64!!")).
    cbn [Py.bind].
    change (Base64.b64decode (lit_bytes "not-valid-base64!!"))
      with (@Raise bytes BinasciiError).
    reflexivity.
Qed.

(** C9: for every password that UTF-8 can encode, [hash_password]
    returns one base64 string, and it decodes to exactly 64 bytes: the
    32 bytes of salt drawn from the random source, then the 32 bytes of
    the PBKDF2-HMAC-SHA256 key of the password under that salt. *)
Theorem hash_password_record (p : str) (raw : bytes) (t : tape) :
  Utf8.encode p = Ok raw ->
  exists record t' rb salt derived,
    hash_password p t = (Ok record, t') /\
    Utf8.encode record = Ok rb /\
    Forall (fun b => Base64.b64_char b = true) rb /\
    Base64.b64decode rb = Ok (salt ++ derived) /\
    salt = salt_of t /\
    derived = Pbkdf2.pbkdf2_hmac_sha256 raw salt kdf_iterations /\
    List.length salt = 32 /\
    List.length derived = 32 /\
    List.length (salt ++ derived) = 64.
Proof.
  intros Hraw.
  exists (block_text (record_of raw (salt_of t))), (advance salt_length t),
    (Base64.b64encode (record_of raw (salt_of t))), (salt_of t),
    (Pbkdf2.pbkdf2_hmac_sha256 raw (salt_of t) kdf_iterations).
  split; [exact (hash_password_run p raw t Hraw)|].
  split; [apply Base64Facts.block_bytes|].
  split; [apply Base64Facts.b64encode_chars|].
  split; [apply Base64Facts.b64decode_b64encode|].
  split; [reflexivity|]. split; [reflexivity|].
  split; [apply salt_of_length|].
  split; [apply KdfFacts.pbkdf2_length|].
  apply record_of_length, salt_of_length.
Qed.

(** C10: [verify_password] returns true only for records whose base64
    decoding has exactly 64 bytes; for a record decoding to any other
    length it returns false, and it raises for none. *)
Theorem verify_password_record_length (p record : str) :
  (verify_password p record = Ok true ->
   exists rb d,
     Utf8.encode record = Ok rb /\ Base64.b64decode rb = Ok d /\
     List.length d = 64) /\
  (forall rb d,
      Utf8.encode record = Ok rb ->
      Base64.b64decode rb = Ok d ->
      List.length d <> 64 ->
      verify_password p record = Ok false) /\
  (exists b, verify_password p record = Ok b).
Proof.
  split; [|split].
  - intros H.
    destruct (verify_password_true p record H)
      as (rb & d & raw & Hrb & Hd & _ & Heq).
    exists rb, d. split; [exact Hrb|]. split; [exact Hd|].
    apply (f_equal (@List.length byte)) in Heq.
    rewrite KdfFacts.pbkdf2_length, length_skipn in Heq. lia.
  - apply verify_password_wrong_length.
  - apply verify_password_total.
Qed.

End PasswordClaims.

(* ================================================================= *)
(** * The statements on concrete inputs *)

Module RunFacts.
Import ToyRSA Runs.

Lemma generated :
  @generate_key_pair rsa zeros = (Ok (pub, priv), advance 1 zeros).
Proof. reflexivity. Qed.

Lemma long_message_bytes : Utf8.encode long_message = Ok long_bytes.
Proof. vm_compute. reflexivity. Qed.

Lemma message_300_bytes : Utf8.encode message_300 = Ok bytes_300.
Proof. vm_compute. reflexivity. Qed.

Lemma pub_imports : @key_of rsa pub = Ok pub_key.
Proof. reflexivity. Qed.

End RunFacts.

Lemma decrypt_encrypt_round_trip_witness :
  @generate_key_pair ToyRSA.rsa ToyRSA.zeros
  = (Ok (Runs.pub, Runs.priv), advance 1 ToyRSA.zeros) /\
  Utf8.encode Runs.long_message = Ok Runs.long_bytes /\
  exists out t',
    @encrypt_message ToyRSA.rsa Runs.long_message Runs.pub ToyRSA.ones
    = (Ok out, t') /\
    @decrypt_message ToyRSA.rsa out Runs.priv = Ok Runs.long_message.
Proof.
  split; [exact RunFacts.generated|]. split; [exact RunFacts.long_message_bytes|].
  exact (@decrypt_encrypt_round_trip ToyRSA.rsa ToyFacts.contract
           Runs.long_message Runs.long_bytes Runs.pub Runs.priv
           ToyRSA.zeros (advance 1 ToyRSA.zeros) ToyRSA.ones
           RunFacts.generated RunFacts.long_message_bytes).
Defined.

(** C2 as stated fails for the empty plaintext: its encrypted message is
    one block, and [ceil(0 / maxChunkSize)] is zero. *)
Lemma empty_message_is_one_block :
  exists out t',
    Utf8.encode [] = Ok [] /\
    @encrypt_message ToyRSA.rsa [] Runs.pub ToyRSA.zeros = (Ok out, t') /\
    block_count out = 1 /\
    ceil_div (List.length (@nil byte)) max_chunk_size = 0.
Proof.
  destruct (@encrypt_message_succeeds ToyRSA.rsa ToyFacts.contract
              Runs.pub_key Runs.pub [] [] ToyRSA.zeros
              eq_refl RunFacts.pub_imports eq_refl)
    as (cts & t' & Hcts & Henc).
  exists (join PIPE (map block_text cts)), t'.
  split; [reflexivity|]. split; [exact Henc|]. split; [|reflexivity].
  rewrite block_count_blocks.
  - exact (encrypts_length _ _ _ _ _ Hcts).
  - eapply encrypts_nonempty; [apply chunks_of_nonempty|exact Hcts].
Qed.

Lemma block_count_of_encrypted_message_witness :
  exists out t',
    @key_of ToyRSA.rsa Runs.pub = Ok Runs.pub_key /\
    Utf8.encode Runs.long_message = Ok Runs.long_bytes /\
    @encrypt_message ToyRSA.rsa Runs.long_message Runs.pub ToyRSA.zeros
    = (Ok out, t') /\
    block_count out = 2.
Proof.
  destruct (@encrypt_message_succeeds ToyRSA.rsa ToyFacts.contract
              Runs.pub_key Runs.pub Runs.long_message Runs.long_bytes
              ToyRSA.zeros eq_refl RunFacts.pub_imports RunFacts.long_message_bytes)
    as (cts & t' & Hcts & Henc).
  exists (join PIPE (map block_text cts)), t'.
  split; [exact RunFacts.pub_imports|].
  split; [exact RunFacts.long_message_bytes|].
  split; [exact Henc|].
  exact (@block_count_of_encrypted_message ToyRSA.rsa
           Runs.long_message Runs.long_bytes Runs.pub Runs.pub_key
           ToyRSA.zeros _ t'
           RunFacts.pub_imports RunFacts.long_message_bytes Henc).
Defined.

Lemma encrypt_message_chunking_witness :
  exists k c out t',
    @key_of ToyRSA.rsa Runs.pub = Ok k /\
    max_chunk_size = @size_in_bytes ToyRSA.rsa k - oaep_overhead /\
    @encrypt_message ToyRSA.rsa (lit "hello world") Runs.pub ToyRSA.ones
    = (Ok out, t') /\
    out = block_text c /\
    contains PIPE out = false.
Proof.
  exact (proj2 (proj2 (@encrypt_message_chunking ToyRSA.rsa ToyFacts.contract))
           Runs.pub Runs.priv ToyRSA.zeros (advance 1 ToyRSA.zeros)
           ToyRSA.ones RunFacts.generated).
Defined.

Lemma decrypt_message_empty_witness :
  @decrypt_message ToyRSA.rsa [] Runs.priv = Raise decryption_failed.
Proof.
  exact (@decrypt_message_empty ToyRSA.rsa ToyFacts.contract Runs.priv).
Defined.


Lemma encrypt_message_all_or_nothing_witness :
  @key_of ToyRSA.rsa Runs.short_pub = Ok (ToyRSA.Key true false true) /\
  Utf8.encode Runs.message_300 = Ok Runs.bytes_300 /\
  @encrypt_message ToyRSA.rsa Runs.message_300 Runs.short_pub ToyRSA.zeros
  = (Raise encryption_failed, ToyRSA.zeros).
Proof.
  assert (Hk : @key_of ToyRSA.rsa Runs.short_pub
               = Ok (ToyRSA.Key true false true)) by reflexivity.
  split; [exact Hk|]. split; [exact RunFacts.message_300_bytes|].
  apply (proj1 (@encrypt_message_all_or_nothing ToyRSA.rsa
                  Runs.message_300 Runs.bytes_300 Runs.short_pub
                  (ToyRSA.Key true false true) ToyRSA.zeros
                  Hk RunFacts.message_300_bytes)
           [] [] ToyRSA.zeros (repeat "a"%byte 214) [repeat "a"%byte 86]
           ValueError ToyRSA.zeros).
  - vm_compute. reflexivity.
  - constructor.
  - reflexivity.
Defined.



Lemma hash_password_record_witness :
  Utf8.encode (lit "abc") = Ok (lit_bytes "abc") /\
  exists record t' rb salt derived,
    hash_password (lit "abc") ToyRSA.zeros = (Ok record, t') /\
    Utf8.encode record = Ok rb /\
    Forall (fun b => Base64.b64_char b = true) rb /\
    Base64.b64decode rb = Ok (salt ++ derived) /\
    salt = salt_of ToyRSA.zeros /\
    derived = Pbkdf2.pbkdf2_hmac_sha256 (lit_bytes "abc") salt kdf_iterations /\
    List.length salt = 32 /\
    List.length derived = 32 /\
    List.length (salt ++ derived) = 64.
Proof.
  split; [reflexivity|].
  exact (hash_password_record (lit "abc") (lit_bytes "abc") ToyRSA.zeros
           eq_refl).
Defined.

(* ================================================================= *)
(** * More of [CryptoUtils] *)

(** ** Sizes of base64 text *)

Lemma b64encode_length (s : bytes) :
  List.length (Base64.b64encode s) = 4 * ((List.length s + 2) / 3).
Proof.
  induction s as [|a|a b|a b c s IH] using Base64Facts.list_ind3;
    try reflexivity.
  cbn [Base64.b64encode List.length]. rewrite IH.
  replace (S (S (S (List.length s))) + 2)
    with (List.length s + 2 + 1 * 3) by lia.
  rewrite Nat.div_add by lia. lia.
Qed.

Lemma b64encode_longer (s : bytes) :
  List.length s <= List.length (Base64.b64encode s).
Proof.
  rewrite b64encode_length.
  pose proof (Nat.div_mod_eq (List.length s + 2) 3) as E.
  pose proof (Nat.mod_upper_bound (List.length s + 2) 3). lia.
Qed.

Lemma b2a_in_alphabet (i : N) : in_alphabet (Base64.b2a i) = true.
Proof.
  assert (H : (N.land i 0x3F <? 64)%N = true).
  { apply N.ltb_lt. change 0x3F%N with (N.ones 6). rewrite N.land_ones.
    apply N.mod_lt. discriminate. }
  assert (E : Base64.b2a i = Base64.b2a (N.land i 0x3F)).
  { unfold Base64.b2a. rewrite <- N.land_assoc. reflexivity. }
  rewrite E. unfold in_alphabet.
  destruct (Base64Facts.sextet_ok _ H) as [-> _]. reflexivity.
Qed.

(** The pad characters come after as many characters as there were
    bytes. *)
Lemma b64encode_prefix (s : bytes) :
  forall m, m <= List.length s ->
  Forall (fun b => in_alphabet b = true) (firstn m (Base64.b64encode s)).
Proof.
  induction s as [|a|a b|a b c s IH] using Base64Facts.list_ind3;
    intros m Hm; cbn [List.length] in Hm.
  - replace m with 0 by lia. constructor.
  - destruct m as [|[|m]]; try lia; cbn [Base64.b64encode firstn];
      repeat (constructor; try apply b2a_in_alphabet).
  - destruct m as [|[|[|m]]]; try lia; cbn [Base64.b64encode firstn];
      repeat (constructor; try apply b2a_in_alphabet).
  - cbn [Base64.b64encode].
    destruct m as [|[|[|[|m]]]]; cbn [firstn];
      repeat (constructor; try apply b2a_in_alphabet).
    apply IH. lia.
Qed.

Lemma urlsafe_chars :
  forall b,
    implb (Base64.b64_char b) (Byte.to_N (urlsafe b) <? 0x80)%N
    && implb (in_alphabet b) (token_char (Byte.to_N (urlsafe b))) = true.
Proof. apply forall_byte_sound. vm_compute. reflexivity. Qed.

Lemma urlsafe_b64encode_ascii (s : bytes) : Utf8.ascii (urlsafe_b64encode s).
Proof.
  unfold urlsafe_b64encode, Utf8.ascii. apply Forall_map.
  eapply Forall_impl; [|apply Base64Facts.b64encode_chars].
  intros b Hb. pose proof (urlsafe_chars b) as H.
  apply andb_prop in H as [H _]. rewrite Hb in H. apply N.ltb_lt, H.
Qed.

(** X1: [generate_random_token(length)] always returns, with a token of
    exactly [length] characters, each a letter, a digit, [-] or [_]; the
    base64 pad never gets into it. *)
Theorem generate_random_token_shape (length : nat) (t : tape) :
  exists token,
    generate_random_token length t = (Ok token, advance length t) /\
    List.length token = length /\
    Forall (fun c => token_char c = true) token.
Proof.
  set (raw := map t (seq 0 length)).
  assert (Hraw : List.length raw = length)
    by (unfold raw; rewrite length_map, length_seq; reflexivity).
  exists (firstn length (map Byte.to_N (urlsafe_b64encode raw))).
  split; [|split].
  - unfold generate_random_token, Rand.bind, get_random_bytes, lift, ret.
    fold raw.
    rewrite (Utf8Facts.decode_ascii _ (urlsafe_b64encode_ascii raw)).
    reflexivity.
  - rewrite length_firstn, length_map. unfold urlsafe_b64encode.
    rewrite length_map. pose proof (b64encode_longer raw). lia.
  - unfold urlsafe_b64encode. rewrite map_map, firstn_map.
    apply Forall_map.
    eapply Forall_impl; [|apply (b64encode_prefix raw length); lia].
    intros b Hb. pose proof (urlsafe_chars b) as H.
    apply andb_prop in H as [_ H]. rewrite Hb in H. exact H.
Qed.

(** ** Key generation *)

Section KeyGeneration.

Context {R : RSA} {C : RSAContract R}.

Lemma pem_text (k : RsaKey) :
  Utf8.decode (export_key k) = Ok (map Byte.to_N (export_key k)).
Proof. apply Utf8Facts.decode_ascii, export_ascii. Qed.

(** X2: [generate_key_pair] returns exactly when [RSA.generate] does, with
    the PEM texts of the key and of its public half; any failure of the
    primitive surfaces as the one exception of key generation.  The two
    texts of a returned pair import to one 256-byte private key and to its
    public half. *)
Theorem generate_key_pair_outcome (t : tape) :
  (forall k t',
      generate key_size t = (Ok k, t') ->
      generate_key_pair t =
      (Ok (map Byte.to_N (export_key (publickey k)),
           map Byte.to_N (export_key k)), t')) /\
  (forall e t',
      generate key_size t = (Raise e, t') ->
      generate_key_pair t = (Raise keygen_failed, t')) /\
  (forall pub priv t',
      generate_key_pair t = (Ok (pub, priv), t') ->
      exists k,
        key_of priv = Ok k /\ key_of pub = Ok (publickey k) /\
        has_private k = true /\ size_in_bytes k = 256).
Proof.
  split; [|split].
  - intros k t' Hk. unfold generate_key_pair, Rand.try_except.
    rewrite (rand_bind_run _ _ _ _ _ Hk).
    unfold Rand.bind, lift, ret. rewrite !pem_text. reflexivity.
  - intros e t' Hk. unfold generate_key_pair, Rand.try_except.
    rewrite (rand_bind_raise _ _ _ _ _ Hk). reflexivity.
  - intros pub priv t' H.
    destruct (generate_key_pair_keys _ _ _ _ H) as (k & Hp & Hs & Hpriv & Hpub).
    exists k. auto.
Qed.

End KeyGeneration.

(** ** Decryption, block by block *)

Section Decryption.

Context {R : RSA}.

Lemma decrypt_chunks_Ok k : forall chunks decrypted_chunks out,
  decrypt_chunks k chunks decrypted_chunks = Ok out ->
  exists ms, Forall2 (block_plain k) chunks ms /\ out = decrypted_chunks ++ ms.
Proof.
  induction chunks as [|chunk chunks IH]; intros acc out H.
  - apply Ok_inj in H. subst. exists []. split; [constructor|].
    symmetry. apply app_nil_r.
  - cbn [decrypt_chunks] in H.
    apply bind_Ok in H as (raw & Hraw & H).
    apply bind_Ok in H as (c & Hc & H).
    apply bind_Ok in H as (m & Hm & H).
    apply IH in H as (ms & Hms & ->).
    exists (m :: ms). split.
    + constructor; [exists raw, c; auto|exact Hms].
    + rewrite <- app_assoc. reflexivity.
Qed.

Lemma decrypt_chunks_blocks k : forall chunks ms decrypted_chunks,
  Forall2 (block_plain k) chunks ms ->
  decrypt_chunks k chunks decrypted_chunks = Ok (decrypted_chunks ++ ms).
Proof.
  induction chunks as [|chunk chunks IH]; intros ms acc H;
    inversion H as [|? m ? ms' (raw & c & Hraw & Hc & Hm) Hrest]; subst.
  - rewrite app_nil_r. reflexivity.
  - cbn [decrypt_chunks]. rewrite Hraw. cbn [Py.bind].
    rewrite Hc. cbn [Py.bind]. rewrite Hm. cbn [Py.bind].
    rewrite (IH _ _ Hrest), <- app_assoc. reflexivity.
Qed.

Lemma decrypt_body_Ok k em s :
  decrypt_body k em = Ok s <->
  exists ms,
    Forall2 (block_plain k) (split PIPE em) ms /\
    Utf8.decode (concat ms) = Ok s.
Proof.
  unfold decrypt_body. destruct (contains PIPE em) eqn:Hpipe.
  - split.
    + intros H. apply bind_Ok in H as (out & Hout & H).
      apply decrypt_chunks_Ok in Hout as (ms & Hms & ->).
      exists ms. split; [exact Hms|exact H].
    + intros (ms & Hms & H).
      rewrite (decrypt_chunks_blocks _ _ _ [] Hms). exact H.
  - rewrite (SeqFacts.split_no_sep _ _ Hpipe). split.
    + intros H. apply bind_Ok in H as (raw & Hraw & H).
      apply bind_Ok in H as (c & Hc & H).
      apply bind_Ok in H as (m & Hm & H).
      exists [m]. split.
      * constructor; [exists raw, c; auto|constructor].
      * cbn [concat]. rewrite app_nil_r. exact H.
    + intros (ms & Hms & H).
      inversion Hms as [|? m ? ms' (raw & c & Hraw & Hc & Hm) Hrest]; subst.
      inversion Hrest; subst.
      rewrite Hraw. cbn [Py.bind]. rewrite Hc. cbn [Py.bind].
      rewrite Hm. cbn [Py.bind]. cbn [concat] in H.
      rewrite app_nil_r in H. exact H.
Qed.

Lemma decrypt_message_Ok em pem s :
  decrypt_message em pem = Ok s <->
  exists k ms,
    key_of pem = Ok k /\
    Forall2 (block_plain k) (split PIPE em) ms /\
    Utf8.decode (concat ms) = Ok s.
Proof.
  destruct (key_of pem) as [k|e] eqn:Hk.
  - rewrite (decrypt_message_unfold _ _ _ Hk). split.
    + intros H.
      destruct (decrypt_body k em) as [s'|e] eqn:Hb; [|discriminate].
      apply Ok_inj in H. subst s'.
      apply decrypt_body_Ok in Hb as (ms & Hms & Hs).
      exists k, ms. auto.
    + intros (k' & ms & Hk' & Hms & Hs). apply Ok_inj in Hk'. subst k'.
      assert (Hb : decrypt_body k em = Ok s)
        by (apply decrypt_body_Ok; exists ms; auto).
      rewrite Hb. reflexivity.
  - rewrite (decrypt_message_bad_key _ _ _ Hk). split.
    + discriminate.
    + intros (k' & ms & Hk' & _). discriminate.
Qed.

Lemma decrypt_message_raises em pem e :
  decrypt_message em pem = Raise e -> e = decryption_failed.
Proof.
  destruct (key_of pem) as [k|e'] eqn:Hk.
  - rewrite (decrypt_message_unfold _ _ _ Hk).
    destruct (decrypt_body k em); cbn [Py.try_except]; intros H.
    + discriminate.
    + injection H as <-. reflexivity.
  - rewrite (decrypt_message_bad_key _ _ _ Hk).
    intros H. injection H as <-. reflexivity.
Qed.

(** X3: [decrypt_message] is all or nothing.  It returns a string exactly
    when the key imports, every [|]-separated block is base64 that the
    cipher decrypts, and the plaintexts concatenated are UTF-8; then that
    string is their decoding.  Otherwise it raises, and the exception is
    always the one of decryption. *)
Theorem decrypt_message_all_or_nothing em pem :
  (forall s,
      decrypt_message em pem = Ok s <->
      exists k ms,
        key_of pem = Ok k /\
        Forall2 (block_plain k) (split PIPE em) ms /\
        Utf8.decode (concat ms) = Ok s) /\
  (forall e, decrypt_message em pem = Raise e -> e = decryption_failed).
Proof.
  split.
  - intros s. apply decrypt_message_Ok.
  - intros e. apply decrypt_message_raises.
Qed.

End Decryption.

(** ** More on the message codec, under the contract of the cipher *)

Section MoreMessages.

Context {R : RSA} {C : RSAContract R}.

(** X4: an encrypted message with an empty block (a leading, a trailing or
    a doubled [|], or the empty string) is refused. *)
Theorem decrypt_message_empty_block em pem :
  In [] (split PIPE em) ->
  decrypt_message em pem = Raise decryption_failed.
Proof.
  intros Hin.
  destruct (decrypt_message em pem) as [s|e] eqn:H.
  - exfalso. apply decrypt_message_Ok in H as (k & ms & _ & Hms & _).
    assert (Hex : exists m, block_plain k [] m).
    { clear -Hin Hms. induction Hms as [|b m bs ms Hb _ IH].
      - contradiction.
      - destruct Hin as [->|Hin]; [eauto|auto]. }
    destruct Hex as (m & raw & c & Hraw & Hc & Hm).
    cbn in Hraw. apply Ok_inj in Hraw. subst raw.
    change (Base64.b64decode []) with (@Ok bytes []) in Hc.
    apply Ok_inj in Hc. subst c.
    destruct (decrypt_length _ _ _ Hm) as [Hlen Hsize].
    cbn [List.length] in Hlen. unfold oaep_overhead in Hsize. lia.
  - rewrite (decrypt_message_raises _ _ _ H). reflexivity.
Qed.

Lemma chunks_of_fit_large k mb :
  256 <= size_in_bytes k ->
  Forall (fun chunk => List.length chunk + oaep_overhead <= size_in_bytes k)
         (chunks_of mb).
Proof.
  intros Hs. eapply Forall_impl; [|apply chunks_of_bound].
  intros chunk Hc. cbv beta in Hc.
  rewrite max_chunk_size_214 in Hc. unfold oaep_overhead. lia.
Qed.

(** X5: the round trip does not need a freshly generated pair.  For every
    private key of at least 2048 bits and the PEM of its public half,
    [decrypt_message(encrypt_message(s, pub), priv) == s]. *)
Theorem round_trip_any_large_key s raw pub priv k t :
  key_of priv = Ok k ->
  has_private k = true ->
  key_of pub = Ok (publickey k) ->
  256 <= size_in_bytes k ->
  Utf8.encode s = Ok raw ->
  exists out t',
    encrypt_message s pub t = (Ok out, t') /\
    decrypt_message out priv = Ok s.
Proof.
  intros Hpriv Hp Hpub Hs Hraw.
  assert (Hs' : 256 <= size_in_bytes (publickey k))
    by (rewrite publickey_size; exact Hs).
  destruct (encrypts_fits (publickey k) (chunks_of raw) t
              (chunks_of_fit_large _ raw Hs')) as (cts & t' & Hcts).
  exists (join PIPE (map block_text cts)), t'. split.
  - exact (encrypt_message_run _ _ _ _ _ _ _ Hpub Hraw Hcts).
  - rewrite (decrypt_message_unfold _ _ _ Hpriv).
    rewrite (decrypt_body_blocks k cts (chunks_of raw)).
    + rewrite chunks_of_concat, (Utf8Facts.decode_encode _ _ Hraw).
      reflexivity.
    + eapply encrypts_nonempty; [apply chunks_of_nonempty|exact Hcts].
    + exact (encrypts_decrypts _ _ _ _ _ Hp Hcts).
Qed.

Lemma chunks_of_head (mb : bytes) :
  exists chunk todo,
    chunks_of mb = chunk :: todo /\
    List.length chunk = Nat.min (List.length mb) max_chunk_size.
Proof.
  unfold chunks_of. rewrite max_chunk_size_214.
  destruct (Nat.leb_spec (List.length mb) 214) as [Hle|Hgt].
  - exists mb, []. split; [reflexivity|lia].
  - destruct (SeqFacts.range_two (List.length mb) 214) as (rest & ->);
      [lia|exact Hgt|].
    cbn [map]. eexists. eexists. split; [reflexivity|].
    unfold slice. cbn [skipn]. rewrite length_firstn. lia.
Qed.

(** X6: the chunk size is fixed at 214 bytes whatever key is imported.
    Under a key too small for the first chunk, that is, with fewer than
    [min(len, 214) + 42] bytes of modulus, [encrypt_message] raises;
    under a 1024-bit key every message over 86 bytes is refused.  The
    cipher is taken to refuse plaintexts too long for its modulus. *)
Theorem encrypt_message_small_key s raw pem k t :
  refuses_long_plaintexts R ->
  key_of pem = Ok k ->
  Utf8.encode s = Ok raw ->
  size_in_bytes k < Nat.min (List.length raw) max_chunk_size + oaep_overhead ->
  exists t', encrypt_message s pem t = (Raise encryption_failed, t').
Proof.
  intros Hrefuse Hk Hraw Hsmall.
  destruct (chunks_of_head raw) as (chunk & todo & Hsplit & Hlen).
  destruct (oaep_encrypt k chunk t) as [[c|e] t'] eqn:Henc.
  - apply Hrefuse in Henc. lia.
  - exists t'.
    exact (encrypt_message_raise _ _ _ _ _ [] [] t chunk todo e t'
             Hk Hraw Hsplit (encrypts_nil _ _) Henc).
Qed.

Lemma encrypts_sizes k t chunks cts t' :
  has_private k = true ->
  encrypts (publickey k) t chunks cts t' ->
  Forall (fun c => List.length c = size_in_bytes k) cts.
Proof.
  intros Hp H. induction H; constructor.
  - match goal with
    | Hc : oaep_encrypt _ _ _ = _ |- _ =>
        apply (decrypt_length _ _ _ (decrypt_encrypt _ _ _ _ _ Hp Hc))
    end.
  - assumption.
Qed.

Lemma join_length (sep : N) (size : nat) (pieces : list str) :
  pieces <> [] ->
  Forall (fun p => List.length p = size) pieces ->
  List.length (join sep pieces) + 1 = (size + 1) * List.length pieces.
Proof.
  induction pieces as [|p ps IH]; intros Hne Hall; [congruence|].
  inversion Hall as [|? ? Hp Hps]; subst.
  destruct ps as [|q ps].
  - cbn [join List.length]. lia.
  - change (join sep (p :: q :: ps)) with (p ++ sep :: join sep (q :: ps)).
    rewrite length_app. cbn [List.length] in *.
    specialize (IH ltac:(discriminate) Hps). lia.
Qed.

(** X7: under a generated key every block of an encrypted message is 344
    characters long, so a message of [n] blocks takes [345 * n - 1]
    characters. *)
Theorem encrypted_message_size s raw pub priv t0 t1 t out t' :
  generate_key_pair t0 = (Ok (pub, priv), t1) ->
  Utf8.encode s = Ok raw ->
  encrypt_message s pub t = (Ok out, t') ->
  Forall (fun block => List.length block = 344) (split PIPE out) /\
  List.length out + 1 = 345 * block_count out.
Proof.
  intros Hgen Hraw H.
  destruct (generate_key_pair_keys _ _ _ _ Hgen)
    as (k & Hp & Hs & Hpriv & Hpub).
  destruct (encrypt_message_Ok _ _ _ _ _ _ _ Hpub Hraw H) as (cts & Hcts & ->).
  assert (Hne : cts <> [])
    by (eapply encrypts_nonempty; [apply chunks_of_nonempty|exact Hcts]).
  assert (Hblocks : Forall (fun block => List.length block = 344)
                           (map block_text cts)).
  { apply Forall_map.
    eapply Forall_impl; [|exact (encrypts_sizes _ _ _ _ _ Hp Hcts)].
    intros c Hc. cbv beta in Hc. unfold block_text.
    rewrite length_map, b64encode_length, Hc, Hs. reflexivity. }
  unfold block_count. rewrite (split_blocks _ Hne). split; [exact Hblocks|].
  apply (join_length PIPE 344); [|exact Hblocks].
  destruct cts; [congruence|discriminate].
Qed.

End MoreMessages.

(** ** More on the password codec *)

Lemma block_text_inj (c1 c2 : bytes) :
  block_text c1 = block_text c2 -> c1 = c2.
Proof.
  intros E. pose proof (block_of_text c1) as H1.
  rewrite E, block_of_text in H1. apply Ok_inj in H1. congruence.
Qed.

Lemma record_of_salt (raw salt1 salt2 : bytes) :
  List.length salt1 = 32 -> List.length salt2 = 32 ->
  record_of raw salt1 = record_of raw salt2 -> salt1 = salt2.
Proof.
  intros H1 H2 E.
  destruct (PasswordFacts.record_reads_back raw salt1 H1) as [<- _].
  destruct (PasswordFacts.record_reads_back raw salt2 H2) as [<- _].
  rewrite E. reflexivity.
Qed.

(** X8: one password hashed under two salts gives two records, and the
    password verifies against both. *)
Theorem salts_make_records_differ (p : str) (raw : bytes) (t1 t2 : tape) :
  Utf8.encode p = Ok raw ->
  salt_of t1 <> salt_of t2 ->
  exists r1 r2 t1' t2',
    hash_password p t1 = (Ok r1, t1') /\
    hash_password p t2 = (Ok r2, t2') /\
    r1 <> r2 /\
    verify_password p r1 = Ok true /\
    verify_password p r2 = Ok true.
Proof.
  intros Hraw Hsalt.
  exists (block_text (record_of raw (salt_of t1))),
    (block_text (record_of raw (salt_of t2))),
    (advance salt_length t1), (advance salt_length t2).
  split; [exact (PasswordFacts.hash_password_run p raw t1 Hraw)|].
  split; [exact (PasswordFacts.hash_password_run p raw t2 Hraw)|].
  split; [|split].
  - intros E. apply block_text_inj in E. apply Hsalt.
    exact (record_of_salt raw _ _ (PasswordFacts.salt_of_length t1)
             (PasswordFacts.salt_of_length t2) E).
  - rewrite (PasswordFacts.verify_hashed p raw raw _
               (PasswordFacts.salt_of_length t1) Hraw).
    rewrite bytes_eqb_refl. reflexivity.
  - rewrite (PasswordFacts.verify_hashed p raw raw _
               (PasswordFacts.salt_of_length t2) Hraw).
    rewrite bytes_eqb_refl. reflexivity.
Qed.

(** [b64decode] passes over what is neither alphabet nor pad. *)
Lemma a2b_loop_filter : forall data quad_pos leftchar pads bin_data,
  Base64.a2b_loop data quad_pos leftchar pads bin_data =
  Base64.a2b_loop (filter Base64.b64_char data) quad_pos leftchar pads bin_data.
Proof.
  induction data as [|b data IH]; intros q l p acc; [reflexivity|].
  cbn [filter]. unfold Base64.b64_char at 1.
  destruct (Base64.a2b b) as [v|] eqn:Hv.
  - cbn [Base64.a2b_loop]. rewrite Hv.
    destruct (Byte.eqb b Base64.BASE64_PAD).
    + destruct (2 <=? q); [destruct (4 <=? q + S p)|];
        try reflexivity; apply IH.
    + destruct q as [|[|[|q]]]; apply IH.
  - destruct (Byte.eqb b Base64.BASE64_PAD) eqn:Hp.
    + cbn [Base64.a2b_loop]. rewrite Hp.
      destruct (2 <=? q); [destruct (4 <=? q + S p)|];
        try reflexivity; apply IH.
    + cbn [Base64.a2b_loop]. rewrite Hp, Hv. apply IH.
Qed.

Lemma b64decode_filter (data : bytes) :
  Base64.b64decode data = Base64.b64decode (filter Base64.b64_char data).
Proof. apply a2b_loop_filter. Qed.

Lemma encode_cons (c : N) (s : str) :
  Utf8.encode (c :: s) =
  (bs <- Utf8.encode_cp c ;; rest <- Utf8.encode s ;; Ok (bs ++ rest))%py.
Proof. reflexivity. Qed.

Lemma encode_skipped (c : N) :
  skipped c = true ->
  Utf8.encode_cp c = Ok [b8 c] /\ Base64.b64_char (b8 c) = false.
Proof.
  unfold skipped. intros H. apply andb_prop in H as [Hlt Hn].
  split.
  - unfold Utf8.encode_cp. rewrite Hlt. reflexivity.
  - destruct (Base64.b64_char (b8 c)); [discriminate|reflexivity].
Qed.

Lemma sprinkled_encode s s' :
  sprinkled s s' ->
  match Utf8.encode s with
  | Ok rb =>
      exists rb',
        Utf8.encode s' = Ok rb' /\
        filter Base64.b64_char rb' = filter Base64.b64_char rb
  | Raise _ => exists e', Utf8.encode s' = Raise e'
  end.
Proof.
  induction 1 as [|c s s' _ IH|c s s' Hc _ IH].
  - exists []. split; reflexivity.
  - rewrite !encode_cons.
    destruct (Utf8.encode_cp c) as [bs|e]; cbn [Py.bind]; [|eauto].
    destruct (Utf8.encode s) as [rb|e].
    + destruct IH as (rb' & -> & Hf). cbn [Py.bind].
      exists (bs ++ rb'). split; [reflexivity|].
      rewrite !filter_app, Hf. reflexivity.
    + destruct IH as (e' & ->). cbn [Py.bind]. eauto.
  - rewrite encode_cons.
    destruct (encode_skipped c Hc) as [-> Hb]. cbn [Py.bind].
    destruct (Utf8.encode s) as [rb|e].
    + destruct IH as (rb' & -> & Hf). cbn [Py.bind].
      exists ([b8 c] ++ rb'). split; [reflexivity|].
      cbn [app filter]. rewrite Hb. exact Hf.
    + destruct IH as (e' & ->). cbn [Py.bind]. eauto.
Qed.

(** X9: [verify_password] reads the record with the lenient [b64decode],
    so ASCII characters outside the base64 alphabet (a newline, a space)
    anywhere in a record change nothing: the record verifies as it would
    without them. *)
Theorem verify_password_skips_junk (p record record' : str) :
  sprinkled record record' ->
  verify_password p record' = verify_password p record.
Proof.
  intros H. apply sprinkled_encode in H. unfold verify_password.
  destruct (Utf8.encode record) as [rb|e].
  - destruct H as (rb' & -> & Hf). cbn [Py.bind].
    rewrite (b64decode_filter rb'), Hf, <- (b64decode_filter rb).
    reflexivity.
  - destruct H as (e' & ->). reflexivity.
Qed.

(* ================================================================= *)
(** ** The statements above, run *)

Lemma toy_refuses_long_plaintexts : refuses_long_plaintexts ToyRSA.rsa.
Proof.
  intros k m t c t'. cbn [oaep_encrypt size_in_bytes ToyRSA.rsa].
  unfold ToyRSA.encrypt.
  destruct (Nat.leb_spec (List.length m + oaep_overhead) (ToyRSA.size k));
    [auto|discriminate].
Qed.

Lemma generate_key_pair_outcome_witness :
  exists k,
    @key_of ToyRSA.rsa Runs.priv = Ok k /\
    @key_of ToyRSA.rsa Runs.pub = Ok (ToyRSA.public k) /\
    ToyRSA.private k = true /\ ToyRSA.size k = 256.
Proof.
  exact (proj2 (proj2 (@generate_key_pair_outcome ToyRSA.rsa ToyFacts.contract
                         ToyRSA.zeros))
           Runs.pub Runs.priv _ RunFacts.generated).
Defined.

Lemma decrypt_message_empty_block_witness :
  In [] (split PIPE (lit "QUJD|")) /\
  @decrypt_message ToyRSA.rsa (lit "QUJD|") Runs.priv
  = Raise decryption_failed.
Proof.
  assert (H : In [] (split PIPE (lit "QUJD|")))
    by (right; left; reflexivity).
  split; [exact H|].
  exact (@decrypt_message_empty_block ToyRSA.rsa ToyFacts.contract
           (lit "QUJD|") Runs.priv H).
Defined.

Lemma round_trip_any_large_key_witness :
  exists out t',
    @encrypt_message ToyRSA.rsa Runs.long_message Runs.pub ToyRSA.ones
    = (Ok out, t') /\
    @decrypt_message ToyRSA.rsa out Runs.priv = Ok Runs.long_message.
Proof.
  exact (@round_trip_any_large_key ToyRSA.rsa ToyFacts.contract
           Runs.long_message Runs.long_bytes Runs.pub Runs.priv
           (ToyRSA.Key true true false) ToyRSA.ones
           eq_refl eq_refl eq_refl (le_n 256) RunFacts.long_message_bytes).
Defined.

Lemma encrypt_message_small_key_witness :
  @key_of ToyRSA.rsa Runs.short_pub = Ok (ToyRSA.Key true false true) /\
  exists t',
    @encrypt_message ToyRSA.rsa Runs.message_300 Runs.short_pub ToyRSA.zeros
    = (Raise encryption_failed, t').
Proof.
  split; [reflexivity|].
  apply (@encrypt_message_small_key ToyRSA.rsa
           Runs.message_300 Runs.bytes_300 Runs.short_pub
           (ToyRSA.Key true false true) ToyRSA.zeros
           toy_refuses_long_plaintexts eq_refl RunFacts.message_300_bytes).
  apply Nat.ltb_lt. vm_compute. reflexivity.
Defined.

Lemma encrypted_message_size_witness :
  exists out t',
    @encrypt_message ToyRSA.rsa Runs.long_message Runs.pub ToyRSA.ones
    = (Ok out, t') /\
    Forall (fun block => List.length block = 344) (split PIPE out) /\
    List.length out + 1 = 345 * block_count out.
Proof.
  destruct (@encrypt_message_succeeds ToyRSA.rsa ToyFacts.contract
              Runs.pub_key Runs.pub Runs.long_message Runs.long_bytes
              ToyRSA.ones eq_refl RunFacts.pub_imports
              RunFacts.long_message_bytes)
    as (cts & t' & Hcts & Henc).
  exists (join PIPE (map block_text cts)), t'. split; [exact Henc|].
  exact (@encrypted_message_size ToyRSA.rsa ToyFacts.contract
           Runs.long_message Runs.long_bytes Runs.pub Runs.priv
           ToyRSA.zeros (advance 1 ToyRSA.zeros) ToyRSA.ones _ t'
           RunFacts.generated RunFacts.long_message_bytes Henc).
Defined.

Lemma salts_make_records_differ_witness :
  salt_of ToyRSA.zeros <> salt_of ToyRSA.ones /\
  exists r1 r2 t1' t2',
    hash_password (lit "abc") ToyRSA.zeros = (Ok r1, t1') /\
    hash_password (lit "abc") ToyRSA.ones = (Ok r2, t2') /\
    r1 <> r2 /\
    verify_password (lit "abc") r1 = Ok true /\
    verify_password (lit "abc") r2 = Ok true.
Proof.
  assert (H : salt_of ToyRSA.zeros <> salt_of ToyRSA.ones)
    by (intros E; vm_compute in E; discriminate E).
  split; [exact H|].
  exact (salts_make_records_differ (lit "abc") (lit_bytes "abc")
           ToyRSA.zeros ToyRSA.ones eq_refl H).
Defined.

Lemma verify_password_skips_junk_witness :
  sprinkled (lit "QQ==") [0x51; 0x0A; 0x51; 0x3D; 0x20; 0x3D]%N /\
  verify_password (lit "abc") [0x51; 0x0A; 0x51; 0x3D; 0x20; 0x3D]%N
  = verify_password (lit "abc") (lit "QQ==").
Proof.
  assert (H : sprinkled (lit "QQ==") [0x51; 0x0A; 0x51; 0x3D; 0x20; 0x3D]%N).
  { change (lit "QQ==") with [0x51; 0x51; 0x3D; 0x3D]%N.
    apply sprinkled_keep. apply sprinkled_skip; [reflexivity|].
    apply sprinkled_keep. apply sprinkled_keep.
    apply sprinkled_skip; [reflexivity|].
    apply sprinkled_keep. apply sprinkled_nil. }
  split; [exact H|].
  exact (verify_password_skips_junk (lit "abc") _ _ H).
Defined.

(** * Text and dictionaries *)

Module TextFacts.
Import Text.

Lemma eqb_eq (a b : str) : eqb a b = true <-> a = b.
Proof.
  revert b. induction a as [|x a IH]; intros [|y b]; cbn [eqb];
    try (split; discriminate); try tauto.
  rewrite andb_true_iff, N.eqb_eq, IH. split.
  - intros [-> ->]. reflexivity.
  - intros E. injection E as -> ->. auto.
Qed.

Lemma eqb_refl (a : str) : eqb a a = true.
Proof. apply eqb_eq. reflexivity. Qed.

Lemma eqb_neq (a b : str) : eqb a b = false <-> a <> b.
Proof.
  split.
  - intros H E. apply eqb_eq in E. congruence.
  - intros H. destruct (eqb a b) eqn:E; [|reflexivity].
    apply eqb_eq in E. contradiction.
Qed.

Lemma eqb_sym (a b : str) : eqb a b = eqb b a.
Proof.
  destruct (eqb a b) eqn:E.
  - apply eqb_eq in E. subst. symmetry. apply eqb_refl.
  - symmetry. apply eqb_neq. apply eqb_neq in E. congruence.
Qed.

Lemma lstrip_spaces (ws s : str) : spaces ws -> lstrip (ws ++ s) = lstrip s.
Proof.
  induction 1 as [|c ws Hc _ IH]; [reflexivity|].
  cbn [app lstrip]. rewrite Hc. exact IH.
Qed.

Lemma lstrip_solid (s rest : str) :
  solid s -> s <> [] -> lstrip (s ++ rest) = s ++ rest.
Proof.
  intros Hs Hne. destruct s as [|c s]; [congruence|].
  inversion Hs as [|? ? Hc _]; subst.
  cbn [app lstrip]. rewrite Hc. reflexivity.
Qed.

Lemma lstrip_all_spaces (ws : str) : spaces ws -> lstrip ws = [].
Proof.
  intros H. rewrite <- (app_nil_r ws). rewrite (lstrip_spaces _ _ H).
  reflexivity.
Qed.

Lemma rstrip_spaces (s ws : str) : spaces ws -> rstrip (s ++ ws) = rstrip s.
Proof.
  intros H. unfold rstrip. rewrite rev_app_distr, lstrip_spaces.
  - reflexivity.
  - apply Forall_rev, H.
Qed.

Lemma rstrip_solid (s : str) : solid s -> rstrip s = s.
Proof.
  intros Hs. unfold rstrip. destruct (rev s) as [|c r] eqn:E.
  - apply (f_equal (@rev N)) in E. rewrite rev_involutive in E. subst.
    reflexivity.
  - assert (Hr : solid (c :: r)) by (rewrite <- E; apply Forall_rev, Hs).
    rewrite <- (app_nil_r (c :: r)), lstrip_solid, app_nil_r, <- E
      by (assumption || discriminate).
    apply rev_involutive.
Qed.

(** Whitespace around text without whitespace is what [strip] removes. *)
Lemma strip_padded (ws1 s ws2 : str) :
  spaces ws1 -> solid s -> spaces ws2 -> strip (ws1 ++ s ++ ws2) = s.
Proof.
  intros H1 Hs H2. unfold strip. rewrite (lstrip_spaces _ _ H1).
  destruct s as [|c s].
  - cbn [app]. rewrite (lstrip_all_spaces _ H2). reflexivity.
  - rewrite (lstrip_solid _ _ Hs) by discriminate.
    rewrite (rstrip_spaces _ _ H2). apply rstrip_solid, Hs.
Qed.

(** [str(n)] is read back by [int]: distinct numbers print differently. *)
Lemma decimal_inj (n m : nat) : decimal n = decimal m -> n = m.
Proof.
  unfold decimal. intros E.
  assert (E1 : list_byte_of_string (NilEmpty.string_of_uint (Nat.to_uint n))
               = list_byte_of_string (NilEmpty.string_of_uint (Nat.to_uint m))).
  { rewrite <- (map_b8_to_N (list_byte_of_string _)), E, map_b8_to_N.
    reflexivity. }
  apply (f_equal string_of_list_byte) in E1.
  rewrite !string_of_list_byte_of_string in E1.
  apply (f_equal NilEmpty.uint_of_string) in E1.
  rewrite !NilEmpty.usu in E1. injection E1 as E1.
  apply (f_equal Nat.of_uint) in E1.
  rewrite !DecimalNat.Unsigned.of_to in E1. exact E1.
Qed.

End TextFacts.

Module DictFacts.
Import Dict.

Section Facts.

Context {V : Type}.

Lemma get_set_same (k : str) (v : V) (d : dict V) :
  get k (set k v d) = Some v.
Proof.
  induction d as [|[k' v'] d IH]; cbn [set get].
  - rewrite TextFacts.eqb_refl. reflexivity.
  - destruct (Text.eqb k k') eqn:E; cbn [get].
    + rewrite TextFacts.eqb_refl. reflexivity.
    + rewrite E. exact IH.
Qed.

Lemma get_set_other (k k' : str) (v : V) (d : dict V) :
  k' <> k -> get k' (set k v d) = get k' d.
Proof.
  intros Hne. induction d as [|[k0 v0] d IH]; cbn [set get].
  - apply TextFacts.eqb_neq in Hne. rewrite Hne. reflexivity.
  - destruct (Text.eqb k k0) eqn:E; cbn [get].
    + apply TextFacts.eqb_eq in E. subst k0.
      apply TextFacts.eqb_neq in Hne. rewrite Hne. reflexivity.
    + destruct (Text.eqb k' k0); [reflexivity|exact IH].
Qed.

Lemma get_del_same (k : str) (d : dict V) : get k (del k d) = None.
Proof.
  unfold del. induction d as [|[k' v'] d IH]; [reflexivity|].
  cbn [filter fst]. destruct (Text.eqb k k') eqn:E; cbn [negb get].
  - exact IH.
  - rewrite E. exact IH.
Qed.

Lemma get_del_other (k k' : str) (d : dict V) :
  k' <> k -> get k' (del k d) = get k' d.
Proof.
  intros Hne. unfold del. induction d as [|[k0 v0] d IH]; [reflexivity|].
  cbn [filter fst]. destruct (Text.eqb k k0) eqn:E; cbn [negb get].
  - apply TextFacts.eqb_eq in E. subst k0.
    apply TextFacts.eqb_neq in Hne. rewrite Hne. exact IH.
  - destruct (Text.eqb k' k0); [reflexivity|exact IH].
Qed.

Lemma get_In (k : str) (v : V) (d : dict V) :
  get k d = Some v -> In (k, v) d.
Proof.
  induction d as [|[k' v'] d IH]; cbn [get]; [discriminate|].
  destruct (Text.eqb k k') eqn:E; intros H.
  - apply TextFacts.eqb_eq in E. injection H as ->. subst. left. reflexivity.
  - right. exact (IH H).
Qed.

Lemma get_None (k : str) (d : dict V) :
  get k d = None <-> ~ In k (keys d).
Proof.
  unfold keys. induction d as [|[k' v'] d IH]; cbn [get map fst In].
  - tauto.
  - destruct (Text.eqb k k') eqn:E.
    + apply TextFacts.eqb_eq in E. subst. split; [discriminate|tauto].
    + apply TextFacts.eqb_neq in E. rewrite IH. split.
      * intros H [E'|Hin]; [congruence|tauto].
      * tauto.
Qed.

Lemma In_get (k : str) (v : V) (d : dict V) :
  NoDup (keys d) -> In (k, v) d -> get k d = Some v.
Proof.
  unfold keys. induction d as [|[k' v'] d IH]; cbn [get map fst In];
    intros Hnd Hin; [contradiction|].
  inversion Hnd as [|? ? Hnot Hnd']; subst.
  destruct Hin as [E|Hin].
  - injection E as -> ->. rewrite TextFacts.eqb_refl. reflexivity.
  - destruct (Text.eqb k k') eqn:E.
    + apply TextFacts.eqb_eq in E. subst k'. exfalso. apply Hnot.
      apply in_map_iff. exists (k, v). auto.
    + exact (IH Hnd' Hin).
Qed.

(** A new key goes to the end. *)
Lemma set_fresh (k : str) (v : V) (d : dict V) :
  get k d = None -> set k v d = d ++ [(k, v)].
Proof.
  induction d as [|[k' v'] d IH]; cbn [get set]; [reflexivity|].
  destruct (Text.eqb k k'); [discriminate|].
  intros H. rewrite (IH H). reflexivity.
Qed.

Lemma del_absent (k : str) (d : dict V) : get k d = None -> del k d = d.
Proof.
  unfold del. induction d as [|[k' v'] d IH]; cbn [get filter fst];
    [reflexivity|].
  destruct (Text.eqb k k'); [discriminate|].
  intros H. cbn [negb]. rewrite (IH H). reflexivity.
Qed.

End Facts.

End DictFacts.

(* ================================================================= *)
(** * [IdentityVerifier] *)

Module VerifierFacts.
Import Verifier.

Lemma gtb_false (n m : Z) : (n <= m)%Z -> (n >? m)%Z = false.
Proof. intros H. rewrite Z.gtb_ltb. apply Z.ltb_ge, H. Qed.

Lemma gtb_true (n m : Z) : (m < n)%Z -> (n >? m)%Z = true.
Proof. intros H. rewrite Z.gtb_ltb. apply Z.ltb_lt, H. Qed.

Section Codes.

Context {sample : Type} (index_of : sample -> nat -> nat).
Context (mail_send : str -> str -> result unit).

Lemma digit_or_nul (i : nat) :
  Text.isspace (nth i digits 0%N) = false /\
  (i < 10 -> is_digit (nth i digits 0%N) = true).
Proof.
  do 10 (destruct i as [|i]; [split; [reflexivity|reflexivity]|]).
  split; [destruct i; reflexivity|lia].
Qed.

Lemma code_solid (g : samples) :
  Text.solid (fst (generate_verification_code index_of g)).
Proof.
  unfold generate_verification_code, choices, Text.solid. cbn [fst].
  apply Forall_map, Forall_forall. intros i _. apply digit_or_nul.
Qed.

(** X10: the verification code is six characters, all decimal digits,
    whenever [floor(random() * 10)] stays below 10. *)
Theorem verification_code_six_digits (g : samples) :
  (forall r n, 0 < n -> index_of r n < n) ->
  List.length (fst (generate_verification_code index_of g)) = 6 /\
  Forall (fun c => is_digit c = true)
         (fst (generate_verification_code index_of g)).
Proof.
  intros Hindex. unfold generate_verification_code, choices. cbn [fst].
  split; [reflexivity|].
  apply Forall_map, Forall_forall. intros i _.
  apply digit_or_nul. apply (Hindex (g i) 10). lia.
Qed.

Lemma stored_after_set now email store g :
  stored_after index_of mail_send now email store g =
  Dict.set email (Entry (sent_code index_of g)
                        (now + minutes code_expiry_minutes))
           store.
Proof.
  unfold stored_after, send_verification_email, sent_code.
  destruct (generate_verification_code index_of g) as [c g'].
  destruct (mail_send email c); reflexivity.
Qed.

(** X11: after [send_verification_email(email)], whether or not the mail
    went out, [verify_code] accepts the code generated for [email], with
    any whitespace around it, up to and including 15 minutes later, and
    removes it from the store. *)
Theorem sent_code_verifies now email store g now' ws1 ws2 :
  (forall r n, 0 < n -> index_of r n < n) ->
  Text.spaces ws1 -> Text.spaces ws2 ->
  (now' <= now + minutes 15)%Z ->
  verify_code now' email (ws1 ++ sent_code index_of g ++ ws2)
              (stored_after index_of mail_send now email store g)
  = (true,
     Dict.del email (stored_after index_of mail_send now email store g)) /\
  Dict.get email
           (Dict.del email (stored_after index_of mail_send now email store g))
  = None.
Proof.
  intros _ H1 H2 Hnow. split; [|apply DictFacts.get_del_same].
  unfold verify_code. rewrite stored_after_set at 1.
  rewrite DictFacts.get_set_same. cbn [expires_at code].
  replace (now' >? now + minutes code_expiry_minutes)%Z with false
    by (symmetry; apply gtb_false; exact Hnow).
  unfold sent_code.
  rewrite (TextFacts.strip_padded _ _ _ H1 (code_solid g) H2).
  rewrite TextFacts.eqb_refl. reflexivity.
Qed.

End Codes.

(** X12: a code is good for one verification.  Once [verify_code] has
    returned true for an address, it returns false for that address
    whatever is submitted, at any time, until a new code is stored. *)
Theorem code_is_single_use now email submitted store store' :
  verify_code now email submitted store = (true, store') ->
  forall now' submitted',
    verify_code now' email submitted' store' = (false, store').
Proof.
  unfold verify_code at 1.
  destruct (Dict.get email store) as [e|]; [|discriminate].
  destruct (now >? expires_at e)%Z; [discriminate|].
  destruct (Text.eqb (Text.strip submitted) (code e)); [|discriminate].
  intros H now' submitted'. injection H as <-.
  unfold verify_code. rewrite DictFacts.get_del_same. reflexivity.
Qed.

(** X13: an expired code is rejected even when it is the right one, and
    it is removed: the address has no code afterwards. *)
Theorem expired_code_is_rejected now email submitted store e :
  Dict.get email store = Some e ->
  (expires_at e < now)%Z ->
  verify_code now email submitted store = (false, Dict.del email store) /\
  Dict.get email (Dict.del email store) = None.
Proof.
  intros He Hexp. split; [|apply DictFacts.get_del_same].
  unfold verify_code. rewrite He.
  replace (now >? expires_at e)%Z with true
    by (symmetry; apply gtb_true; exact Hexp).
  reflexivity.
Qed.

(** X14: a wrong code submitted in time changes nothing in the store, so
    the right code can still be submitted afterwards; there is no limit
    on attempts. *)
Theorem wrong_code_keeps_entry now email submitted store e :
  Dict.get email store = Some e ->
  (now <= expires_at e)%Z ->
  Text.strip submitted <> code e ->
  verify_code now email submitted store = (false, store) /\
  forall now' ws1 ws2,
    Text.spaces ws1 -> Text.spaces ws2 -> Text.solid (code e) ->
    (now' <= expires_at e)%Z ->
    verify_code now' email (ws1 ++ code e ++ ws2) store
    = (true, Dict.del email store).
Proof.
  intros He Hnow Hwrong. split.
  - unfold verify_code. rewrite He.
    replace (now >? expires_at e)%Z with false
      by (symmetry; apply gtb_false; exact Hnow).
    apply TextFacts.eqb_neq in Hwrong. rewrite Hwrong. reflexivity.
  - intros now' ws1 ws2 H1 H2 Hs Hnow'.
    unfold verify_code. rewrite He.
    replace (now' >? expires_at e)%Z with false
      by (symmetry; apply gtb_false; exact Hnow').
    rewrite (TextFacts.strip_padded _ _ _ H1 Hs H2), TextFacts.eqb_refl.
    reflexivity.
Qed.

(** X15: [verify_code] for one address never touches the code of
    another. *)
Theorem verify_code_touches_one_entry now email submitted store other :
  other <> email ->
  Dict.get other (snd (verify_code now email submitted store))
  = Dict.get other store.
Proof.
  intros Hne. unfold verify_code.
  destruct (Dict.get email store) as [e|]; [|reflexivity].
  destruct (now >? expires_at e)%Z; cbn [snd].
  - apply DictFacts.get_del_other, Hne.
  - destruct (Text.eqb (Text.strip submitted) (code e)); cbn [snd].
    + apply DictFacts.get_del_other, Hne.
    + reflexivity.
Qed.

Lemma fold_del {V} (ks : list str) : forall d : Dict.dict V,
  fold_left (fun d k => Dict.del k d) ks d
  = filter (fun kv => negb (listed (fst kv) ks)) d.
Proof.
  induction ks as [|k ks IH]; intros d; cbn [fold_left listed existsb].
  - induction d as [|kv d IHd]; [reflexivity|].
    cbn [filter negb]. f_equal. exact IHd.
  - rewrite IH. unfold Dict.del.
    induction d as [|kv d IHd]; [reflexivity|].
    cbn [filter]. destruct (Text.eqb k (fst kv)); cbn [negb orb filter].
    + exact IHd.
    + rewrite IHd. reflexivity.
Qed.

(** X16: [cleanup_expired_codes] removes exactly the expired codes: what
    is left are the entries not yet expired, in their order. *)
Theorem cleanup_keeps_unexpired (now : Z) (store : storage) :
  NoDup (Dict.keys store) ->
  cleanup_expired_codes now store
  = filter (fun kv => negb (now >? expires_at (snd kv))%Z) store.
Proof.
  intros Hnd. unfold cleanup_expired_codes. rewrite fold_del.
  apply filter_ext_in. intros [k e] Hin. cbn [fst snd]. f_equal.
  destruct (now >? expires_at e)%Z eqn:Hexp.
  - apply existsb_exists. exists k. split; [|apply TextFacts.eqb_refl].
    apply in_map_iff. exists (k, e). split; [reflexivity|].
    apply filter_In. auto.
  - apply not_true_is_false. intros H.
    apply existsb_exists in H as (k' & Hk' & E).
    apply TextFacts.eqb_eq in E. subst k'.
    apply in_map_iff in Hk' as ([k' e'] & Hk & Hf). cbn [fst] in Hk. subst k'.
    apply filter_In in Hf as [Hin' Hexp']. cbn [snd] in Hexp'.
    pose proof (DictFacts.In_get _ _ _ Hnd Hin) as G.
    pose proof (DictFacts.In_get _ _ _ Hnd Hin') as G'.
    rewrite G in G'. injection G' as <-. congruence.
Qed.

(** *** The statements above, run *)

Lemma by_remainder_in_range (r n : nat) :
  0 < n -> VerifierRuns.by_remainder r n < n.
Proof. intros H. apply Nat.mod_upper_bound. lia. Qed.

Lemma verification_code_six_digits_witness :
  List.length
    (fst (generate_verification_code VerifierRuns.by_remainder
            VerifierRuns.counting)) = 6 /\
  Forall (fun c => is_digit c = true)
         (fst (generate_verification_code VerifierRuns.by_remainder
                 VerifierRuns.counting)).
Proof.
  exact (verification_code_six_digits VerifierRuns.by_remainder
           VerifierRuns.counting by_remainder_in_range).
Defined.

Lemma sent_code_verifies_witness :
  Text.spaces [0x20%N] /\ Text.spaces [0x0A%N] /\
  verify_code (minutes 15) VerifierRuns.alice
    ([0x20%N]
       ++ sent_code VerifierRuns.by_remainder VerifierRuns.counting
       ++ [0x0A%N])
    (stored_after VerifierRuns.by_remainder VerifierRuns.mail_down 0
       VerifierRuns.alice VerifierRuns.two_codes VerifierRuns.counting)
  = (true,
     Dict.del VerifierRuns.alice
       (stored_after VerifierRuns.by_remainder VerifierRuns.mail_down 0
          VerifierRuns.alice VerifierRuns.two_codes VerifierRuns.counting)).
Proof.
  assert (H1 : Text.spaces [0x20%N]) by (constructor; [reflexivity|constructor]).
  assert (H2 : Text.spaces [0x0A%N]) by (constructor; [reflexivity|constructor]).
  split; [exact H1|]. split; [exact H2|].
  apply (sent_code_verifies VerifierRuns.by_remainder VerifierRuns.mail_down
           0 VerifierRuns.alice VerifierRuns.two_codes VerifierRuns.counting
           (minutes 15) _ _ by_remainder_in_range H1 H2).
  vm_compute. discriminate.
Defined.

Lemma code_is_single_use_witness :
  verify_code 50 VerifierRuns.alice (lit "111111") VerifierRuns.two_codes
  = (true, [(VerifierRuns.bob, Entry (lit "222222") 200)]) /\
  verify_code 60 VerifierRuns.alice (lit "111111")
              [(VerifierRuns.bob, Entry (lit "222222") 200)]
  = (false, [(VerifierRuns.bob, Entry (lit "222222") 200)]).
Proof.
  assert (H : verify_code 50 VerifierRuns.alice (lit "111111")
                          VerifierRuns.two_codes
              = (true, [(VerifierRuns.bob, Entry (lit "222222") 200)]))
    by (vm_compute; reflexivity).
  split; [exact H|].
  exact (code_is_single_use 50 VerifierRuns.alice (lit "111111")
           VerifierRuns.two_codes _ H 60 (lit "111111")).
Defined.

Lemma expired_code_is_rejected_witness :
  verify_code 150 VerifierRuns.alice (lit "111111") VerifierRuns.two_codes
  = (false, Dict.del VerifierRuns.alice VerifierRuns.two_codes) /\
  Dict.get VerifierRuns.alice
           (Dict.del VerifierRuns.alice VerifierRuns.two_codes) = None.
Proof.
  apply (expired_code_is_rejected 150 VerifierRuns.alice (lit "111111")
           VerifierRuns.two_codes (Entry (lit "111111") 100)).
  - vm_compute. reflexivity.
  - vm_compute. reflexivity.
Defined.

Lemma wrong_code_keeps_entry_witness :
  verify_code 50 VerifierRuns.alice (lit "000000") VerifierRuns.two_codes
  = (false, VerifierRuns.two_codes) /\
  forall now' ws1 ws2,
    Text.spaces ws1 -> Text.spaces ws2 -> Text.solid (lit "111111") ->
    (now' <= 100)%Z ->
    verify_code now' VerifierRuns.alice (ws1 ++ lit "111111" ++ ws2)
                VerifierRuns.two_codes
    = (true, Dict.del VerifierRuns.alice VerifierRuns.two_codes).
Proof.
  apply (wrong_code_keeps_entry 50 VerifierRuns.alice (lit "000000")
           VerifierRuns.two_codes (Entry (lit "111111") 100)).
  - vm_compute. reflexivity.
  - vm_compute. discriminate.
  - intros E. vm_compute in E. discriminate E.
Defined.

Lemma verify_code_touches_one_entry_witness :
  Dict.get VerifierRuns.bob
    (snd (verify_code 50 VerifierRuns.alice (lit "111111")
                      VerifierRuns.two_codes))
  = Dict.get VerifierRuns.bob VerifierRuns.two_codes.
Proof.
  apply (verify_code_touches_one_entry 50 VerifierRuns.alice (lit "111111")
           VerifierRuns.two_codes VerifierRuns.bob).
  intros E. vm_compute in E. discriminate E.
Defined.

Lemma cleanup_keeps_unexpired_witness :
  cleanup_expired_codes 150 VerifierRuns.two_codes
  = filter (fun kv => negb (150 >? expires_at (snd kv))%Z)
           VerifierRuns.two_codes.
Proof.
  apply (cleanup_keeps_unexpired 150 VerifierRuns.two_codes).
  constructor.
  - intros [E|[]]. vm_compute in E. discriminate E.
  - constructor; [intros []|constructor].
Defined.

End VerifierFacts.

(* ================================================================= *)
(** * The view functions of [app.py] *)

Module AppFacts.
Import App.

Local Open Scope string_scope.
Local Open Scope list_scope.

Lemma ret_Ok {A} (a r : A) (t t' : tape) :
  ret a t = (Ok r, t') -> r = a /\ t' = t.
Proof. unfold ret. intros H. injection H as <- <-. auto. Qed.

Lemma raise_Ok {A} (e : exn) (r : A) (t t' : tape) :
  @raise A e t = (Ok r, t') -> False.
Proof. unfold raise. discriminate. Qed.

Lemma lift_Ok {A} (x : result A) (r : A) (t t' : tape) :
  lift x t = (Ok r, t') -> x = Ok r /\ t' = t.
Proof. unfold lift. intros H. injection H as <- <-. auto. Qed.

Lemma try_ret_total {A} (body : rand A) (a : A) (t : tape) :
  exists r t', Rand.try_except body (fun _ => ret a) t = (Ok r, t').
Proof.
  unfold Rand.try_except. destruct (body t) as [[x|e] t1]; unfold ret; eauto.
Qed.

Lemma try_ret_Ok {A} (body : rand A) (a r : A) (t t' : tape) :
  Rand.try_except body (fun _ => ret a) t = (Ok r, t') ->
  body t = (Ok r, t') \/ r = a.
Proof.
  unfold Rand.try_except. destruct (body t) as [[x|e] t1]; intros H.
  - left. exact H.
  - right. apply ret_Ok in H. tauto.
Qed.

Section Views.

Context {R : RSA} (lower : str -> str).

(** What a registration request can come to. *)
Lemma register_outcome post e p c now session s t r t' :
  register lower post e p c now session s t = (Ok r, t') ->
  (store_after r = s /\ session_after r = session /\
   shown r <> Redirect "dashboard") \/
  (exists keys hashed t2,
      post = true /\
      is_empty (lower (Text.strip e)) = false /\
      p = c /\ 6 <= List.length p /\
      existsb (fun user_data =>
                 Text.eqb (email user_data) (lower (Text.strip e)))
              (Dict.values (users s)) = false /\
      generate_key_pair t = (Ok keys, t2) /\
      hash_password p t2 = (Ok hashed, t') /\
      r = registered lower e p now s keys hashed).
Proof.
  unfold register. destruct post.
  2:{ intros H. apply ret_Ok in H as [-> _]. left.
      repeat split. discriminate. }
  destruct (is_empty (lower (Text.strip e))) eqn:He; cbn [orb].
  { intros H. apply ret_Ok in H as [-> _]. left.
    repeat split. discriminate. }
  destruct (is_empty p) eqn:Hp.
  { intros H. apply ret_Ok in H as [-> _]. left.
    repeat split. discriminate. }
  destruct (Text.eqb p c) eqn:Hc; cbn [negb].
  2:{ intros H. apply ret_Ok in H as [-> _]. left.
      repeat split. discriminate. }
  destruct (Nat.ltb_spec (List.length p) 6) as [Hlen|Hlen].
  { intros H. apply ret_Ok in H as [-> _]. left.
    repeat split. discriminate. }
  destruct (existsb _ (Dict.values (users s))) eqn:Hdup.
  { intros H. apply ret_Ok in H as [-> _]. left.
    repeat split. discriminate. }
  intros H. apply try_ret_Ok in H as [H| ->].
  - right.
    apply rand_bind_Ok in H as (keys & t2 & Hkeys & H).
    apply rand_bind_Ok in H as (hashed & t3 & Hhash & H).
    apply ret_Ok in H as [-> ->].
    exists keys, hashed, t2. apply TextFacts.eqb_eq in Hc.
    repeat split; auto.
  - left. repeat split. discriminate.
Qed.

Lemma send_outcome post remail msg now session s t r t' :
  send_message lower post remail msg now session s t = (Ok r, t') ->
  (store_after r = s /\ session_after r = session /\
   shown r <> Redirect "messages_view") \/
  (exists uid sender rid recipient encrypted,
      post = true /\ session = Some uid /\
      Dict.get uid (users s) = Some sender /\
      is_empty (Text.strip msg) = false /\
      find_by_email (lower (Text.strip remail)) (users s) = Some rid /\
      rid <> uid /\
      Dict.get rid (users s) = Some recipient /\
      encrypt_message (Text.strip msg) (public_key recipient) t
      = (Ok encrypted, t') /\
      r = sent now session s uid rid encrypted).
Proof.
  unfold send_message, require_login, get_current_user.
  destruct session as [uid|].
  2:{ intros H. apply ret_Ok in H as [-> _]. left.
      repeat split. discriminate. }
  destruct (Dict.get uid (users s)) as [sender|] eqn:Hsender.
  2:{ intros H. apply ret_Ok in H as [-> _]. left.
      repeat split. discriminate. }
  unfold send_message_view. destruct post.
  2:{ intros H. apply ret_Ok in H as [-> _]. left.
      repeat split. discriminate. }
  destruct (is_empty (lower (Text.strip remail))); cbn [orb].
  { intros H. apply ret_Ok in H as [-> _]. left.
    repeat split. discriminate. }
  destruct (is_empty (Text.strip msg)) eqn:Hmsg.
  { intros H. apply ret_Ok in H as [-> _]. left.
    repeat split. discriminate. }
  destruct (find_by_email (lower (Text.strip remail)) (users s))
    as [rid|] eqn:Hfind.
  2:{ intros H. apply ret_Ok in H as [-> _]. left.
      repeat split. discriminate. }
  destruct (is_empty rid).
  { intros H. apply ret_Ok in H as [-> _]. left.
    repeat split. discriminate. }
  destruct (Text.eqb rid uid) eqn:Hself.
  { intros H. apply ret_Ok in H as [-> _]. left.
    repeat split. discriminate. }
  intros H. apply try_ret_Ok in H as [H| ->].
  - right.
    apply rand_bind_Ok in H as (recipient & t1 & Hrec & H).
    apply lift_Ok in Hrec as [Hrec ->].
    apply rand_bind_Ok in H as (encrypted & t2 & Henc & H).
    apply ret_Ok in H as [-> ->].
    unfold lookup in Hrec.
    destruct (Dict.get rid (users s)) as [recipient'|] eqn:Hget;
      [|discriminate].
    apply Ok_inj in Hrec. subst recipient'.
    apply TextFacts.eqb_neq in Hself.
    exists uid, sender, rid, recipient, encrypted.
    repeat split; auto.
  - left. repeat split. discriminate.
Qed.

Lemma find_by_email_In address : forall items uid,
  find_by_email address items = Some uid ->
  exists u, In (uid, u) items /\ email u = address.
Proof.
  induction items as [|[k u] items IH]; intros uid H; cbn [find_by_email] in H.
  - discriminate.
  - destruct (Text.eqb (email u) address) eqn:E.
    + injection H as <-. apply TextFacts.eqb_eq in E.
      exists u. split; [left; reflexivity|exact E].
    + destruct (IH uid H) as (u' & Hin & He).
      exists u'. split; [right; exact Hin|exact He].
Qed.

Lemma In_get_some {V} (k : str) (v : V) (d : Dict.dict V) :
  In (k, v) d -> exists v', Dict.get k d = Some v'.
Proof.
  intros Hin. destruct (Dict.get k d) as [v'|] eqn:G; [eauto|].
  exfalso. apply DictFacts.get_None in G. apply G.
  unfold Dict.keys. apply in_map_iff. exists (k, v). auto.
Qed.

Lemma find_by_email_get address items uid :
  find_by_email address items = Some uid ->
  exists u, Dict.get uid items = Some u.
Proof.
  intros H. destruct (find_by_email_In _ _ _ H) as (u & Hin & _).
  exact (In_get_some _ _ _ Hin).
Qed.

Lemma login_outcome post e p session s t r t' :
  login lower post e p session s t = (Ok r, t') ->
  store_after r = s /\ t' = t /\
  ((session_after r = session /\ shown r <> Redirect "dashboard") \/
   (exists uid account,
       post = true /\
       find_by_email (lower (Text.strip e)) (users s) = Some uid /\
       Dict.get uid (users s) = Some account /\
       verify_password p (password_hash account) = Ok true /\
       r = logged_in uid s)).
Proof.
  unfold login. destruct post.
  2:{ intros H. apply ret_Ok in H as [-> ->].
      repeat split. left. split; [reflexivity|discriminate]. }
  destruct (is_empty (lower (Text.strip e)) || is_empty p).
  { intros H. apply ret_Ok in H as [-> ->].
    repeat split. left. split; [reflexivity|discriminate]. }
  destruct (find_by_email (lower (Text.strip e)) (users s)) as [uid|] eqn:Hf.
  2:{ intros H. apply ret_Ok in H as [-> ->].
      repeat split. left. split; [reflexivity|discriminate]. }
  destruct (is_empty uid).
  { intros H. apply ret_Ok in H as [-> ->].
    repeat split. left. split; [reflexivity|discriminate]. }
  intros H.
  apply rand_bind_Ok in H as (account & t1 & Hacc & H).
  apply lift_Ok in Hacc as [Hacc ->].
  apply rand_bind_Ok in H as (accepted & t2 & Hv & H).
  apply lift_Ok in Hv as [Hv ->].
  unfold lookup in Hacc.
  destruct (Dict.get uid (users s)) as [account'|] eqn:Hget; [|discriminate].
  apply Ok_inj in Hacc. subst account'.
  destruct accepted; apply ret_Ok in H as [-> ->]; repeat split.
  - right. exists uid, account. auto.
  - left. split; [reflexivity|discriminate].
Qed.

Lemma guarded_store (f : option str -> store -> rand reply) session s t r t' :
  (forall t r t', f session s t = (Ok r, t') -> store_after r = s) ->
  require_login f session s t = (Ok r, t') -> store_after r = s.
Proof.
  intros Hf. unfold require_login.
  destruct (get_current_user session s).
  - apply Hf.
  - intros H. apply ret_Ok in H as [-> _]. reflexivity.
Qed.

Lemma dashboard_store session s t r t' :
  dashboard session s t = (Ok r, t') -> store_after r = s.
Proof.
  apply guarded_store. clear. intros t r t' H. unfold dashboard_view in H.
  destruct session as [uid|]; [|exfalso; exact (raise_Ok _ _ _ _ H)].
  apply rand_bind_Ok in H as (l & t1 & _ & H).
  apply ret_Ok in H as [-> _]. reflexivity.
Qed.

Lemma messages_view_store session s t r t' :
  messages_view session s t = (Ok r, t') -> store_after r = s.
Proof.
  apply guarded_store. clear. intros t r t' H. unfold messages_view_body in H.
  destruct session as [uid|]; [|exfalso; exact (raise_Ok _ _ _ _ H)].
  apply rand_bind_Ok in H as (a & t1 & _ & H).
  apply rand_bind_Ok in H as (l & t2 & _ & H).
  apply ret_Ok in H as [-> _]. reflexivity.
Qed.

Lemma users_list_store session s t r t' :
  users_list session s t = (Ok r, t') -> store_after r = s.
Proof.
  apply guarded_store. clear. intros t r t' H. unfold users_list_body in H.
  destruct session as [uid|]; [|exfalso; exact (raise_Ok _ _ _ _ H)].
  apply ret_Ok in H as [-> _]. reflexivity.
Qed.

(** Every served request has one of the three effects. *)
Lemma serve_effect req now session s t r t' :
  serve lower req now session s t = (Ok r, t') ->
  effect lower s req session now (store_after r).
Proof.
  destruct req as [|post e p c|post e p| | |post remail msg| |];
    cbn [serve]; intros H.
  - apply ret_Ok in H as [-> _]. constructor.
  - apply register_outcome in H
      as [(-> & _)|(keys & hashed & t2 & -> & He & _ & _ & Hdup & Hk & Hh & ->)].
    + constructor.
    + eapply effect_register; eassumption.
  - apply login_outcome in H as (-> & _). constructor.
  - apply ret_Ok in H as [-> _]. constructor.
  - apply dashboard_store in H. rewrite H. constructor.
  - apply send_outcome in H
      as [(-> & _)|(uid & sender & rid & recipient & encrypted & -> & -> &
                    Hs & _ & Hf & Hne & Hr & Henc & ->)].
    + constructor.
    + eapply effect_send; eassumption.
  - apply messages_view_store in H. rewrite H. constructor.
  - apply users_list_store in H. rewrite H. constructor.
Qed.

(** *** Identifiers *)

Lemma user_key_inj (n m : nat) : user_key n = user_key m -> n = m.
Proof.
  unfold user_key. intros E. apply app_inv_head in E.
  apply TextFacts.decimal_inj, E.
Qed.

Lemma message_key_inj (n m : nat) : message_key n = message_key m -> n = m.
Proof.
  unfold message_key. intros E. apply app_inv_head in E.
  apply TextFacts.decimal_inj, E.
Qed.

Lemma next_key_fresh {V} (key : nat -> str) (d : Dict.dict V) :
  (forall n m, key n = key m -> n = m) ->
  Dict.keys d = map key (seq 1 (List.length d)) ->
  Dict.get (key (List.length d + 1)) d = None.
Proof.
  intros Hinj Hkeys. apply DictFacts.get_None. rewrite Hkeys.
  intros Hin. apply in_map_iff in Hin as (i & E & Hi).
  apply Hinj in E. apply in_seq in Hi. lia.
Qed.

Lemma next_key_keys {V} (key : nat -> str) (d : Dict.dict V) (v : V) :
  Dict.keys d = map key (seq 1 (List.length d)) ->
  Dict.keys (d ++ [(key (List.length d + 1), v)])
  = map key (seq 1 (List.length (d ++ [(key (List.length d + 1), v)]))).
Proof.
  intros Hkeys. unfold Dict.keys in *.
  rewrite map_app, length_app, Hkeys. cbn [map fst List.length].
  rewrite Nat.add_1_r, seq_S, map_app. reflexivity.
Qed.

Lemma mem_app {V} (k : str) (d d' : Dict.dict V) :
  Dict.mem k d = true -> Dict.mem k (d ++ d') = true.
Proof.
  unfold Dict.mem. induction d as [|[k' v'] d IH]; cbn [Dict.get app].
  - discriminate.
  - destruct (Text.eqb k k'); [reflexivity|exact IH].
Qed.

Lemma get_app {V} (k : str) (v : V) (d d' : Dict.dict V) :
  Dict.get k d = Some v -> Dict.get k (d ++ d') = Some v.
Proof.
  induction d as [|[k' v'] d IH]; cbn [Dict.get app].
  - discriminate.
  - destruct (Text.eqb k k'); [auto|exact IH].
Qed.

Lemma mem_get {V} (k : str) (v : V) (d : Dict.dict V) :
  Dict.get k d = Some v -> Dict.mem k d = true.
Proof. unfold Dict.mem. intros ->. reflexivity. Qed.

Lemma existsb_email_false address (d : Dict.dict user) :
  existsb (fun user_data => Text.eqb (email user_data) address)
          (Dict.values d) = false ->
  ~ In address (map email (Dict.values d)).
Proof.
  intros H Hin. apply in_map_iff in Hin as (u & E & Hu).
  assert (Ht : existsb (fun user_data => Text.eqb (email user_data) address)
                       (Dict.values d) = true).
  { apply existsb_exists. exists u. split; [exact Hu|].
    apply TextFacts.eqb_eq, E. }
  congruence.
Qed.

Lemma NoDup_snoc {A} (l : list A) (a : A) :
  NoDup l -> ~ In a l -> NoDup (l ++ [a]).
Proof.
  intros Hnd Hnot. apply NoDup_rev in Hnd.
  rewrite <- (rev_involutive (l ++ [a])). apply NoDup_rev.
  rewrite rev_app_distr. cbn [rev app]. constructor; [|exact Hnd].
  rewrite <- in_rev. exact Hnot.
Qed.

(** *** The invariant *)

Lemma effect_well_formed s req session now s' :
  well_formed s -> effect lower s req session now s' -> well_formed s'.
Proof.
  intros [Hu He Hm Hp] Heff.
  destruct Heff as [req session now
                   |e p c session now keys hashed t1 t2 t3 t4 Hne Hdup _ _
                   |remail msg uid sender rid recipient encrypted now t1 t2
                      Hs Hf Hneq Hr _].
  - constructor; assumption.
  - pose proof (next_key_fresh user_key (users s) user_key_inj Hu) as Hfresh.
    constructor; cbn [users messages];
      rewrite ?(DictFacts.set_fresh _ _ _ Hfresh).
    + apply next_key_keys, Hu.
    + unfold Dict.values in *. rewrite !map_app. cbn [map snd email].
      apply NoDup_snoc; [exact He|].
      apply (existsb_email_false _ _ Hdup).
    + exact Hm.
    + eapply Forall_impl; [|exact Hp].
      intros m (H1 & H2 & H3). repeat split; auto using mem_app.
  - pose proof (next_key_fresh message_key (messages s) message_key_inj Hm)
      as Hfresh.
    constructor; cbn [users messages];
      rewrite ?(DictFacts.set_fresh _ _ _ Hfresh).
    + exact Hu.
    + exact He.
    + apply next_key_keys, Hm.
    + unfold Dict.values in *. rewrite map_app. apply Forall_app. split.
      * exact Hp.
      * constructor; [|constructor]. cbn [snd sender_id recipient_id].
        repeat split; eauto using mem_get.
Qed.

Lemma empty_well_formed : well_formed empty.
Proof. constructor; cbn; constructor. Qed.

Lemma evolves_well_formed s s' :
  well_formed s -> evolves lower s s' -> well_formed s'.
Proof.
  intros Hwf H. induction H as [|s s' req now session t r t' _ IH Hstep].
  - exact Hwf.
  - eapply effect_well_formed; [exact (IH Hwf)|].
    eapply serve_effect, Hstep.
Qed.

Lemma reachable_evolves s : reachable lower s <-> evolves lower empty s.
Proof.
  split.
  - induction 1 as [|s req now session t r t' _ IH Hstep].
    + apply evolves_refl.
    + eapply evolves_step; [exact IH|exact Hstep].
  - intros H. remember empty as s0 eqn:E.
    induction H as [|s0 s' req now session t r t' _ IH Hstep]; subst.
    + apply reachable_empty.
    + eapply reachable_step; [apply IH; reflexivity|exact Hstep].
Qed.

Lemma reachable_invariant s : reachable lower s -> well_formed s.
Proof.
  intros H. apply reachable_evolves in H.
  exact (evolves_well_formed _ _ empty_well_formed H).
Qed.

(** X17: in every store the application can reach, the user identifiers
    are [user_1 .. user_n] and the message identifiers [msg_1 .. msg_m] in
    order, no two users have the same address, and the sender and the
    recipient of every message are two different registered users. *)
Theorem reachable_well_formed s : reachable lower s -> well_formed s.
Proof.
  intros H. apply reachable_evolves in H.
  apply (evolves_well_formed empty s); [|exact H].
  exact empty_well_formed.
Qed.

(** *** No request fails *)

Lemma lookup_mem {V} (k : str) (d : Dict.dict V) :
  Dict.mem k d = true -> exists v, lookup k d = Ok v.
Proof.
  unfold Dict.mem, lookup. destruct (Dict.get k d); [eauto|discriminate].
Qed.

Lemma summaries_total uid us : forall items acc,
  Forall (parties_known us) (Dict.values items) ->
  exists out, summaries uid us items acc = Ok out.
Proof.
  induction items as [|[k m] items IH]; intros acc H; cbn [summaries].
  - eauto.
  - inversion H as [|? ? [Hs Hr] Hrest]; subst. cbn [snd] in Hs, Hr.
    destruct (_ || _); [|apply IH, Hrest].
    destruct (lookup_mem _ _ Hs) as (sender & ->).
    destruct (lookup_mem _ _ Hr) as (recipient & ->).
    cbn [Py.bind]. apply IH, Hrest.
Qed.

Lemma message_infos_total uid key us : forall items acc,
  Forall (parties_known us) (Dict.values items) ->
  exists out, message_infos uid key us items acc = Ok out.
Proof.
  induction items as [|[k m] items IH]; intros acc H; cbn [message_infos].
  - eauto.
  - inversion H as [|? ? [Hs Hr] Hrest]; subst. cbn [snd] in Hs, Hr.
    destruct (_ || _); [|apply IH, Hrest].
    destruct (lookup_mem _ _ Hs) as (sender & ->).
    destruct (lookup_mem _ _ Hr) as (recipient & ->).
    cbn [Py.bind]. apply IH, Hrest.
Qed.

Lemma well_formed_parties s :
  well_formed s -> Forall (parties_known (users s)) (Dict.values (messages s)).
Proof.
  intros Hwf. eapply Forall_impl; [|exact (wf_parties _ Hwf)].
  intros m (H1 & H2 & _). split; assumption.
Qed.

Lemma login_total post e p session s t :
  exists r t', login lower post e p session s t = (Ok r, t').
Proof.
  unfold login. destruct post; [|unfold ret; eauto].
  destruct (_ || _); [unfold ret; eauto|].
  destruct (find_by_email _ _) as [uid|] eqn:Hf; [|unfold ret; eauto].
  destruct (is_empty uid); [unfold ret; eauto|].
  destruct (find_by_email_get _ _ _ Hf) as (account & Hget).
  unfold lookup. rewrite Hget.
  destruct (PasswordFacts.verify_password_total p (password_hash account))
    as (b & Hb).
  unfold Rand.bind, lift. rewrite Hb.
  destruct b; unfold ret; eauto.
Qed.

Lemma register_total post e p c now session s t :
  exists r t', register lower post e p c now session s t = (Ok r, t').
Proof.
  unfold register. destruct post; [|unfold ret; eauto].
  destruct (_ || _); [unfold ret; eauto|].
  destruct (negb _); [unfold ret; eauto|].
  destruct (Nat.ltb _ _); [unfold ret; eauto|].
  destruct (existsb _ _); [unfold ret; eauto|].
  apply try_ret_total.
Qed.

Lemma send_message_total post remail msg now session s t :
  exists r t', send_message lower post remail msg now session s t = (Ok r, t').
Proof.
  unfold send_message, require_login, get_current_user.
  destruct session as [uid|]; [|unfold ret; eauto].
  destruct (Dict.get uid (users s)); [|unfold ret; eauto].
  unfold send_message_view. destruct post; [|unfold ret; eauto].
  destruct (_ || _); [unfold ret; eauto|].
  destruct (find_by_email _ _) as [rid|]; [|unfold ret; eauto].
  destruct (is_empty rid); [unfold ret; eauto|].
  destruct (Text.eqb rid uid); [unfold ret; eauto|].
  apply try_ret_total.
Qed.

(** X18: in a store the application can reach, no request fails: every
    view function returns a response, whatever the form holds and
    whatever the session says, so none ends in an internal error. *)
Theorem serve_never_fails s req now session t :
  reachable lower s ->
  exists r t', serve lower req now session s t = (Ok r, t').
Proof.
  intros Hreach. apply reachable_invariant in Hreach as Hwf.
  pose proof (well_formed_parties _ Hwf) as Hparties.
  destruct req as [|post e p c|post e p| | |post remail msg| |];
    cbn [serve].
  - unfold index, ret. eauto.
  - apply register_total.
  - apply login_total.
  - unfold logout, ret. eauto.
  - unfold dashboard, require_login, get_current_user.
    destruct session as [uid|]; [|unfold ret; eauto].
    destruct (Dict.get uid (users s)) eqn:Hget; [|unfold ret; eauto].
    unfold dashboard_view.
    destruct (summaries_total uid (users s) (messages s) [] Hparties)
      as (out & Hout).
    unfold Rand.bind, lift. rewrite Hout. unfold ret. eauto.
  - apply send_message_total.
  - unfold messages_view, require_login, get_current_user.
    destruct session as [uid|]; [|unfold ret; eauto].
    destruct (Dict.get uid (users s)) as [account|] eqn:Hget;
      [|unfold ret; eauto].
    unfold messages_view_body, lookup. rewrite Hget.
    destruct (message_infos_total uid (private_key account) (users s)
                (messages s) [] Hparties) as (out & Hout).
    unfold Rand.bind, lift. rewrite Hout. unfold ret. eauto.
  - unfold users_list, require_login, get_current_user.
    destruct session as [uid|]; [|unfold ret; eauto].
    destruct (Dict.get uid (users s)); unfold users_list_body, ret; eauto.
Qed.

(** *** Nothing is lost *)

Lemma effect_keeps s req session now s' :
  well_formed s -> effect lower s req session now s' ->
  (forall uid u, Dict.get uid (users s) = Some u ->
                 Dict.get uid (users s') = Some u) /\
  (forall mid m, Dict.get mid (messages s) = Some m ->
                 Dict.get mid (messages s') = Some m).
Proof.
  intros [Hu He Hm Hp] Heff.
  destruct Heff as [req session now
                   |e p c session now keys hashed t1 t2 t3 t4 Hne Hdup _ _
                   |remail msg uid sender rid recipient encrypted now t1 t2
                      Hs Hf Hneq Hr _]; cbn [users messages].
  - auto.
  - pose proof (next_key_fresh user_key (users s) user_key_inj Hu) as Hfresh.
    rewrite (DictFacts.set_fresh _ _ _ Hfresh). split; [|auto].
    intros uid u H. apply get_app, H.
  - pose proof (next_key_fresh message_key (messages s) message_key_inj Hm)
      as Hfresh.
    rewrite (DictFacts.set_fresh _ _ _ Hfresh). split; [auto|].
    intros mid m H. apply get_app, H.
Qed.

Lemma evolves_keeps s s' :
  well_formed s ->
  evolves lower s s' ->
  (forall uid u, Dict.get uid (users s) = Some u ->
                 Dict.get uid (users s') = Some u) /\
  (forall mid m, Dict.get mid (messages s) = Some m ->
                 Dict.get mid (messages s') = Some m).
Proof.
  intros Hwf H.
  induction H as [|s s' req now session t r t' Hev IH Hstep]; [auto|].
  destruct (IH Hwf) as [IHu IHm].
  pose proof (evolves_well_formed _ _ Hwf Hev) as Hwf'.
  destruct (effect_keeps _ _ _ _ _ Hwf' (serve_effect _ _ _ _ _ _ _ Hstep))
    as [Ku Km].
  split; eauto.
Qed.

(** X19: users and messages are only ever added.  Whatever requests are
    served from a reachable store on, every user and every message in it
    stays, under the same identifier and unchanged. *)
Theorem store_only_grows s s' :
  reachable lower s ->
  evolves lower s s' ->
  (forall uid u, Dict.get uid (users s) = Some u ->
                 Dict.get uid (users s') = Some u) /\
  (forall mid m, Dict.get mid (messages s) = Some m ->
                 Dict.get mid (messages s') = Some m).
Proof.
  intros Hreach. apply evolves_keeps, reachable_invariant, Hreach.
Qed.

(** *** Logging in *)

Lemma find_by_email_unique : forall (d : Dict.dict user) uid u,
  NoDup (map email (Dict.values d)) ->
  Dict.get uid d = Some u ->
  find_by_email (email u) d = Some uid.
Proof.
  unfold Dict.values.
  induction d as [|[k v] d IH]; intros uid u Hnd Hget;
    cbn [Dict.get find_by_email map snd] in *; [discriminate|].
  inversion Hnd as [|? ? Hnot Hnd']; subst.
  destruct (Text.eqb uid k) eqn:Ek.
  - injection Hget as ->. apply TextFacts.eqb_eq in Ek. subst k.
    rewrite TextFacts.eqb_refl. reflexivity.
  - destruct (Text.eqb (email v) (email u)) eqn:Ee.
    + exfalso. apply TextFacts.eqb_eq in Ee. apply Hnot. rewrite Ee.
      apply in_map_iff. exists u. split; [reflexivity|].
      apply in_map_iff. exists (uid, u). split; [reflexivity|].
      apply DictFacts.get_In, Hget.
    + apply IH; assumption.
Qed.

Lemma hash_password_Ok p t hashed t' :
  hash_password p t = (Ok hashed, t') ->
  exists raw,
    Utf8.encode p = Ok raw /\
    hashed = block_text (record_of raw (salt_of t)).
Proof.
  destruct (Utf8.encode p) as [raw|e] eqn:Hraw.
  - rewrite (PasswordFacts.hash_password_run p raw t Hraw).
    intros H. injection H as <- _. eauto.
  - rewrite (PasswordFacts.hash_password_raise p e t Hraw). discriminate.
Qed.

Lemma user_key_not_empty (n : nat) : is_empty (user_key n) = false.
Proof. reflexivity. Qed.

Lemma long_not_empty (p : str) : 6 <= List.length p -> is_empty p = false.
Proof. destruct p; cbn; [lia|reflexivity]. Qed.

(** X20: an account that was registered can log in, then and at any later
    time: after a registration that ended in the redirect to the
    dashboard, a login with the same address and password is accepted in
    every store the application moves to, and opens the session of the
    user the registration created. *)
Theorem registered_user_can_log_in
        s e p c now session t r t' s' session' t2 :
  reachable lower s ->
  serve lower (Register true e p c) now session s t = (Ok r, t') ->
  shown r = Redirect "dashboard" ->
  evolves lower (store_after r) s' ->
  exists uid,
    session_after r = Some uid /\
    serve lower (Login true e p) now session' s' t2
    = (Ok (logged_in uid s'), t2).
Proof.
  intros Hreach Hreg Hshown Hev.
  assert (Hreach1 : reachable lower (store_after r))
    by (eapply reachable_step; eassumption).
  cbn [serve] in Hreg. apply register_outcome in Hreg
    as [(_ & _ & Hno)|(keys & hashed & t3 & _ & He & _ & Hlen & _ & _ & Hh & ->)];
    [contradiction|].
  set (uid := user_key (List.length (users s) + 1)).
  set (u := User (lower (Text.strip e)) hashed (fst keys) (snd keys) true now).
  exists uid. split; [reflexivity|].
  assert (Hget1 : Dict.get uid (users (store_after (registered lower e p now s keys hashed)))
                  = Some u) by apply DictFacts.get_set_same.
  pose proof (reachable_invariant _ Hreach1) as Hwf1.
  destruct (evolves_keeps _ _ Hwf1 Hev) as [Keep _].
  apply Keep in Hget1.
  pose proof (evolves_well_formed _ _ Hwf1 Hev) as Hwf'.
  pose proof (find_by_email_unique _ _ _ (wf_emails _ Hwf') Hget1) as Hfind.
  cbn [email u] in Hfind.
  destruct (hash_password_Ok _ _ _ _ Hh) as (raw & Hraw & Hhashed).
  cbn [serve]. unfold login.
  rewrite He, (long_not_empty _ Hlen). cbn [orb].
  rewrite Hfind. change (is_empty uid) with false. cbv iota.
  unfold lookup. rewrite Hget1.
  unfold Rand.bind, lift. cbn [password_hash u]. rewrite Hhashed.
  rewrite (PasswordFacts.verify_hashed p raw raw _
             (PasswordFacts.salt_of_length t3) Hraw).
  rewrite bytes_eqb_refl. reflexivity.
Qed.

Lemma NoDup_map_inj {A B} (f : A -> B) (l : list A) :
  (forall x y, f x = f y -> x = y) -> NoDup l -> NoDup (map f l).
Proof.
  intros Hf. induction 1 as [|x l Hx Hl IH]; cbn [map]; constructor.
  - intros Hin. apply in_map_iff in Hin as (y & E & Hy).
    apply Hf in E. subst y. contradiction.
  - exact IH.
Qed.

Lemma user_ids_distinct s : well_formed s -> NoDup (Dict.keys (users s)).
Proof.
  intros Hwf. rewrite (wf_user_ids _ Hwf).
  apply NoDup_map_inj; [exact user_key_inj|apply seq_NoDup].
Qed.

(** X21: a login opens a session only for the right password.  A login
    request never changes the store; unless it ends in the redirect to
    the dashboard it leaves the session as it was; and when it does, the
    session is that of the stored user whose address is the submitted
    one, stripped and lower-cased, and the submitted password verifies
    against that user's record. *)
Theorem login_needs_the_password post e p now session s t r t' :
  reachable lower s ->
  serve lower (Login post e p) now session s t = (Ok r, t') ->
  store_after r = s /\
  (shown r <> Redirect "dashboard" -> session_after r = session) /\
  (shown r = Redirect "dashboard" ->
   exists uid account,
     session_after r = Some uid /\
     Dict.get uid (users s) = Some account /\
     email account = lower (Text.strip e) /\
     verify_password p (password_hash account) = Ok true).
Proof.
  intros Hreach H. apply reachable_invariant in Hreach as Hwf.
  cbn [serve] in H. apply login_outcome in H
    as (Hs & _ & [(Hsess & Hno)|(uid & account & _ & Hf & Hget & Hv & ->)]).
  - split; [exact Hs|]. split; [intros _; exact Hsess|].
    intros Hyes. contradiction.
  - split; [exact Hs|]. split; [intros Hno; contradiction Hno; reflexivity|].
    intros _. exists uid, account. split; [reflexivity|].
    split; [exact Hget|]. split; [|exact Hv].
    destruct (find_by_email_In _ _ _ Hf) as (u & Hin & He).
    rewrite (DictFacts.In_get _ _ _ (user_ids_distinct _ Hwf) Hin) in Hget.
    injection Hget as <-. exact He.
Qed.

(** *** Sorting *)

Lemma insert_In {A} (key : A -> Z) (x y : A) (l : list A) :
  In y (Sorting.insert key x l) <-> y = x \/ In y l.
Proof.
  induction l as [|z l IH]; cbn [Sorting.insert In].
  - intuition.
  - destruct (key x <? key z)%Z; cbn [In]; rewrite ?IH; intuition.
Qed.

Lemma sort_desc_In {A} (key : A -> Z) (y : A) (l : list A) :
  In y (Sorting.sort_desc key l) <-> In y l.
Proof.
  unfold Sorting.sort_desc. induction l as [|x l IH]; cbn [fold_right In].
  - tauto.
  - rewrite insert_In, IH. intuition.
Qed.

Lemma insert_descending {A} (key : A -> Z) (x : A) (l : list A) :
  descending key l -> descending key (Sorting.insert key x l).
Proof.
  induction 1 as [|z l Hz Hl IH]; cbn [Sorting.insert].
  - constructor; constructor.
  - destruct (Z.ltb_spec (key x) (key z)).
    + constructor; [|exact IH].
      apply Forall_forall. intros y Hy. apply insert_In in Hy as [->|Hy].
      * lia.
      * rewrite Forall_forall in Hz. auto.
    + constructor; [|constructor; assumption].
      constructor; [lia|].
      eapply Forall_impl; [|exact Hz]. intros y Hy. cbv beta in Hy. lia.
Qed.

Lemma sort_desc_descending {A} (key : A -> Z) (l : list A) :
  descending key (Sorting.sort_desc key l).
Proof.
  unfold Sorting.sort_desc. induction l as [|x l IH]; cbn [fold_right].
  - constructor.
  - apply insert_descending, IH.
Qed.

Lemma sort_desc_length {A} (key : A -> Z) (l : list A) :
  List.length (Sorting.sort_desc key l) = List.length l.
Proof.
  unfold Sorting.sort_desc. induction l as [|x l IH]; cbn [fold_right].
  - reflexivity.
  - cbn [List.length]. rewrite <- IH. generalize (fold_right (Sorting.insert key) [] l).
    intros l'. induction l' as [|z l' IH']; cbn [Sorting.insert].
    + reflexivity.
    + destruct (key x <? key z)%Z; cbn [List.length]; [rewrite IH'|];
        reflexivity.
Qed.

(** *** The messages page *)

Lemma message_infos_step uid key us msg_id msg_data rest acc :
  message_infos uid key us ((msg_id, msg_data) :: rest) acc =
  if Text.eqb (recipient_id msg_data) uid
     || Text.eqb (sender_id msg_data) uid
  then
    (sender <- lookup (sender_id msg_data) us ;;
     recipient <- lookup (recipient_id msg_data) us ;;
     message_infos uid key us rest
       (acc ++ [info_of uid key msg_id msg_data sender recipient]))%py
  else message_infos uid key us rest acc.
Proof. reflexivity. Qed.

Lemma lookup_Ok {V} (k : str) (d : Dict.dict V) (v : V) :
  lookup k d = Ok v <-> Dict.get k d = Some v.
Proof.
  unfold lookup. destruct (Dict.get k d); split; intros H;
    try discriminate; congruence.
Qed.

Lemma involves_dec uid m :
  Text.eqb (recipient_id m) uid || Text.eqb (sender_id m) uid = true
  <-> involves uid m.
Proof.
  unfold involves. rewrite orb_true_iff, !TextFacts.eqb_eq. tauto.
Qed.

(** Every entry comes from a message of the viewer. *)
Lemma message_infos_sound uid key us : forall items acc out,
  message_infos uid key us items acc = Ok out ->
  forall info, In info out ->
  In info acc \/
  exists mid m su ru,
    In (mid, m) items /\ involves uid m /\
    Dict.get (sender_id m) us = Some su /\
    Dict.get (recipient_id m) us = Some ru /\
    info = info_of uid key mid m su ru.
Proof.
  induction items as [|[mid m] items IH]; intros acc out H info Hin.
  - apply Ok_inj in H. subst. left. exact Hin.
  - rewrite message_infos_step in H.
    destruct (_ || _) eqn:Hinv.
    + apply bind_Ok in H as (su & Hsu & H).
      apply bind_Ok in H as (ru & Hru & H).
      destruct (IH _ _ H info Hin) as [Hacc|(mid' & m' & su' & ru' & Hi & Hrest)].
      * apply in_app_iff in Hacc as [Hacc|[<-|[]]]; [left; exact Hacc|].
        right. exists mid, m, su, ru. apply involves_dec in Hinv.
        apply lookup_Ok in Hsu. apply lookup_Ok in Hru.
        repeat split; auto. left. reflexivity.
      * right. exists mid', m', su', ru'. split; [right; exact Hi|exact Hrest].
    + destruct (IH _ _ H info Hin) as [Hacc|(mid' & m' & su' & ru' & Hi & Hrest)].
      * left. exact Hacc.
      * right. exists mid', m', su', ru'. split; [right; exact Hi|exact Hrest].
Qed.

Lemma message_infos_grows uid key us : forall items acc out,
  message_infos uid key us items acc = Ok out ->
  forall info, In info acc -> In info out.
Proof.
  induction items as [|[mid m] items IH]; intros acc out H info Hin.
  - apply Ok_inj in H. subst. exact Hin.
  - rewrite message_infos_step in H. destruct (_ || _).
    + apply bind_Ok in H as (su & _ & H).
      apply bind_Ok in H as (ru & _ & H).
      apply (IH _ _ H). apply in_app_iff. left. exact Hin.
    + apply (IH _ _ H), Hin.
Qed.

(** Every message of the viewer has its entry. *)
Lemma message_infos_complete uid key us mid m : forall items acc out,
  message_infos uid key us items acc = Ok out ->
  In (mid, m) items -> involves uid m ->
  exists su ru,
    Dict.get (sender_id m) us = Some su /\
    Dict.get (recipient_id m) us = Some ru /\
    In (info_of uid key mid m su ru) out.
Proof.
  induction items as [|[mid' m'] items IH]; intros acc out H Hin Hinv.
  - contradiction.
  - rewrite message_infos_step in H. destruct Hin as [E|Hin].
    + injection E as -> ->. apply involves_dec in Hinv. rewrite Hinv in H.
      apply bind_Ok in H as (su & Hsu & H).
      apply bind_Ok in H as (ru & Hru & H).
      apply lookup_Ok in Hsu. apply lookup_Ok in Hru.
      exists su, ru. repeat split; auto.
      apply (message_infos_grows _ _ _ _ _ _ H).
      apply in_app_iff. right. left. reflexivity.
    + destruct (_ || _).
      * apply bind_Ok in H as (su & _ & H).
        apply bind_Ok in H as (ru & _ & H).
        exact (IH _ _ H Hin Hinv).
      * exact (IH _ _ H Hin Hinv).
Qed.

Lemma messages_view_listing now session s t r t' :
  serve lower Messages now session s t = (Ok r, t') ->
  (shown r = Redirect "login" /\ get_current_user session s = None) \/
  (exists uid account infos,
      session = Some uid /\
      Dict.get uid (users s) = Some account /\
      message_infos uid (private_key account) (users s) (messages s) []
      = Ok infos /\
      r = Reply (MessagesPage (Sorting.sort_desc info_sent_at infos))
                [] session s /\ t' = t).
Proof.
  cbn [serve]. unfold messages_view, require_login.
  destruct (get_current_user session s) as [account|] eqn:Hcur.
  - unfold get_current_user in Hcur. destruct session as [uid|]; [|discriminate].
    unfold messages_view_body. intros H.
    apply rand_bind_Ok in H as (account' & t1 & Ha & H).
    apply lift_Ok in Ha as [Ha ->]. apply lookup_Ok in Ha.
    rewrite Hcur in Ha. injection Ha as <-.
    apply rand_bind_Ok in H as (infos & t2 & Hi & H).
    apply lift_Ok in Hi as [Hi ->].
    apply ret_Ok in H as [-> ->].
    right. exists uid, account, infos. auto.
  - intros H. apply ret_Ok in H as [-> _]. left. auto.
Qed.

(** X22: the messages page shows a user only their own messages, newest
    first.  Every
    entry is a stored message that the logged-in user sent or received;
    it is marked as sent exactly when the user is its sender; and it
    carries a decrypted text only when the user is its recipient, the
    text being what [decrypt_message] gives under the user's private
    key. *)
Theorem messages_page_is_private now session s t r t' listing :
  serve lower Messages now session s t = (Ok r, t') ->
  shown r = MessagesPage listing ->
  exists uid account,
    session = Some uid /\ Dict.get uid (users s) = Some account /\
    descending info_sent_at listing /\
    forall info, In info listing ->
    exists m,
      In (info_id info, m) (messages s) /\
      (recipient_id m = uid \/ sender_id m = uid) /\
      (is_sent info = true <-> sender_id m = uid) /\
      (forall text,
          decrypted_content info = Some text ->
          recipient_id m = uid /\
          decrypt_message (encrypted_content m) (private_key account)
          = Ok text).
Proof.
  intros H Hshown. apply messages_view_listing in H
    as [[Hr _]|(uid & account & infos & -> & Hacc & Hinfos & -> & _)].
  - rewrite Hr in Hshown. discriminate.
  - cbn [shown] in Hshown. injection Hshown as <-.
    exists uid, account. split; [reflexivity|]. split; [exact Hacc|].
    split; [apply sort_desc_descending|].
    intros info Hin. apply sort_desc_In in Hin.
    destruct (message_infos_sound _ _ _ _ _ _ Hinfos info Hin)
      as [[]|(mid & m & su & ru & Hm & Hinv & _ & _ & ->)].
    exists m. unfold info_of.
    destruct (Text.eqb (recipient_id m) uid) eqn:Hrec.
    + apply TextFacts.eqb_eq in Hrec.
      destruct (decrypt_message (encrypted_content m) (private_key account))
        as [text|e] eqn:Hd; cbn [info_id is_sent decrypted_content];
        (split; [exact Hm|]); (split; [exact Hinv|]);
        (split; [apply TextFacts.eqb_eq|]); intros text' Ht.
      * injection Ht as <-. auto.
      * discriminate.
    + cbn [info_id is_sent decrypted_content].
      split; [exact Hm|]. split; [exact Hinv|].
      split; [apply TextFacts.eqb_eq|]. discriminate.
Qed.

(** *** The dashboard *)

Lemma summaries_step uid us msg_id msg_data rest acc :
  summaries uid us ((msg_id, msg_data) :: rest) acc =
  if Text.eqb (recipient_id msg_data) uid
     || Text.eqb (sender_id msg_data) uid
  then
    (sender <- lookup (sender_id msg_data) us ;;
     recipient <- lookup (recipient_id msg_data) us ;;
     summaries uid us rest
       (acc ++ [summary_of uid msg_id msg_data sender recipient]))%py
  else summaries uid us rest acc.
Proof. reflexivity. Qed.

Lemma summaries_sound uid us : forall items acc out,
  summaries uid us items acc = Ok out ->
  forall x, In x out ->
  In x acc \/
  exists mid m su ru,
    In (mid, m) items /\ involves uid m /\
    x = summary_of uid mid m su ru.
Proof.
  induction items as [|[mid m] items IH]; intros acc out H x Hin.
  - apply Ok_inj in H. subst. left. exact Hin.
  - rewrite summaries_step in H.
    destruct (_ || _) eqn:Hinv.
    + apply bind_Ok in H as (su & Hsu & H).
      apply bind_Ok in H as (ru & Hru & H).
      destruct (IH _ _ H x Hin) as [Hacc|(mid' & m' & su' & ru' & Hi & Hrest)].
      * apply in_app_iff in Hacc as [Hacc|[<-|[]]]; [left; exact Hacc|].
        right. exists mid, m, su, ru. apply involves_dec in Hinv.
        repeat split; auto. left. reflexivity.
      * right. exists mid', m', su', ru'. split; [right; exact Hi|exact Hrest].
    + destruct (IH _ _ H x Hin) as [Hacc|(mid' & m' & su' & ru' & Hi & Hrest)].
      * left. exact Hacc.
      * right. exists mid', m', su', ru'. split; [right; exact Hi|exact Hrest].
Qed.

Lemma summaries_grows uid us : forall items acc out,
  summaries uid us items acc = Ok out ->
  forall x, In x acc -> In x out.
Proof.
  induction items as [|[mid m] items IH]; intros acc out H x Hin.
  - apply Ok_inj in H. subst. exact Hin.
  - rewrite summaries_step in H. destruct (_ || _).
    + apply bind_Ok in H as (su & _ & H).
      apply bind_Ok in H as (ru & _ & H).
      apply (IH _ _ H). apply in_app_iff. left. exact Hin.
    + apply (IH _ _ H), Hin.
Qed.

Lemma summaries_complete uid us mid m : forall items acc out,
  summaries uid us items acc = Ok out ->
  In (mid, m) items -> involves uid m ->
  exists su ru, In (summary_of uid mid m su ru) out.
Proof.
  induction items as [|[mid' m'] items IH]; intros acc out H Hin Hinv.
  - contradiction.
  - rewrite summaries_step in H. destruct Hin as [E|Hin].
    + injection E as -> ->. apply involves_dec in Hinv. rewrite Hinv in H.
      apply bind_Ok in H as (su & Hsu & H).
      apply bind_Ok in H as (ru & Hru & H).
      exists su, ru.
      apply (summaries_grows _ _ _ _ _ H).
      apply in_app_iff. right. left. reflexivity.
    + destruct (_ || _).
      * apply bind_Ok in H as (su & _ & H).
        apply bind_Ok in H as (ru & _ & H).
        exact (IH _ _ H Hin Hinv).
      * exact (IH _ _ H Hin Hinv).
Qed.

Lemma dashboard_listing now session s t r t' :
  serve lower Dashboard now session s t = (Ok r, t') ->
  (shown r = Redirect "login" /\ get_current_user session s = None) \/
  (exists uid account all,
      session = Some uid /\
      Dict.get uid (users s) = Some account /\
      summaries uid (users s) (messages s) [] = Ok all /\
      r = Reply (DashboardPage
                   (Some account)
                   (firstn 10 (Sorting.sort_desc summary_sent_at all)))
                [] session s /\ t' = t).
Proof.
  cbn [serve]. unfold dashboard, require_login.
  destruct (get_current_user session s) as [account|] eqn:Hcur.
  - unfold dashboard_view. destruct session as [uid|]; [|discriminate].
    intros H.
    apply rand_bind_Ok in H as (all & t1 & Ha & H).
    apply lift_Ok in Ha as [Ha ->].
    apply ret_Ok in H as [-> ->].
    right. exists uid, account, all. rewrite Hcur.
    unfold get_current_user in Hcur. auto.
  - intros H. apply ret_Ok in H as [-> _]. left. auto.
Qed.

Lemma descending_app {A} (key : A -> Z) (a b : list A) :
  descending key (a ++ b) ->
  forall x y, In x a -> In y b -> (key y <= key x)%Z.
Proof.
  induction a as [|z a IH]; intros H x y Hx Hy; [contradiction|].
  inversion H as [|? ? Hz Hrest]; subst.
  destruct Hx as [->|Hx].
  - rewrite Forall_forall in Hz. apply Hz, in_app_iff. right. exact Hy.
  - exact (IH Hrest x y Hx Hy).
Qed.

Lemma descending_firstn {A} (key : A -> Z) (n : nat) (l : list A) :
  descending key l -> descending key (firstn n l).
Proof.
  intros H. revert n. induction H as [|x l Hx Hl IH]; intros [|n];
    cbn [firstn]; try constructor.
  - rewrite Forall_forall in *. intros y Hy. apply Hx.
    rewrite <- (firstn_skipn n l). apply in_app_iff. left. exact Hy.
  - apply IH.
Qed.

(** X23: the dashboard shows a user the ten most recent of their messages.
    Its list has at most ten entries, newest first; every entry is a
    stored message the logged-in user sent or received, marked as sent
    exactly when the user is its sender; and a message of the user that
    has no entry is no newer than any of the ten that have one. *)
Theorem dashboard_shows_latest now session s t r t' current recent :
  serve lower Dashboard now session s t = (Ok r, t') ->
  shown r = DashboardPage current recent ->
  exists uid,
    session = Some uid /\
    current = Dict.get uid (users s) /\
    List.length recent <= 10 /\
    descending summary_sent_at recent /\
    (forall x, In x recent ->
       exists m,
         In (summary_id x, m) (messages s) /\ involves uid m /\
         summary_sent_at x = sent_at m /\
         (summary_is_sent x = true <-> sender_id m = uid)) /\
    (forall mid m,
        In (mid, m) (messages s) -> involves uid m ->
        (exists x, In x recent /\ summary_id x = mid /\
                   summary_sent_at x = sent_at m) \/
        (List.length recent = 10 /\
         forall x, In x recent -> (sent_at m <= summary_sent_at x)%Z)).
Proof.
  intros H Hshown. apply dashboard_listing in H
    as [[Hr _]|(uid & account & all & -> & Hacc & Hall & -> & _)].
  - rewrite Hr in Hshown. discriminate.
  - cbn [shown] in Hshown.
    pose proof (sort_desc_descending summary_sent_at all) as Hdesc.
    set (sorted := Sorting.sort_desc summary_sent_at all) in *.
    remember (firstn 10 sorted) as top eqn:Etop.
    injection Hshown as <- <-. subst top.
    exists uid. split; [reflexivity|]. split; [symmetry; exact Hacc|].
    split; [apply firstn_le_length|].
    split; [apply descending_firstn, Hdesc|]. split.
    + intros x Hin.
      assert (Hx : In x all).
      { apply (sort_desc_In summary_sent_at).
        fold sorted. rewrite <- (firstn_skipn 10 sorted).
        apply in_app_iff. left. exact Hin. }
      destruct (summaries_sound _ _ _ _ _ Hall x Hx)
        as [[]|(mid & m & su & ru & Hm & Hinv & ->)].
      exists m. unfold summary_of.
      cbn [summary_id summary_sent_at summary_is_sent].
      split; [exact Hm|]. split; [exact Hinv|]. split; [reflexivity|].
      apply TextFacts.eqb_eq.
    + intros mid m Hm Hinv.
      destruct (summaries_complete _ _ _ _ _ _ _ Hall Hm Hinv)
        as (su & ru & Hin).
      apply (sort_desc_In summary_sent_at) in Hin. fold sorted in Hin.
      rewrite <- (firstn_skipn 10 sorted) in Hin, Hdesc.
      apply in_app_iff in Hin as [Hin|Hin].
      * left. exists (summary_of uid mid m su ru). auto.
      * right. split.
        -- apply firstn_length_le.
           destruct (Nat.le_gt_cases 10 (List.length sorted)) as [Hle|Hgt];
             [exact Hle|].
           rewrite skipn_all2 in Hin by lia. contradiction.
        -- intros x Hx.
           exact (descending_app _ _ _ Hdesc x _ Hx Hin).
Qed.

(** *** The list of users *)

Lemma ltb_asym : forall a b, ltb a b = true -> ltb b a = false.
Proof.
  induction a as [|x a IH]; intros [|y b] H; cbn [ltb] in *;
    try reflexivity; try discriminate.
  destruct (N.ltb_spec x y), (N.ltb_spec y x), (N.eqb_spec x y),
    (N.eqb_spec y x); cbn [orb andb] in *; try lia; try discriminate;
    try reflexivity.
  apply IH, H.
Qed.

Lemma ltb_false_trans : forall a b c,
  ltb b a = false -> ltb c b = false -> ltb c a = false.
Proof.
  induction a as [|x a IH]; intros [|y b] [|z c] H1 H2; cbn [ltb] in *;
    try reflexivity; try discriminate.
  destruct (N.ltb_spec y x), (N.ltb_spec z y), (N.ltb_spec z x),
    (N.eqb_spec y x), (N.eqb_spec z y), (N.eqb_spec z x);
    cbn [orb andb] in *; try lia; try discriminate; try reflexivity.
  exact (IH _ _ H1 H2).
Qed.

Lemma leb_trans a b c : leb a b = true -> leb b c = true -> leb a c = true.
Proof.
  unfold leb. rewrite !negb_true_iff. intros H1 H2.
  exact (ltb_false_trans _ _ _ H1 H2).
Qed.

Lemma insert_by_email_In x y l :
  In y (insert_by_email x l) <-> y = x \/ In y l.
Proof.
  induction l as [|z l IH]; cbn [insert_by_email In].
  - intuition.
  - destruct (ltb _ _); cbn [In]; rewrite ?IH; intuition.
Qed.

Lemma sort_by_email_In y l : In y (sort_by_email l) <-> In y l.
Proof.
  unfold sort_by_email. induction l as [|x l IH]; cbn [fold_right In].
  - tauto.
  - rewrite insert_by_email_In, IH. intuition.
Qed.

Lemma insert_by_email_ascending x l :
  ascending entry_email l -> ascending entry_email (insert_by_email x l).
Proof.
  induction 1 as [|z l Hz Hl IH]; cbn [insert_by_email].
  - constructor; constructor.
  - destruct (ltb (entry_email z) (entry_email x)) eqn:Hlt.
    + constructor; [|exact IH].
      apply Forall_forall. intros y Hy.
      apply insert_by_email_In in Hy as [->|Hy].
      * unfold leb. rewrite (ltb_asym _ _ Hlt). reflexivity.
      * rewrite Forall_forall in Hz. auto.
    + assert (Hxz : leb (entry_email x) (entry_email z) = true)
        by (unfold leb; rewrite Hlt; reflexivity).
      constructor; [|constructor; assumption].
      constructor; [exact Hxz|].
      eapply Forall_impl; [|exact Hz]. intros y Hy. cbv beta in Hy.
      exact (leb_trans _ _ _ Hxz Hy).
Qed.

Lemma sort_by_email_ascending l : ascending entry_email (sort_by_email l).
Proof.
  unfold sort_by_email. induction l as [|x l IH]; cbn [fold_right].
  - constructor.
  - apply insert_by_email_ascending, IH.
Qed.

(** X24: the users page lists everyone but the viewer, in order of
    address.  An entry is on the page exactly when it is the identifier,
    address and creation time of a stored user whose identifier is not
    the logged-in user's. *)
Theorem users_page_lists_the_others now session s t r t' listing :
  serve lower Users now session s t = (Ok r, t') ->
  shown r = UsersPage listing ->
  exists uid,
    session = Some uid /\
    Dict.mem uid (users s) = true /\
    ascending entry_email listing /\
    forall e,
      In e listing <->
      exists id u,
        In (id, u) (users s) /\ id <> uid /\
        e = UserEntry id (email u) (created_at u).
Proof.
  cbn [serve]. unfold users_list, require_login. intros H Hshown.
  destruct (get_current_user session s) as [account|] eqn:Hcur.
  - unfold users_list_body in H. destruct session as [uid|]; [|discriminate].
    apply ret_Ok in H as [-> _]. cbn [shown] in Hshown.
    injection Hshown as <-.
    exists uid. split; [reflexivity|]. split.
    { unfold Dict.mem. cbn [get_current_user] in Hcur. rewrite Hcur.
      reflexivity. }
    split; [apply sort_by_email_ascending|].
    intros e. rewrite sort_by_email_In, in_map_iff. split.
    + intros ([id u] & <- & Hin). apply filter_In in Hin as [Hin Hne].
      cbn [fst snd] in *. exists id, u.
      apply negb_true_iff, TextFacts.eqb_neq in Hne. auto.
    + intros (id & u & Hin & Hne & ->). exists (id, u).
      split; [reflexivity|]. apply filter_In. split; [exact Hin|].
      cbn [fst]. apply negb_true_iff, TextFacts.eqb_neq, Hne.
  - apply ret_Ok in H as [-> _]. discriminate.
Qed.

(** *** Requests that go through *)

Lemma register_run e p now session s t keys t1 hashed t2 :
  is_empty (lower (Text.strip e)) = false ->
  6 <= List.length p ->
  existsb (fun user_data =>
             Text.eqb (email user_data) (lower (Text.strip e)))
          (Dict.values (users s)) = false ->
  generate_key_pair t = (Ok keys, t1) ->
  hash_password p t1 = (Ok hashed, t2) ->
  serve lower (Register true e p p) now session s t
  = (Ok (registered lower e p now s keys hashed), t2).
Proof.
  intros He Hlen Hdup Hk Hh. cbn [serve]. unfold register.
  rewrite He, (long_not_empty _ Hlen), TextFacts.eqb_refl, Hdup.
  cbn [orb negb].
  destruct (Nat.ltb_spec (List.length p) 6) as [Hlt|_]; [lia|].
  unfold Rand.try_except, Rand.bind. rewrite Hk, Hh. reflexivity.
Qed.

Lemma send_run remail msg now uid sender rid recipient encrypted s t t' :
  Dict.get uid (users s) = Some sender ->
  is_empty (lower (Text.strip remail)) = false ->
  is_empty (Text.strip msg) = false ->
  find_by_email (lower (Text.strip remail)) (users s) = Some rid ->
  is_empty rid = false ->
  rid <> uid ->
  Dict.get rid (users s) = Some recipient ->
  encrypt_message (Text.strip msg) (public_key recipient) t
  = (Ok encrypted, t') ->
  serve lower (SendMessage true remail msg) now (Some uid) s t
  = (Ok (sent now (Some uid) s uid rid encrypted), t').
Proof.
  intros Hs He Hm Hf Hrid Hne Hr Henc. cbn [serve].
  unfold send_message, require_login, get_current_user. rewrite Hs.
  unfold send_message_view. rewrite He, Hm, Hf, Hrid. cbn [orb].
  apply TextFacts.eqb_neq in Hne. rewrite Hne.
  unfold Rand.try_except, Rand.bind, lift, lookup. rewrite Hr, Henc.
  reflexivity.
Qed.

Lemma messages_view_run now uid account s t :
  well_formed s ->
  Dict.get uid (users s) = Some account ->
  exists infos,
    serve lower Messages now (Some uid) s t
    = (Ok (Reply (MessagesPage (Sorting.sort_desc info_sent_at infos))
                 [] (Some uid) s), t).
Proof.
  intros Hwf Hu.
  destruct (message_infos_total uid (private_key account) (users s)
              (messages s) [] (well_formed_parties _ Hwf))
    as (infos & Hinfos).
  exists infos. cbn [serve].
  unfold messages_view, require_login, get_current_user. rewrite Hu.
  unfold messages_view_body, lookup. rewrite Hu.
  unfold Rand.bind, lift. rewrite Hinfos. reflexivity.
Qed.

Lemma dashboard_run now uid account s t :
  well_formed s ->
  Dict.get uid (users s) = Some account ->
  exists all,
    serve lower Dashboard now (Some uid) s t
    = (Ok (Reply (DashboardPage
                    (Some account)
                    (firstn 10 (Sorting.sort_desc summary_sent_at all)))
                 [] (Some uid) s), t).
Proof.
  intros Hwf Hu.
  destruct (summaries_total uid (users s) (messages s) []
              (well_formed_parties _ Hwf))
    as (all & Hall).
  exists all. cbn [serve].
  unfold dashboard, require_login, get_current_user. rewrite Hu.
  unfold dashboard_view, get_current_user. rewrite Hu.
  unfold Rand.bind, lift. rewrite Hall. reflexivity.
Qed.

Context {C : RSAContract R}.

Lemma decrypt_of_encrypted k s pub priv t out t' :
  has_private k = true ->
  key_of priv = Ok k ->
  key_of pub = Ok (publickey k) ->
  encrypt_message s pub t = (Ok out, t') ->
  decrypt_message out priv = Ok s.
Proof.
  intros Hp Hpriv Hpub H.
  destruct (encrypt_message_inputs _ _ _ _ _ H) as (k' & raw & Hk' & Hraw).
  rewrite Hpub in Hk'. apply Ok_inj in Hk'. subst k'.
  destruct (encrypt_message_Ok _ _ _ _ _ _ _ Hpub Hraw H) as (cts & Hcts & ->).
  rewrite (decrypt_message_unfold _ _ _ Hpriv).
  rewrite (decrypt_body_blocks k cts (chunks_of raw)).
  - rewrite chunks_of_concat, (Utf8Facts.decode_encode _ _ Hraw). reflexivity.
  - eapply encrypts_nonempty; [apply chunks_of_nonempty|exact Hcts].
  - exact (encrypts_decrypts _ _ _ _ _ Hp Hcts).
Qed.

Lemma effect_paired s req session now s' :
  well_formed s -> effect lower s req session now s' ->
  Forall paired (Dict.values (users s)) ->
  Forall paired (Dict.values (users s')).
Proof.
  intros Hwf Heff Hall.
  destruct Heff as [req session now
                   |e p c session now keys hashed t1 t2 t3 t4 Hne Hdup Hk _
                   |remail msg uid sender rid recipient encrypted now t1 t2
                      Hs Hf Hneq Hr _]; cbn [users messages]; try exact Hall.
  pose proof (next_key_fresh user_key (users s) user_key_inj
                (wf_user_ids _ Hwf)) as Hfresh.
  rewrite (DictFacts.set_fresh _ _ _ Hfresh).
  unfold Dict.values in *. rewrite map_app. apply Forall_app.
  split; [exact Hall|]. constructor; [|constructor].
  destruct keys as [pub priv].
  destruct (generate_key_pair_keys _ _ _ _ Hk) as (k & Hp & Hsz & Hpriv & Hpub).
  exists k. cbn [snd fst private_key public_key]. auto.
Qed.

Lemma evolves_paired s s' :
  well_formed s -> evolves lower s s' ->
  Forall paired (Dict.values (users s)) ->
  Forall paired (Dict.values (users s')).
Proof.
  intros Hwf H Hall.
  induction H as [|s s' req now session t r t' Hev IH Hstep]; [exact Hall|].
  eapply effect_paired.
  - exact (evolves_well_formed _ _ Hwf Hev).
  - eapply serve_effect, Hstep.
  - exact (IH Hwf Hall).
Qed.

Lemma reachable_paired s uid u :
  reachable lower s -> Dict.get uid (users s) = Some u -> paired u.
Proof.
  intros Hreach Hget. apply reachable_evolves in Hreach.
  pose proof (evolves_paired _ _ (empty_well_formed) Hreach (Forall_nil _))
    as Hall.
  rewrite Forall_forall in Hall. apply Hall.
  unfold Dict.values. apply in_map_iff. exists (uid, u).
  split; [reflexivity|]. apply DictFacts.get_In, Hget.
Qed.

(** X25: a message that was sent reaches its recipient.  After a send that
    ended in the redirect to the messages page, in every store the
    application moves to, the messages page of the recipient holds an
    entry for that message, marked as received, whose decrypted text is
    the message as it was submitted, stripped of surrounding whitespace. *)
Theorem sent_message_is_read
        s remail msg now session t r t' s' now' t2 :
  reachable lower s ->
  serve lower (SendMessage true remail msg) now session s t = (Ok r, t') ->
  shown r = Redirect "messages_view" ->
  evolves lower (store_after r) s' ->
  exists rid listing info,
    find_by_email (lower (Text.strip remail)) (users s) = Some rid /\
    serve lower Messages now' (Some rid) s' t2
    = (Ok (Reply (MessagesPage listing) [] (Some rid) s'), t2) /\
    In info listing /\
    info_id info = message_key (List.length (messages s) + 1) /\
    is_sent info = false /\
    info_sent_at info = now /\
    decrypted_content info = Some (Text.strip msg) /\
    decryption_error info = None.
Proof.
  intros Hreach Hsend Hshown Hev.
  assert (Hreach1 : reachable lower (store_after r))
    by (eapply reachable_step; eassumption).
  cbn [serve] in Hsend. apply send_outcome in Hsend
    as [(_ & _ & Hno)
       |(uid & sender & rid & recipient & encrypted & _ & -> & Hs & _ &
         Hf & Hne & Hr & Henc & ->)]; [contradiction|].
  set (mid := message_key (List.length (messages s) + 1)).
  set (m := Message uid rid encrypted now).
  destruct (reachable_paired _ _ _ Hreach Hr) as (k & Hpriv & Hpub & Hp & _).
  pose proof (decrypt_of_encrypted _ _ _ _ _ _ _ Hp Hpriv Hpub Henc) as Hdec.
  pose proof (reachable_invariant _ Hreach1) as Hwf1.
  destruct (evolves_keeps _ _ Hwf1 Hev) as [KeepU KeepM].
  assert (Hr' : Dict.get rid (users s') = Some recipient)
    by (apply KeepU; exact Hr).
  assert (Hm' : Dict.get mid (messages s') = Some m)
    by (apply KeepM; apply DictFacts.get_set_same).
  pose proof (evolves_well_formed _ _ Hwf1 Hev) as Hwf'.
  destruct (message_infos_total rid (private_key recipient) (users s')
              (messages s') [] (well_formed_parties _ Hwf'))
    as (infos & Hinfos).
  assert (Hinv : involves rid m) by (left; reflexivity).
  destruct (message_infos_complete _ _ _ mid m _ _ _ Hinfos
              (DictFacts.get_In _ _ _ Hm') Hinv)
    as (su & ru & _ & _ & Hin).
  exists rid, (Sorting.sort_desc info_sent_at infos),
    (info_of rid (private_key recipient) mid m su ru).
  split; [exact Hf|]. split; [|split].
  - cbn [serve]. unfold messages_view, require_login, get_current_user.
    rewrite Hr'. unfold messages_view_body, lookup. rewrite Hr'.
    unfold Rand.bind, lift. rewrite Hinfos. reflexivity.
  - apply sort_desc_In, Hin.
  - unfold info_of. cbn [recipient_id sender_id encrypted_content sent_at m].
    rewrite TextFacts.eqb_refl, Hdec.
    cbn [info_id is_sent info_sent_at decrypted_content decryption_error].
    repeat split.
    apply TextFacts.eqb_neq. congruence.
Qed.

End Views.

(** *** The statements above, run: Alice registers, Bob registers, Alice
    writes to Bob *)

Section Scenario.

Import AppRuns.

#[local] Existing Instance ToyRSA.rsa.

Lemma alice_joins :
  exists h1 t1,
    serve lower (Register true alice_form password password) 0 None empty
          ToyRSA.zeros
    = (Ok (alice_joined h1), t1).
Proof.
  eexists. eexists. unfold alice_joined. eapply register_run.
  - vm_compute. reflexivity.
  - apply Nat.leb_le. reflexivity.
  - reflexivity.
  - exact RunFacts.generated.
  - apply (PasswordFacts.hash_password_run _ (lit_bytes "secret1")).
    reflexivity.
Qed.

Lemma bob_joins h1 :
  exists h2 t2,
    serve lower (Register true bob_form password password) 1 None
          (store_after (alice_joined h1)) ToyRSA.ones
    = (Ok (bob_joined h1 h2), t2).
Proof.
  eexists. eexists. unfold bob_joined. eapply register_run.
  - vm_compute. reflexivity.
  - apply Nat.leb_le. reflexivity.
  - vm_compute. reflexivity.
  - reflexivity.
  - apply (PasswordFacts.hash_password_run _ (lit_bytes "secret1")).
    reflexivity.
Qed.

Lemma alice_writes h1 h2 :
  exists encrypted t3,
    serve lower (SendMessage true bob_form greeting) 2 (Some alice_id)
          (store_after (bob_joined h1 h2)) ToyRSA.zeros
    = (Ok (alice_wrote h1 h2 encrypted), t3).
Proof.
  destruct (@encrypt_message_succeeds ToyRSA.rsa ToyFacts.contract
              (ToyRSA.Key false false false) (lit "000")
              (Text.strip greeting) (lit_bytes "hello bob") ToyRSA.zeros
              eq_refl eq_refl eq_refl)
    as (cts & t3 & _ & Henc).
  exists (join PIPE (map block_text cts)), t3. unfold alice_wrote.
  apply (send_run lower bob_form greeting 2 alice_id
           (User (lit "alice@test.com") h1 Runs.pub Runs.priv true 0)
           bob_id
           (User (lit "bob@test.com") h2 (lit "000") Runs.other_priv true 1)).
  - vm_compute. reflexivity.
  - vm_compute. reflexivity.
  - vm_compute. reflexivity.
  - vm_compute. reflexivity.
  - vm_compute. reflexivity.
  - intros E. vm_compute in E. discriminate E.
  - vm_compute. reflexivity.
  - exact Henc.
Qed.

(** The three requests, and the stores they reach. *)
Lemma scenario :
  exists h1 h2 encrypted t1 t3,
    serve lower (Register true alice_form password password) 0 None empty
          ToyRSA.zeros
    = (Ok (alice_joined h1), t1) /\
    serve lower (SendMessage true bob_form greeting) 2 (Some alice_id)
          (store_after (bob_joined h1 h2)) ToyRSA.zeros
    = (Ok (alice_wrote h1 h2 encrypted), t3) /\
    reachable lower (store_after (alice_joined h1)) /\
    reachable lower (store_after (bob_joined h1 h2)) /\
    reachable lower (store_after (alice_wrote h1 h2 encrypted)) /\
    evolves lower (store_after (alice_joined h1))
            (store_after (alice_wrote h1 h2 encrypted)).
Proof.
  destruct alice_joins as (h1 & t1 & E1).
  destruct (bob_joins h1) as (h2 & t2 & E2).
  destruct (alice_writes h1 h2) as (encrypted & t3 & E3).
  exists h1, h2, encrypted, t1, t3.
  pose proof (reachable_step lower _ _ _ _ _ _ _ (reachable_empty lower) E1)
    as R1.
  pose proof (reachable_step lower _ _ _ _ _ _ _ R1 E2) as R2.
  pose proof (reachable_step lower _ _ _ _ _ _ _ R2 E3) as R3.
  split; [exact E1|]. split; [exact E3|].
  split; [exact R1|]. split; [exact R2|]. split; [exact R3|].
  eapply evolves_step; [|exact E3].
  eapply evolves_step; [|exact E2].
  apply evolves_refl.
Qed.

Lemma reachable_well_formed_witness :
  exists h1 h2 encrypted,
    reachable lower (store_after (alice_wrote h1 h2 encrypted)) /\
    well_formed (store_after (alice_wrote h1 h2 encrypted)).
Proof.
  destruct scenario as (h1 & h2 & encrypted & t1 & t3 &
                        _ & _ & _ & _ & R3 & _).
  exists h1, h2, encrypted. split; [exact R3|].
  exact (reachable_well_formed lower _ R3).
Defined.

Lemma serve_never_fails_witness :
  exists h1 h2 encrypted,
    reachable lower (store_after (alice_wrote h1 h2 encrypted)) /\
    exists r t',
      serve lower Dashboard 3 (Some bob_id)
            (store_after (alice_wrote h1 h2 encrypted)) ToyRSA.ones
      = (Ok r, t').
Proof.
  destruct scenario as (h1 & h2 & encrypted & t1 & t3 &
                        _ & _ & _ & _ & R3 & _).
  exists h1, h2, encrypted. split; [exact R3|].
  exact (serve_never_fails lower _ Dashboard 3 (Some bob_id) ToyRSA.ones R3).
Defined.

Lemma store_only_grows_witness :
  exists h1 h2 encrypted,
    reachable lower (store_after (alice_joined h1)) /\
    evolves lower (store_after (alice_joined h1))
            (store_after (alice_wrote h1 h2 encrypted)) /\
    (forall uid u,
        Dict.get uid (users (store_after (alice_joined h1))) = Some u ->
        Dict.get uid (users (store_after (alice_wrote h1 h2 encrypted)))
        = Some u) /\
    (forall mid m,
        Dict.get mid (messages (store_after (alice_joined h1))) = Some m ->
        Dict.get mid (messages (store_after (alice_wrote h1 h2 encrypted)))
        = Some m).
Proof.
  destruct scenario as (h1 & h2 & encrypted & t1 & t3 &
                        _ & _ & R1 & _ & _ & Hev).
  exists h1, h2, encrypted. split; [exact R1|]. split; [exact Hev|].
  exact (store_only_grows lower _ _ R1 Hev).
Defined.

Lemma registered_user_can_log_in_witness :
  exists h1 h2 encrypted t1,
    serve lower (Register true alice_form password password) 0 None empty
          ToyRSA.zeros
    = (Ok (alice_joined h1), t1) /\
    exists uid,
      session_after (alice_joined h1) = Some uid /\
      serve lower (Login true alice_form password) 0 None
            (store_after (alice_wrote h1 h2 encrypted)) ToyRSA.ones
      = (Ok (logged_in uid (store_after (alice_wrote h1 h2 encrypted))),
         ToyRSA.ones).
Proof.
  destruct scenario as (h1 & h2 & encrypted & t1 & t3 &
                        E1 & _ & _ & _ & _ & Hev).
  exists h1, h2, encrypted, t1. split; [exact E1|].
  exact (registered_user_can_log_in lower empty alice_form password password
           0 None ToyRSA.zeros (alice_joined h1) t1
           (store_after (alice_wrote h1 h2 encrypted)) None ToyRSA.ones
           (reachable_empty lower) E1 eq_refl Hev).
Defined.

Lemma login_needs_the_password_witness :
  exists h1 h2 encrypted r t',
    reachable lower (store_after (alice_wrote h1 h2 encrypted)) /\
    serve lower (Login true alice_form password) 3 None
          (store_after (alice_wrote h1 h2 encrypted)) ToyRSA.ones
    = (Ok r, t') /\
    store_after r = store_after (alice_wrote h1 h2 encrypted) /\
    (shown r <> Redirect "dashboard" -> session_after r = None) /\
    (shown r = Redirect "dashboard" ->
     exists uid account,
       session_after r = Some uid /\
       Dict.get uid (users (store_after (alice_wrote h1 h2 encrypted)))
       = Some account /\
       email account = lower (Text.strip alice_form) /\
       verify_password password (password_hash account) = Ok true).
Proof.
  destruct scenario as (h1 & h2 & encrypted & t1 & t3 &
                        _ & _ & _ & _ & R3 & _).
  destruct (login_total lower true alice_form password None
              (store_after (alice_wrote h1 h2 encrypted)) ToyRSA.ones)
    as (r & t' & Hrun).
  exists h1, h2, encrypted, r, t'. split; [exact R3|]. split; [exact Hrun|].
  exact (login_needs_the_password lower true alice_form password 3 None _
           ToyRSA.ones r t' R3 Hrun).
Defined.

Lemma messages_page_is_private_witness :
  exists h1 h2 encrypted listing,
    serve lower Messages 5 (Some bob_id)
          (store_after (alice_wrote h1 h2 encrypted)) ToyRSA.ones
    = (Ok (Reply (MessagesPage listing) [] (Some bob_id)
                 (store_after (alice_wrote h1 h2 encrypted))),
       ToyRSA.ones) /\
    exists uid account,
      Some bob_id = Some uid /\
      Dict.get uid (users (store_after (alice_wrote h1 h2 encrypted)))
      = Some account /\
      descending info_sent_at listing /\
      forall info, In info listing ->
      exists m,
        In (info_id info, m)
           (messages (store_after (alice_wrote h1 h2 encrypted))) /\
        (recipient_id m = uid \/ sender_id m = uid) /\
        (is_sent info = true <-> sender_id m = uid) /\
        (forall text,
            decrypted_content info = Some text ->
            recipient_id m = uid /\
            decrypt_message (encrypted_content m) (private_key account)
            = Ok text).
Proof.
  destruct scenario as (h1 & h2 & encrypted & t1 & t3 &
                        _ & _ & _ & _ & R3 & _).
  assert (Hu : Dict.get bob_id
                 (users (store_after (alice_wrote h1 h2 encrypted)))
               = Some (User (lit "bob@test.com") h2 (lit "000")
                            Runs.other_priv true 1))
    by (vm_compute; reflexivity).
  destruct (messages_view_run lower 5 bob_id _ _ ToyRSA.ones
              (reachable_invariant lower _ R3) Hu) as (infos & Hrun).
  exists h1, h2, encrypted, (Sorting.sort_desc info_sent_at infos).
  split; [exact Hrun|].
  exact (messages_page_is_private lower 5 (Some bob_id) _ ToyRSA.ones _
           ToyRSA.ones _ Hrun eq_refl).
Defined.

Lemma dashboard_shows_latest_witness :
  exists h1 h2 encrypted current recent,
    serve lower Dashboard 5 (Some alice_id)
          (store_after (alice_wrote h1 h2 encrypted)) ToyRSA.ones
    = (Ok (Reply (DashboardPage current recent) [] (Some alice_id)
                 (store_after (alice_wrote h1 h2 encrypted))),
       ToyRSA.ones) /\
    exists uid,
      Some alice_id = Some uid /\
      current
      = Dict.get uid (users (store_after (alice_wrote h1 h2 encrypted))) /\
      List.length recent <= 10 /\
      descending summary_sent_at recent /\
      (forall x, In x recent ->
         exists m,
           In (summary_id x, m)
              (messages (store_after (alice_wrote h1 h2 encrypted))) /\
           involves uid m /\
           summary_sent_at x = sent_at m /\
           (summary_is_sent x = true <-> sender_id m = uid)) /\
      (forall mid m,
          In (mid, m)
             (messages (store_after (alice_wrote h1 h2 encrypted))) ->
          involves uid m ->
          (exists x, In x recent /\ summary_id x = mid /\
                     summary_sent_at x = sent_at m) \/
          (List.length recent = 10 /\
           forall x, In x recent -> (sent_at m <= summary_sent_at x)%Z)).
Proof.
  destruct scenario as (h1 & h2 & encrypted & t1 & t3 &
                        _ & _ & _ & _ & R3 & _).
  assert (Hu : Dict.get alice_id
                 (users (store_after (alice_wrote h1 h2 encrypted)))
               = Some (User (lit "alice@test.com") h1 Runs.pub Runs.priv
                            true 0))
    by (vm_compute; reflexivity).
  destruct (dashboard_run lower 5 alice_id _ _ ToyRSA.ones
              (reachable_invariant lower _ R3) Hu) as (all & Hrun).
  exists h1, h2, encrypted, (Some (User (lit "alice@test.com") h1 Runs.pub
                                        Runs.priv true 0)),
    (firstn 10 (Sorting.sort_desc summary_sent_at all)).
  split; [exact Hrun|].
  exact (dashboard_shows_latest lower 5 (Some alice_id) _ ToyRSA.ones _
           ToyRSA.ones _ _ Hrun eq_refl).
Defined.

Lemma users_page_lists_the_others_witness :
  exists h1 h2,
    serve lower Users 5 (Some alice_id) (store_after (bob_joined h1 h2))
          ToyRSA.ones
    = (Ok (Reply (UsersPage [UserEntry bob_id (lit "bob@test.com") 1]) []
                 (Some alice_id) (store_after (bob_joined h1 h2))),
       ToyRSA.ones) /\
    exists uid,
      Some alice_id = Some uid /\
      Dict.mem uid (users (store_after (bob_joined h1 h2))) = true /\
      ascending entry_email [UserEntry bob_id (lit "bob@test.com") 1] /\
      forall e,
        In e [UserEntry bob_id (lit "bob@test.com") 1] <->
        exists id u,
          In (id, u) (users (store_after (bob_joined h1 h2))) /\
          id <> uid /\
          e = UserEntry id (email u) (created_at u).
Proof.
  destruct scenario as (h1 & h2 & encrypted & t1 & t3 & _).
  assert (Hrun :
            serve lower Users 5 (Some alice_id)
                  (store_after (bob_joined h1 h2)) ToyRSA.ones
            = (Ok (Reply (UsersPage [UserEntry bob_id (lit "bob@test.com") 1])
                         [] (Some alice_id) (store_after (bob_joined h1 h2))),
               ToyRSA.ones))
    by (vm_compute; reflexivity).
  exists h1, h2. split; [exact Hrun|].
  exact (users_page_lists_the_others lower 5 (Some alice_id) _ ToyRSA.ones _
           ToyRSA.ones _ Hrun eq_refl).
Defined.

Lemma sent_message_is_read_witness :
  exists h1 h2 encrypted t3,
    reachable lower (store_after (bob_joined h1 h2)) /\
    serve lower (SendMessage true bob_form greeting) 2 (Some alice_id)
          (store_after (bob_joined h1 h2)) ToyRSA.zeros
    = (Ok (alice_wrote h1 h2 encrypted), t3) /\
    exists rid listing info,
      find_by_email (lower (Text.strip bob_form))
                    (users (store_after (bob_joined h1 h2))) = Some rid /\
      serve lower Messages 5 (Some rid)
            (store_after (alice_wrote h1 h2 encrypted)) ToyRSA.ones
      = (Ok (Reply (MessagesPage listing) [] (Some rid)
                   (store_after (alice_wrote h1 h2 encrypted))),
         ToyRSA.ones) /\
      In info listing /\
      info_id info
      = message_key
          (List.length (messages (store_after (bob_joined h1 h2))) + 1) /\
      is_sent info = false /\
      info_sent_at info = 2%Z /\
      decrypted_content info = Some (Text.strip greeting) /\
      decryption_error info = None.
Proof.
  destruct scenario as (h1 & h2 & encrypted & t1 & t3 &
                        _ & E3 & _ & R2 & _ & _).
  exists h1, h2, encrypted, t3. split; [exact R2|]. split; [exact E3|].
  exact (@sent_message_is_read ToyRSA.rsa lower ToyFacts.contract
           _ bob_form greeting 2 (Some alice_id) ToyRSA.zeros
           (alice_wrote h1 h2 encrypted) t3
           (store_after (alice_wrote h1 h2 encrypted)) 5 ToyRSA.ones
           R2 E3 eq_refl (evolves_refl lower _)).
Defined.

End Scenario.

End AppFacts.
